(** * SnapMatch: the fingerprinting and matching engine

    A shallow embedding of [snapmatch/hashing.py], [snapmatch/matching.py],
    [snapmatch/io_utils.py] and the hashing phase of [snapmatch/cli.py].

    Python integers are [Z]; [Path] objects and [str] are [string], a
    [str] being held as its UTF-8 encoding; a [dict] is a [gmap]; a
    function that can raise returns a [result]. *)

From Stdlib Require Import ZArith Lia Ascii String.
From stdpp Require Import gmap strings list fin_maps.

Local Open Scope string_scope.
Local Open Scope list_scope.
Local Open Scope Z_scope.

(** ** Exceptions *)

(** The exception classes the modelled code can meet.  All of them derive
    from Python's [Exception]; [OSError] is the only one that some handler
    singles out. *)
Inductive exn : Type :=
| OSError
| IndexError
| KeyError
| TypeError
| ValueError
| UnidentifiedImageError
| BrokenProcessPool.

Inductive result (A : Type) : Type :=
| Ok (a : A)
| Raise (e : exn).
Arguments Ok {A} a.
Arguments Raise {A} e.

(** Sequencing: an exception raised by the first computation ends the
    whole one.  stdpp's [x ← r; k] notation is used for it. *)
#[global] Instance result_bind : MBind result :=
  fun A B (k : A → result B) (r : result A) =>
    match r with
    | Ok a => k a
    | Raise e => Raise e
    end.

#[global] Instance result_ret : MRet result := fun A a => Ok a.

(** [try: body except Exception: handler]. *)
Definition try_except {A} (body : result A) (handler : exn → result A)
  : result A :=
  match body with
  | Ok a => Ok a
  | Raise e => handler e
  end.

(** A [for] loop over a list whose body may raise, threading the loop
    variables through. *)
Fixpoint for_each {S A} (body : S → A → result S) (s : S) (xs : list A)
  : result S :=
  match xs with
  | [] => Ok s
  | x :: rest => s' ← body s x; for_each body s' rest
  end.

(** [xs[i]] for a non-negative index. *)
Definition getitem {A} (xs : list A) (i : nat) : result A :=
  match xs !! i with
  | Some x => Ok x
  | None => Raise IndexError
  end.

(** ** The world outside the program

    What the program reads from its environment during one run, fixed for
    the run: file metadata, path canonicalisation, directory enumeration
    and image decoding (Pillow). *)

Record stat_result : Type := mkStat { st_mtime_ns : Z; st_size : Z }.

Record Env : Type := mkEnv {
  (** [Path.stat()]; [None] stands for an [OSError]. *)
  stat : string → option stat_result;
  (** [Path.expanduser()]. *)
  expanduser : string → string;
  (** [Path.resolve()]. *)
  resolve : string → string;
  (** [Path.parents], the proper ancestors of a path, nearest first. *)
  parents : string → list string;
  (** [list(iter_images(root))] for a resolved [root]. *)
  walk_images : string → list string;
  (** [list(Image.open(path).convert("L").resize((9, 8), BILINEAR).getdata())],
      or the exception raised on the way. *)
  decode : string → result (list Z);
  (** [os.cpu_count()], the default size of a process pool. *)
  cpu_count : nat
}.

(** ** hashing.py *)

Module hashing.

Record ImageHash : Type := mkImageHash { path : string; dhash : Z }.

(** Number of ones in the binary writing of a positive number. *)
Fixpoint pos_bit_count (p : positive) : Z :=
  match p with
  | xH => 1
  | xO q => pos_bit_count q
  | xI q => 1 + pos_bit_count q
  end.

(** [int.bit_count()]: the number of ones in the binary writing of the
    absolute value.  [bin(x).count("1")], the fallback of the source,
    counts the same digits. *)
Definition bit_count (x : Z) : Z :=
  match x with
  | Z0 => 0
  | Zpos p => pos_bit_count p
  | Zneg p => pos_bit_count p
  end.

Definition hamming_distance (a b : Z) : Z :=
  let x := Z.lxor a b in
  bit_count x.

(** One pass of the inner loop of [dhash64]: the loop variables are
    [h] and [bit]. *)
Definition dhash_col (px : list Z) (base : nat) (hb : Z * Z) (col : nat)
  : result (Z * Z) :=
  let '(h, bit) := hb in
  (left ← getitem px (base + col);
   right ← getitem px (base + col + 1);
   let h := if right >? left then Z.lor h bit else h in
   let bit := Z.shiftr bit 1 in
   Ok (h, bit)).

Definition dhash_row (px : list Z) (hb : Z * Z) (row : nat)
  : result (Z * Z) :=
  let base := (row * 9)%nat in
  for_each (dhash_col px base) hb (seq 0 8).

(** The part of [dhash64] after decoding: [px] is the flat sequence
    [list(img.getdata())] of the 9x8 grayscale image. *)
Definition dhash_pixels (px : list Z) : result Z :=
  let h := 0 in
  let bit := Z.shiftl 1 63 in
  ('(h, _) ← for_each (dhash_row px) (h, bit) (seq 0 8);
   Ok h).

Definition iter_images (w : Env) (root : string) : list string :=
  let root := resolve w (expanduser w root) in
  walk_images w root.

Definition dhash64 (w : Env) (path : string) : result (option Z) :=
  try_except
    (px ← decode w path;
     h ← dhash_pixels px;
     Ok (Some h))
    (fun _ => Ok None).

(** The comparison made at row [r], column [c] of the grid. *)
Definition gt_right (px : list Z) (r c : nat) : bool :=
  match px !! (r * 9 + c)%nat, px !! (r * 9 + c + 1)%nat with
  | Some lft, Some rgt => rgt >? lft
  | _, _ => false
  end.

(** Invariant of the two loops of [dhash_pixels] after [k] comparisons:
    [bit] is the mask of comparison [k], and [h] holds the first [k]
    comparisons in its top [k] bits and nothing else. *)
Definition dhash_inv (px : list Z) (k : nat) (hb : Z * Z) : Prop :=
  hb.2 = Z.shiftr (2 ^ 63) (Z.of_nat k)
  ∧ 0 <= hb.1
  ∧ (∀ r c : nat, (c < 8)%nat → (8 * r + c < k)%nat →
       Z.testbit hb.1 (63 - Z.of_nat (8 * r + c)) = gt_right px r c)
  ∧ (∀ i, 0 <= i → i <= 63 - Z.of_nat k ∨ 63 < i →
       Z.testbit hb.1 i = false).

End hashing.

(** ** matching.py *)

Module matching.
Import hashing.

Record MatchResult : Type := mkMatchResult {
  edited_path : string;
  edited_hash : Z;
  matched_raw_path : option string;
  matched_raw_hash : option Z;
  distance : option Z;
  status : string
}.

(** Loop variables of the scan, with [examined], a counter of the
    entries whose distance was computed (it is not in the source: it
    makes the [break] observable). *)
Record scan_state : Type := mkScan {
  best_idx : option nat;
  best_dist : Z;
  examined : nat
}.

(** The [for i, rh in enumerate(raw_hashes)] loop, from index [i] on. *)
Fixpoint scan (ehash : Z) (raw_hashes : list ImageHash) (i : nat)
    (s : scan_state) : scan_state :=
  match raw_hashes with
  | [] => s
  | rh :: rest =>
      let d := hamming_distance ehash (dhash rh) in
      if d <? best_dist s then
        let s' := mkScan (Some i) d (S (examined s)) in
        if d =? 0 then s'
        else scan ehash rest (S i) s'
      else
        scan ehash rest (S i)
             (mkScan (best_idx s) (best_dist s) (S (examined s)))
  end.

Definition scan_all (edited : ImageHash) (raw_hashes : list ImageHash)
  : scan_state :=
  scan (dhash edited) raw_hashes 0 (mkScan None (10 ^ 9) 0).

Definition find_best_match (edited : ImageHash)
    (raw_hashes : list ImageHash) (max_distance : Z) : result MatchResult :=
  let s := scan_all edited raw_hashes in
  match best_idx s with
  | None =>
      Ok (mkMatchResult (path edited) (dhash edited) None None None
                        "no_match")
  | Some i =>
      (best ← getitem raw_hashes i;
       if best_dist s <=? max_distance then
         Ok (mkMatchResult (path edited) (dhash edited)
                           (Some (path best)) (Some (dhash best))
                           (Some (best_dist s)) "matched")
       else
         Ok (mkMatchResult (path edited) (dhash edited)
                           (Some (path best)) (Some (dhash best))
                           (Some (best_dist s)) "no_match"))
  end.

(** The words of the specification: a 64-bit fingerprint, and a
    nearest entry of a reference sequence. *)
Definition fingerprint64 (h : Z) : Prop := 0 <= h < 2 ^ 64.

Definition dist_to (edited : ImageHash) (rh : ImageHash) : Z :=
  hamming_distance (dhash edited) (dhash rh).

(** [rh], at index [k], is the first entry of [raw] at the least
    distance from [edited]. *)
Definition first_nearest (edited : ImageHash) (raw : list ImageHash)
    (k : nat) (rh : ImageHash) : Prop :=
  raw !! k = Some rh
  ∧ (∀ j x, raw !! j = Some x → dist_to edited rh <= dist_to edited x)
  ∧ (∀ j x, (j < k)%nat → raw !! j = Some x →
            dist_to edited rh < dist_to edited x).

(** [rh] is an entry of [raw] at the least distance from [edited]. *)
Definition nearest (edited : ImageHash) (raw : list ImageHash)
    (rh : ImageHash) : Prop :=
  rh ∈ raw ∧ ∀ x, x ∈ raw → dist_to edited rh <= dist_to edited x.

End matching.

(** ** The file system the program writes to

    Only the content of CSV files matters to the program.  A file is the
    rows the [csv] module reads from it or wrote to it (a row is its list
    of fields), and a flag for a file whose reading raises (bytes that
    are not UTF-8, a malformed CSV).  The quoting done by [csv.writer] and
    undone by [csv.reader] is below this interface.  Permission and
    device errors are outside the model. *)

Record csv_file : Type := mkCsv {
  csv_rows : list (list string);
  csv_damaged : bool
}.

Record fs_state : Type := mkFs {
  files : gmap string csv_file;
  dirs : gset string
}.

(** A computation that reads and writes the file system and may raise:
    the state is kept when an exception is raised. *)
Definition io (A : Type) : Type := fs_state → result A * fs_state.

#[global] Instance io_ret : MRet io := fun A a st => (Ok a, st).

#[global] Instance io_bind : MBind io :=
  fun A B (k : A → io B) (m : io A) st =>
    match m st with
    | (Ok a, st') => k a st'
    | (Raise e, st') => (Raise e, st')
    end.

Definition io_lift {A} (r : result A) : io A := fun st => (r, st).

Fixpoint io_for_each {A} (body : A → io unit) (xs : list A) : io unit :=
  match xs with
  | [] => mret tt
  | x :: rest => body x;; io_for_each body rest
  end.

(** ** Conversions between [int] and [str] *)

Module pystr.

Definition digit_char (d : Z) : ascii := ascii_of_nat (48 + Z.to_nat d).

Fixpoint str_digits (fuel : nat) (n : Z) (acc : string) : string :=
  match fuel with
  | O => acc
  | S fuel' =>
      let acc' := String (digit_char (n mod 10)) acc in
      if n <? 10 then acc' else str_digits fuel' (n / 10) acc'
  end.

(** [str(n)] for a non-negative [n]: its decimal digits.  A number has
    no more decimal digits than binary ones. *)
Definition str_nonneg (n : Z) : string :=
  str_digits (S (Z.to_nat (Z.log2 n))) n "".

(** [str(z)] for an [int].  (CPython refuses to convert integers of
    more than 4300 digits; the integers of this program have at most
    some twenty.) *)
Definition str_of_int (z : Z) : string :=
  if z <? 0 then String "-" (str_nonneg (- z)) else str_nonneg z.

(** A [str] is held as its UTF-8 encoding, the form it has in a file
    opened with [encoding="utf-8"].  [utf8_decode] gives its code points,
    and [None] for bytes that are not the encoding of a [str]. *)
Definition byte (c : ascii) : Z := Z.of_nat (nat_of_ascii c).

Definition cont (c : ascii) : option Z :=
  let b := byte c in
  if (0x80 <=? b) && (b <? 0xC0) then Some (b - 0x80) else None.

Fixpoint utf8_decode (s : string) : option (list Z) :=
  match s with
  | EmptyString => Some []
  | String c0 r0 =>
      let b0 := byte c0 in
      if b0 <? 0x80 then cons b0 <$> utf8_decode r0
      else if b0 <? 0xC2 then None
      else if b0 <? 0xE0 then
        match r0 with
        | String c1 r1 =>
            x1 ← cont c1;
            cons ((b0 - 0xC0) * 64 + x1) <$> utf8_decode r1
        | _ => None
        end
      else if b0 <? 0xF0 then
        match r0 with
        | String c1 (String c2 r2) =>
            x1 ← cont c1;
            x2 ← cont c2;
            let ch := (b0 - 0xE0) * 4096 + x1 * 64 + x2 in
            if (ch <? 0x800) || ((0xD800 <=? ch) && (ch <? 0xE000))
            then None
            else cons ch <$> utf8_decode r2
        | _ => None
        end
      else if b0 <? 0xF5 then
        match r0 with
        | String c1 (String c2 (String c3 r3)) =>
            x1 ← cont c1;
            x2 ← cont c2;
            x3 ← cont c3;
            let ch := (b0 - 0xF0) * 262144 + x1 * 4096 + x2 * 64 + x3 in
            if (ch <? 0x10000) || (0x10FFFF <? ch) then None
            else cons ch <$> utf8_decode r3
        | _ => None
        end
      else None
  end.

(** The white space of Unicode beyond ASCII ([Py_UNICODE_ISSPACE]). *)
Definition unicode_spaces : list Z :=
  [ 0x85; 0xA0; 0x1680; 0x2000; 0x2001; 0x2002; 0x2003; 0x2004;
    0x2005; 0x2006; 0x2007; 0x2008; 0x2009; 0x200A; 0x2028; 0x2029;
    0x202F; 0x205F; 0x3000 ].

Definition Py_UNICODE_ISSPACE (ch : Z) : bool :=
  existsb (Z.eqb ch) unicode_spaces.

(** The decimal digits of Unicode 14 beyond ASCII come in runs of ten,
    from the digit zero of a script to its digit nine; these are the
    zeros. *)
Definition unicode_zeros : list Z :=
  [ 0x660; 0x6F0; 0x7C0; 0x966; 0x9E6; 0xA66; 0xAE6; 0xB66; 0xBE6;
    0xC66; 0xCE6; 0xD66; 0xDE6; 0xE50; 0xED0; 0xF20; 0x1040; 0x1090;
    0x17E0; 0x1810; 0x1946; 0x19D0; 0x1A80; 0x1A90; 0x1B50; 0x1BB0;
    0x1C40; 0x1C50; 0xA620; 0xA8D0; 0xA900; 0xA9D0; 0xA9F0; 0xAA50;
    0xABF0; 0xFF10; 0x104A0; 0x10D30; 0x11066; 0x110F0; 0x11136;
    0x111D0; 0x112F0; 0x11450; 0x114D0; 0x11650; 0x116C0; 0x11730;
    0x118E0; 0x11950; 0x11C50; 0x11D50; 0x11DA0; 0x16A60; 0x16AC0;
    0x16B50; 0x1D7CE; 0x1D7D8; 0x1D7E2; 0x1D7EC; 0x1D7F6; 0x1E140;
    0x1E2F0; 0x1E950; 0x1FBF0 ].

(** [Py_UNICODE_TODECIMAL]: the value of a decimal digit. *)
Definition Py_UNICODE_TODECIMAL (ch : Z) : option Z :=
  (fun zero => ch - zero)
    <$> find (fun zero => (zero <=? ch) && (ch <=? zero + 9)) unicode_zeros.

(** What [int()] does to a [str] first: white space becomes a space and
    a decimal digit the ASCII digit of its value; the first character
    that is neither ends the buffer with a question mark. *)
Fixpoint transform (cs : list Z) : list Z :=
  match cs with
  | [] => []
  | ch :: rest =>
      if ch <? 127 then ch :: transform rest
      else if Py_UNICODE_ISSPACE ch then 32 :: transform rest
      else
        match Py_UNICODE_TODECIMAL ch with
        | Some d => (48 + d) :: transform rest
        | None => [63]
        end
  end.

(** A [str] of ASCII characters only is taken as it is. *)
Definition ascii_buffer (cs : list Z) : string :=
  let buf := if forallb (fun ch => ch <? 128) cs then cs
             else transform cs in
  string_of_list_ascii ((fun ch => ascii_of_nat (Z.to_nat ch)) <$> buf).

Definition digit_of (c : ascii) : option Z :=
  let n := Z.of_nat (nat_of_ascii c) in
  if (48 <=? n) && (n <=? 57) then Some (n - 48) else None.

(** White space for the reading of the buffer ([Py_ISSPACE]): tab to
    carriage return, and the space.  (The separators 28 to 31, white
    space for [str.isspace], are not.) *)
Definition Py_ISSPACE (c : ascii) : bool :=
  let n := Z.of_nat (nat_of_ascii c) in
  ((9 <=? n) && (n <=? 13)) || (n =? 32).

Fixpoint all_space (s : string) : bool :=
  match s with
  | EmptyString => true
  | String c rest => Py_ISSPACE c && all_space rest
  end.

Fixpoint lstrip (s : string) : string :=
  match s with
  | EmptyString => EmptyString
  | String c rest => if Py_ISSPACE c then lstrip rest else s
  end.

(** Digits, with single underscores allowed between two digits, up to
    trailing white space.  [prev] tells whether the character before
    was a digit. *)
Fixpoint parse_digits (s : string) (acc : Z) (prev : bool) : option Z :=
  match s with
  | EmptyString => if prev then Some acc else None
  | String c rest =>
      match digit_of c with
      | Some d => parse_digits rest (10 * acc + d) true
      | None =>
          if negb prev then None
          else if Ascii.eqb c "_" then parse_digits rest acc false
          else if all_space s then Some acc
          else None
      end
  end.

(** The reading of the buffer in base 10 ([PyLong_FromString]), [None]
    for a [ValueError]: white space is skipped, then an optional sign,
    then digits. *)
Definition PyLong_FromString (s : string) : option Z :=
  match lstrip s with
  | String "-" rest => Z.opp <$> parse_digits rest 0 false
  | String "+" rest => parse_digits rest 0 false
  | s' => parse_digits s' 0 false
  end.

(** [int(s)] for a [str], [None] for a [ValueError].  (CPython also
    refuses, since 3.11 and unless told otherwise, a [str] of more than
    4300 digits; this is left out, as it is for [str_of_int].) *)
Definition int_of_str (s : string) : option Z :=
  cs ← utf8_decode s;
  PyLong_FromString (ascii_buffer cs).

Fixpoint is_ascii (s : string) : bool :=
  match s with
  | EmptyString => true
  | String c rest => (byte c <? 0x80) && is_ascii rest
  end.

(** The strs on which [int_of_str] is all of [int()]: text of at most
    4300 characters. *)
Definition plain (s : string) : bool :=
  match utf8_decode s with
  | Some cs => (length cs <=? 4300)%nat
  | None => false
  end.

(** [int(v)] for a value that is a [str] or [None]. *)
Definition int_ (v : option string) : result Z :=
  match v with
  | None => Raise TypeError
  | Some s =>
      match int_of_str s with
      | Some z => Ok z
      | None => Raise ValueError
      end
  end.

End pystr.

(** ** io_utils.py *)

Module io_utils.

Record CacheEntry : Type := mkCacheEntry {
  mtime_ns : Z;
  size : Z;
  dhash : Z
}.

(** [Path.parent]. *)
Definition parent (w : Env) (p : string) : string :=
  default p (head (parents w p)).

(** [Path.exists()]. *)
Definition path_exists (st : fs_state) (p : string) : bool :=
  bool_decide (is_Some (files st !! p)) || bool_decide (p ∈ dirs st).

(** [Path.open("r")] and the reading of all rows. *)
Definition read_rows (st : fs_state) (p : string)
  : result (list (list string)) :=
  match files st !! p with
  | None => Raise OSError
  | Some f => if csv_damaged f then Raise ValueError else Ok (csv_rows f)
  end.

(** One row of [csv.DictReader]: [dict(zip(fieldnames, row))], the
    fields missing from a short row being [None].  (The fields in excess
    go under the key [None], which no lookup by a [str] key sees.) *)
Definition dict_row (fieldnames row : list string)
  : gmap string (option string) :=
  let d := foldl (fun d kv => <[kv.1 := Some kv.2]> d) ∅
                 (zip fieldnames row) in
  foldl (fun d key => <[key := None]> d) d (drop (length row) fieldnames).

(** [csv.DictReader]: the first row gives the field names, empty rows
    are skipped. *)
Definition DictReader (rows : list (list string))
  : list (gmap string (option string)) :=
  match rows with
  | [] => []
  | fieldnames :: rest =>
      dict_row fieldnames
        <$> filter (fun row => row ≠ []) rest
  end.

(** [row[key]]. *)
Definition row_get (row : gmap string (option string)) (key : string)
  : result (option string) :=
  match row !! key with
  | Some v => Ok v
  | None => Raise KeyError
  end.

(** The body of the loop of [load_cache]; a row that raises is
    skipped.  The key is the value of the [path] field, a [str], or
    [None] for a short row. *)
Definition load_row (cache : gmap (option string) CacheEntry)
    (row : gmap string (option string))
  : gmap (option string) CacheEntry :=
  match
    p ← row_get row "path";
    m ← row_get row "mtime_ns" ≫= pystr.int_;
    s ← row_get row "size" ≫= pystr.int_;
    d ← row_get row "dhash" ≫= pystr.int_;
    Ok (<[p := mkCacheEntry m s d]> cache)
  with
  | Ok cache' => cache'
  | Raise _ => cache
  end.

Definition load_cache (st : fs_state) (cache_path : string)
  : gmap (option string) CacheEntry :=
  if negb (path_exists st cache_path) then ∅
  else
    match
      rows ← read_rows st cache_path;
      Ok (foldl load_row ∅ (DictReader rows))
    with
    | Ok cache => cache
    | Raise _ => ∅
    end.

(** [Path.mkdir(parents=True, exist_ok=True)]. *)
Definition mkdir_parents (w : Env) (d : string) : io unit :=
  fun st =>
    (Ok tt, mkFs (files st) (dirs st ∪ list_to_set (d :: parents w d))).

(** [Path.open("w")]: the directory of the file must exist; the file
    is created or emptied. *)
Definition open_w (w : Env) (p : string) : io unit :=
  fun st =>
    if bool_decide (parent w p ∈ dirs st)
    then (Ok tt, mkFs (<[p := mkCsv [] false]> (files st)) (dirs st))
    else (Raise OSError, st).

(** [csv.writer(f).writerow(row)] on the file open at [p]. *)
Definition writerow (p : string) (row : list string) : io unit :=
  fun st =>
    (Ok tt,
     mkFs (alter (fun f => mkCsv (csv_rows f ++ [row]) (csv_damaged f))
                 p (files st))
          (dirs st)).

Definition stat_io (w : Env) (p : string) : io stat_result :=
  io_lift (match stat w p with
           | Some st => Ok st
           | None => Raise OSError
           end).

Definition save_cache (w : Env) (cache_path : string)
    (hashes : list hashing.ImageHash) : io unit :=
  mkdir_parents w (parent w cache_path);;
  open_w w cache_path;;
  writerow cache_path ["path"; "mtime_ns"; "size"; "dhash"];;
  io_for_each
    (fun h =>
       st ← stat_io w (hashing.path h);
       writerow cache_path
         [hashing.path h;
          pystr.str_of_int (st_mtime_ns st);
          pystr.str_of_int (st_size st);
          pystr.str_of_int (hashing.dhash h)])
    hashes.

(** The row and the entry that stand for a fingerprinted file. *)
Definition row_of (s : stat_result) (h : hashing.ImageHash)
  : list string :=
  [hashing.path h;
   pystr.str_of_int (st_mtime_ns s);
   pystr.str_of_int (st_size s);
   pystr.str_of_int (hashing.dhash h)].

Definition entry_of (s : stat_result) (h : hashing.ImageHash)
  : CacheEntry :=
  mkCacheEntry (st_mtime_ns s) (st_size s) (hashing.dhash h).

(** The snapshot of a list of fingerprinted files: the header and one
    row per file. *)
Definition snapshot (w : Env) (hashes : list hashing.ImageHash)
  : csv_file :=
  mkCsv (["path"; "mtime_ns"; "size"; "dhash"]
         :: omap (fun h => (fun s => row_of s h) <$> stat w (hashing.path h))
                 hashes)
        false.

(** The mapping of a list of fingerprinted files: one entry per path,
    the last written wins. *)
Definition cache_of (w : Env) (hashes : list hashing.ImageHash)
  : gmap (option string) CacheEntry :=
  foldl (fun m h =>
           match stat w (hashing.path h) with
           | Some s => <[Some (hashing.path h) := entry_of s h]> m
           | None => m
           end)
        ∅ hashes.

(** What a row of a cache file with the usual header stands for: the
    first field is the key, the next three must read as integers, and
    further fields are ignored. *)
Definition parse_row (row : list string) : option (string * CacheEntry) :=
  match row with
  | p :: m :: s :: d :: _ =>
      m ← pystr.int_of_str m;
      s ← pystr.int_of_str s;
      d ← pystr.int_of_str d;
      Some (p, mkCacheEntry m s d)
  | _ => None
  end.

(** The operations of [pathlib] that [unique_destination] uses:
    [out_dir / name], [Path.stem] and [Path.suffix]. *)
Record PathOps : Type := mkPathOps {
  joinpath : string → string → string;
  stem : string → string;
  suffix : string → string
}.

(** [f"{stem}__{n}{suffix}"]. *)
Definition numbered_name (stem : string) (n : Z) (suffix : string)
  : string :=
  String.append stem
    (String.append "__" (String.append (pystr.str_of_int n) suffix)).

(** The [while True] loop of [unique_destination], run for at most
    [fuel] candidates from the number [n] on; [None] when none of them
    is free. *)
Fixpoint unique_search (ops : PathOps) (st : fs_state)
    (out_dir stem suffix : string) (fuel : nat) (n : Z) : option string :=
  match fuel with
  | O => None
  | S fuel' =>
      let cand := joinpath ops out_dir (numbered_name stem n suffix) in
      if negb (path_exists st cand) then Some cand
      else unique_search ops st out_dir stem suffix fuel' (n + 1)
  end.

Definition unique_destination (w : Env) (ops : PathOps) (fuel : nat)
    (out_dir desired_name : string) : io (option string) :=
  mkdir_parents w out_dir;;
  ((fun st =>
      let dst := joinpath ops out_dir desired_name in
      if negb (path_exists st dst) then (Ok (Some dst), st)
      else
        let stem := stem ops dst in
        let suffix := suffix ops dst in
        let n := 2 in
        (Ok (unique_search ops st out_dir stem suffix fuel n), st))
   : io (option string)).

(** The paths that exist. *)
Definition existing (st : fs_state) : gset string :=
  dom (files st) ∪ dirs st.

End io_utils.

(** ** concurrent.futures: a process pool

    [Executor.map(f, tasks)] submits one task per element, each with a
    future of its own.  The pool hands the pending tasks to its workers
    in submission order, so the tasks that run are the first
    [max_workers] pending ones; which of them finishes next is not
    determined: the sequence [sched] of natural numbers picks it (a
    number is read modulo the number of running tasks).  A finished task
    stores its outcome, the value returned or the exception raised, in
    the future of its index.  The results are then read from the
    futures, in submission order. *)

Module futures.

(** [ProcessPoolExecutor(max_workers=...)]: the number of workers of the
    new pool.  [None] asks for the default, [os.cpu_count() or 1]; a
    number that is not positive is refused with [ValueError].  (On
    Windows the library also refuses more than 61 workers; the model is
    of the other platforms.) *)
Definition ProcessPoolExecutor (w : Env) (max_workers : option Z)
  : result nat :=
  match max_workers with
  | None => Ok (Nat.max 1 (cpu_count w))
  | Some n => if n <=? 0 then Raise ValueError else Ok (Z.to_nat n)
  end.

(** The pool at work on [n] tasks: at each step one of the running
    tasks finishes.  With nothing running nothing finishes, and the
    futures stay as they are. *)
Fixpoint pool_run {A B} (f : A → B) (max_workers : nat) (n : nat)
    (pending : list (nat * A)) (sched : list nat)
    (futs : list (option B)) : list (option B) :=
  match n with
  | O => futs
  | S n' =>
      let running := take max_workers pending in
      let k := (hd 0%nat sched `mod` length running)%nat in
      match running !! k with
      | Some (i, a) =>
          pool_run f max_workers n' (delete k pending) (tl sched)
                   (<[i := Some (f a)]> futs)
      | None => futs
      end
  end.

(** [Future.result()] when the pool has stopped: the outcome that the
    task stored.  A future that is still empty then is the future of a
    task that no worker took; the library gives such a future the
    exception [BrokenProcessPool]. *)
Definition future_result {B} (fut : option (result B)) : result B :=
  match fut with
  | Some r => r
  | None => Raise BrokenProcessPool
  end.

(** [Executor.map(f, tasks)]: what reading each future gives, in
    submission order. *)
Definition executor_map {A B} (f : A → result B) (max_workers : nat)
    (sched : list nat) (tasks : list A) : list (result B) :=
  let n := length tasks in
  let futs :=
    pool_run f max_workers n (imap pair tasks) sched (replicate n None) in
  future_result <$> futs.

End futures.

(** ** cli.py: the two hashing phases *)

Module cli.
Import hashing io_utils.

Definition _hash_path_worker (w : Env) (p : string)
  : result (option ImageHash) :=
  h ← dhash64 w p;
  match h with
  | None => Ok None
  | Some h => Ok (Some (mkImageHash p h))
  end.

(** The body of the loop that sorts the paths into [reuse] and
    [todo]. *)
Definition classify (w : Env) (cache : gmap (option string) CacheEntry)
    (acc : list ImageHash * list string) (p : string)
  : list ImageHash * list string :=
  let '(reuse, todo) := acc in
  match stat w p with
  | None => (reuse, todo)
  | Some st =>
      let key := resolve w p in
      match cache !! Some key with
      | Some ce =>
          if (mtime_ns ce =? st_mtime_ns st) && (size ce =? st_size st)
          then (reuse ++ [mkImageHash (resolve w p) (io_utils.dhash ce)],
                todo)
          else (reuse, todo ++ [resolve w p])
      | None => (reuse, todo ++ [resolve w p])
      end
  end.

(** [if r is not None: out.append(r)]. *)
Definition append_some (out : list ImageHash) (r : option ImageHash)
  : list ImageHash :=
  match r with
  | Some r => out ++ [r]
  | None => out
  end.

Definition _hash_raw_images (w : Env) (sched : list nat)
    (raw_dir cache_path : string) (workers : Z) : io (list ImageHash) :=
  let raw_dir := resolve w (expanduser w raw_dir) in
  let cache_path := resolve w (expanduser w cache_path) in
  fun st =>
    let cache := load_cache st cache_path in
    let paths := iter_images w raw_dir in
    let '(reuse, todo) := foldl (classify w cache) ([], []) paths in
    let out := [] ++ reuse in
    match todo with
    | [] => (Ok out, st)
    | _ =>
        if workers =? 1 then
          (out ← io_lift
                   (for_each (fun out p =>
                                r ← _hash_path_worker w p;
                                Ok (append_some out r))
                             out todo);
           save_cache w cache_path out;;
           mret out) st
        else
          let max_workers :=
            if workers =? 0 then None else Some (Z.max 1 workers) in
          (out ← io_lift
                   (ex ← futures.ProcessPoolExecutor w max_workers;
                    for_each (fun out r =>
                                r ← r;
                                Ok (append_some out r))
                             out
                             (futures.executor_map (_hash_path_worker w)
                                                   ex sched todo));
           save_cache w cache_path out;;
           mret out) st
    end.

Definition _hash_edited_images (w : Env) (edited_dir : string)
  : result (list ImageHash) :=
  let edited_dir := resolve w (expanduser w edited_dir) in
  let paths := iter_images w edited_dir in
  for_each (fun out p =>
              h ← dhash64 w p;
              match h with
              | None => Ok out
              | Some h => Ok (out ++ [mkImageHash (resolve w p) h])
              end)
           [] paths.

(** The fingerprint of a file, when it has one. *)
Definition fingerprint (w : Env) (p : string) : option Z :=
  match dhash64 w p with
  | Ok h => h
  | Raise _ => None
  end.

(** The lists [reuse] and [todo] of a run. *)
Definition sort_paths (w : Env) (st : fs_state)
    (raw_dir cache_path : string) : list ImageHash * list string :=
  foldl (classify w
           (load_cache st (resolve w (expanduser w cache_path))))
        ([], [])
        (iter_images w (resolve w (expanduser w raw_dir))).

(** The rule of reuse. *)
Definition is_reusable (ce : CacheEntry) (s : stat_result) : Prop :=
  mtime_ns ce = st_mtime_ns s ∧ size ce = st_size s.

(** What one path adds to [reuse] and to [todo]. *)
Definition reuse_of (w : Env) (cache : gmap (option string) CacheEntry)
    (p : string) : option ImageHash :=
  s ← stat w p;
  ce ← cache !! Some (resolve w p);
  if (mtime_ns ce =? st_mtime_ns s) && (size ce =? st_size s)
  then Some (mkImageHash (resolve w p) (io_utils.dhash ce))
  else None.

Definition todo_of (w : Env) (cache : gmap (option string) CacheEntry)
    (p : string) : option string :=
  s ← stat w p;
  match cache !! Some (resolve w p) with
  | Some ce =>
      if (mtime_ns ce =? st_mtime_ns s) && (size ce =? st_size s)
      then None else Some (resolve w p)
  | None => Some (resolve w p)
  end.

(** What one path of [todo] adds to [out]. *)
Definition hashed (w : Env) (p : string) : option ImageHash :=
  mkImageHash p <$> fingerprint w p.

(** What one path adds to the result of a run: the reused entry, or
    the newly computed one. *)
Definition kept (w : Env) (cache : gmap (option string) CacheEntry)
    (p : string) : option ImageHash :=
  match reuse_of w cache p with
  | Some h => Some h
  | None => todo_of w cache p ≫= hashed w
  end.

End cli.

(** ** A small world to run the model on

    A raw folder with three files, the third of which does not decode; an
    archive folder with two files, both known to the cache of an earlier
    run, made when a third file was still there; an edited folder with
    two files, the second of which does not decode. *)

Module demo.
Import hashing io_utils.

Definition px_flat : list Z := replicate 72 7.
Definition px_ramp : list Z := Z.of_nat <$> seq 0 72.

Definition env : Env :=
  mkEnv
    (fun p =>
       if String.eqb p "/raw/a.jpg" then Some (mkStat 100 10)
       else if String.eqb p "/raw/b.jpg" then Some (mkStat 200 20)
       else if String.eqb p "/raw/c.jpg" then Some (mkStat 300 30)
       else if String.eqb p "/archive/x.jpg" then Some (mkStat 400 40)
       else if String.eqb p "/archive/y.jpg" then Some (mkStat 500 50)
       else if String.eqb p "/edited/e1.jpg" then Some (mkStat 600 60)
       else if String.eqb p "/edited/e2.jpg" then Some (mkStat 700 70)
       else None)
    (fun p => p)
    (fun p => p)
    (fun p =>
       if String.eqb p "/out/cache.csv" then ["/out"; "/"]
       else if String.eqb p "/out" then ["/"]
       else [])
    (fun root =>
       if String.eqb root "/raw"
       then ["/raw/a.jpg"; "/raw/b.jpg"; "/raw/c.jpg"]
       else if String.eqb root "/archive"
       then ["/archive/x.jpg"; "/archive/y.jpg"]
       else if String.eqb root "/edited"
       then ["/edited/e1.jpg"; "/edited/e2.jpg"]
       else [])
    (fun p =>
       if String.eqb p "/raw/a.jpg" then Ok px_flat
       else if String.eqb p "/raw/b.jpg" then Ok px_ramp
       else if String.eqb p "/archive/x.jpg" then Ok px_flat
       else if String.eqb p "/archive/y.jpg" then Ok px_ramp
       else if String.eqb p "/edited/e1.jpg" then Ok px_ramp
       else Raise UnidentifiedImageError)
    4.

Definition a_jpg : ImageHash := mkImageHash "/raw/a.jpg" 0.
Definition b_jpg : ImageHash :=
  mkImageHash "/raw/b.jpg" 18446744073709551615.
Definition x_jpg : ImageHash := mkImageHash "/archive/x.jpg" 0.
Definition y_jpg : ImageHash :=
  mkImageHash "/archive/y.jpg" 18446744073709551615.
Definition e1_jpg : ImageHash :=
  mkImageHash "/edited/e1.jpg" 18446744073709551615.

(** No cache yet, and no folder for it. *)
Definition fs_fresh : fs_state := mkFs ∅ ∅.

(** The cache of an earlier run over the raw folder: [b.jpg] has
    changed since, and [gone.jpg] has been removed. *)
Definition fs_stale : fs_state :=
  mkFs {[ "/out/cache.csv" :=
            mkCsv [["path"; "mtime_ns"; "size"; "dhash"];
                   ["/raw/a.jpg"; "100"; "10"; "0"];
                   ["/raw/b.jpg"; "150"; "20"; "12"];
                   ["/raw/gone.jpg"; "50"; "5"; "5"]] false ]}
       {[ "/out"; "/" ]}.

(** The cache of an earlier run over the archive folder, when it held
    [x.jpg], [y.jpg] and [gone.jpg]; the first two have not changed, the
    third has been removed. *)
Definition fs_hits : fs_state :=
  mkFs {[ "/out/cache.csv" :=
            mkCsv [["path"; "mtime_ns"; "size"; "dhash"];
                   ["/archive/x.jpg"; "400"; "40"; "0"];
                   ["/archive/y.jpg"; "500"; "50"; "18446744073709551615"];
                   ["/archive/gone.jpg"; "50"; "5"; "5"]] false ]}
       {[ "/out"; "/" ]}.

(** The part of [s] before its last [c] and the part from that [c]
    on. *)
Fixpoint rsplit (c : ascii) (s : string) : option (string * string) :=
  match s with
  | EmptyString => None
  | String a rest =>
      match rsplit c rest with
      | Some (pre, suf) => Some (String a pre, suf)
      | None => if Ascii.eqb a c then Some (EmptyString, s) else None
      end
  end.

(** [Path.name]: the last component. *)
Definition name (p : string) : string :=
  match rsplit "/" p with
  | Some (_, String _ last) => last
  | _ => p
  end.

(** The place [i] of pathlib's [name.rfind('.')], when
    [0 < i < len(name) - 1]: the name is cut there. *)
Definition cut (p : string) : option (string * string) :=
  match rsplit "." (name p) with
  | Some (String a pre, String dot (String b ext)) =>
      Some (String a pre, String dot (String b ext))
  | _ => None
  end.

(** pathlib on a directory other than the root and names without
    separator: [out_dir / name], [Path.stem] and [Path.suffix]. *)
Definition path_ops : PathOps :=
  mkPathOps (fun d n => String.append d (String.append "/" n))
            (fun p => match cut p with
                      | Some (pre, _) => pre
                      | None => name p
                      end)
            (fun p => match cut p with
                      | Some (_, suf) => suf
                      | None => EmptyString
                      end).

End demo.

(** * Theorems *)

Section hashing_facts.
Import hashing.

Lemma pos_bit_count_pos p : 0 < pos_bit_count p.
Proof. induction p; simpl; lia. Qed.

Lemma bit_count_nonneg x : 0 <= bit_count x.
Proof. destruct x; simpl; [lia | |]; pose proof (pos_bit_count_pos p); lia. Qed.

Lemma pos_bit_count_bound p (n : nat) :
  Zpos p < 2 ^ Z.of_nat n → pos_bit_count p <= Z.of_nat n.
Proof.
  revert n. induction p as [q IH | q IH |]; intros n Hlt; simpl.
  - destruct n as [| m]; [simpl in Hlt; lia |].
    rewrite Nat2Z.inj_succ, Z.pow_succ_r in Hlt by lia.
    specialize (IH m). lia.
  - destruct n as [| m]; [simpl in Hlt; lia |].
    rewrite Nat2Z.inj_succ, Z.pow_succ_r in Hlt by lia.
    specialize (IH m). lia.
  - destruct n as [| m]; [simpl in Hlt; lia | lia].
Qed.

Lemma bit_count_bound x (n : nat) :
  0 <= x < 2 ^ Z.of_nat n → 0 <= bit_count x <= Z.of_nat n.
Proof.
  intros [Hlo Hhi]. split; [apply bit_count_nonneg |].
  destruct x as [| p | p]; simpl; [lia | | lia].
  by apply pos_bit_count_bound.
Qed.

Lemma lxor_bound a b (n : nat) :
  0 <= a < 2 ^ Z.of_nat n → 0 <= b < 2 ^ Z.of_nat n →
  0 <= Z.lxor a b < 2 ^ Z.of_nat n.
Proof.
  intros [Ha0 Ha] [Hb0 Hb].
  assert (H0 : 0 <= Z.lxor a b) by (apply Z.lxor_nonneg; lia).
  split; [done |].
  destruct (Z.eq_dec (Z.lxor a b) 0) as [-> | Hne].
  { apply Z.pow_pos_nonneg; lia. }
  assert (Hn : 0 < Z.of_nat n).
  { destruct n; [| lia]. simpl in Ha, Hb.
    assert (a = 0) as -> by lia. assert (b = 0) as -> by lia. done. }
  apply Z.log2_lt_pow2; [lia |].
  eapply Z.le_lt_trans; [apply Z.log2_lxor; lia |].
  apply Z.max_lub_lt.
  - destruct (Z.eq_dec a 0) as [-> | ?]; [simpl |apply Z.log2_lt_pow2]; lia.
  - destruct (Z.eq_dec b 0) as [-> | ?]; [simpl |apply Z.log2_lt_pow2]; lia.
Qed.

Lemma hamming_distance_nonneg a b : 0 <= hamming_distance a b.
Proof. apply bit_count_nonneg. Qed.

Lemma hamming_distance_64 a b :
  0 <= a < 2 ^ 64 → 0 <= b < 2 ^ 64 → 0 <= hamming_distance a b <= 64.
Proof.
  intros Ha Hb. unfold hamming_distance.
  apply (bit_count_bound _ 64), (lxor_bound a b 64); assumption.
Qed.

(** The invariant rule for a [for] loop over [range(n)]. *)
Lemma for_each_seq_inv {S} (P : nat → S → Prop)
    (body : S → nat → result S) (n a : nat) (s0 : S) :
  P a s0 →
  (∀ i s, (a <= i < a + n)%nat → P i s →
          ∃ s', body s i = Ok s' ∧ P (Datatypes.S i) s') →
  ∃ s', for_each body s0 (seq a n) = Ok s' ∧ P (a + n)%nat s'.
Proof.
  revert a s0. induction n as [| n IH]; intros a s0 H0 Hstep; simpl.
  { exists s0. by rewrite Nat.add_0_r. }
  destruct (Hstep a s0) as (s1 & -> & H1); [lia | done |]. simpl.
  destruct (IH (Datatypes.S a) s1 H1) as (s' & -> & H').
  { intros i s Hi. apply Hstep. lia. }
  exists s'. split; [done |]. by replace (a + Datatypes.S n)%nat
    with (Datatypes.S a + n)%nat by lia.
Qed.

Lemma testbit_mask (k : nat) (i : Z) :
  0 <= i →
  Z.testbit (Z.shiftr (2 ^ 63) (Z.of_nat k)) i = (i + Z.of_nat k =? 63).
Proof.
  intros Hi. rewrite Z.shiftr_spec by done.
  rewrite Z.pow2_bits_eqb by lia. apply Z.eqb_sym.
Qed.

Lemma nonneg_high_bits_clear h :
  0 <= h → (∀ i, 63 < i → Z.testbit h i = false) → h < 2 ^ 64.
Proof.
  intros Hh Hclear. destruct (Z.eq_dec h 0) as [-> | Hne]; [done |].
  apply Z.log2_lt_pow2; [lia |].
  destruct (Z_lt_le_dec (Z.log2 h) 64) as [| Hge]; [done |].
  pose proof (Z.bit_log2 h ltac:(lia)) as Htop.
  rewrite Hclear in Htop by lia. discriminate.
Qed.

(** One comparison keeps the invariant. *)
Lemma dhash_col_inv px (r c : nat) hb :
  length px = 72%nat → (r < 8)%nat → (c < 8)%nat →
  dhash_inv px (8 * r + c) hb →
  ∃ hb', dhash_col px (r * 9) hb c = Ok hb'
         ∧ dhash_inv px (8 * r + Datatypes.S c) hb'.
Proof.
  intros Hlen Hr Hc. destruct hb as [h bit].
  intros (Hbit & Hh & Hset & Hclear). simpl in *.
  destruct (lookup_lt_is_Some_2 px (r * 9 + c)%nat ltac:(lia))
    as [left Hleft].
  destruct (lookup_lt_is_Some_2 px (r * 9 + c + 1)%nat ltac:(lia))
    as [right Hright].
  unfold dhash_col, getitem. rewrite Hleft, Hright. simpl.
  eexists. split; [reflexivity |].
  assert (Hgt : gt_right px r c = (right >? left)).
  { unfold gt_right. by rewrite Hleft, Hright. }
  assert (Hbit0 : 0 <= bit).
  { rewrite Hbit. apply Z.shiftr_nonneg. lia. }
  assert (Hnew : ∀ i, 0 <= i →
    Z.testbit (if right >? left then Z.lor h bit else h) i
    = Z.testbit h i || ((right >? left) && (i + Z.of_nat (8 * r + c) =? 63))).
  { intros i Hi. destruct (right >? left); simpl.
    - by rewrite Z.lor_spec, Hbit, testbit_mask.
    - by rewrite orb_false_r. }
  repeat split; simpl.
  - rewrite Hbit, Z.shiftr_shiftr by lia. f_equal. lia.
  - destruct (right >? left); [apply Z.lor_nonneg |]; done.
  - intros r' c' Hc' Hlt. rewrite Hnew by lia.
    destruct (decide (8 * r' + c' = 8 * r + c)%nat) as [Heq | Hne].
    + assert (r' = r) as -> by lia. assert (c' = c) as -> by lia.
      rewrite Hclear by lia. rewrite Hgt. simpl.
      replace (_ =? 63) with true by (symmetry; apply Z.eqb_eq; lia).
      by rewrite andb_true_r.
    + rewrite Hset by lia.
      replace (_ =? 63) with false by (symmetry; apply Z.eqb_neq; lia).
      by rewrite andb_false_r, orb_false_r.
  - intros i Hi Hrange. rewrite Hnew by done.
    rewrite Hclear by lia.
    replace (_ =? 63) with false by (symmetry; apply Z.eqb_neq; lia).
    by rewrite andb_false_r.
Qed.

(** One row keeps the invariant. *)
Lemma dhash_row_inv px (r : nat) hb :
  length px = 72%nat → (r < 8)%nat →
  dhash_inv px (8 * r) hb →
  ∃ hb', dhash_row px hb r = Ok hb'
         ∧ dhash_inv px (8 * Datatypes.S r) hb'.
Proof.
  intros Hlen Hr Hinv. unfold dhash_row.
  destruct (for_each_seq_inv (fun c => dhash_inv px (8 * r + c))
              (dhash_col px (r * 9)) 8 0 hb) as (hb' & -> & Hinv').
  - by rewrite Nat.add_0_r.
  - intros c s Hc Hs. apply dhash_col_inv; [done | done | lia | done].
  - exists hb'. split; [done |].
    by replace (8 * Datatypes.S r)%nat with (8 * r + (0 + 8))%nat by lia.
Qed.

Lemma dhash_pixels_inv px :
  length px = 72%nat →
  ∃ h bit, for_each (dhash_row px) (0, Z.shiftl 1 63) (seq 0 8)
           = Ok (h, bit)
         ∧ dhash_inv px 64 (h, bit).
Proof.
  intros Hlen.
  destruct (for_each_seq_inv (fun r => dhash_inv px (8 * r))
              (dhash_row px) 8 0 (0, Z.shiftl 1 63))
    as ([h bit] & Hrun & Hinv).
  - repeat split; simpl; try done.
    + intros r c _ Hlt. lia.
    + intros i _ _. apply Z.bits_0.
  - intros r s Hr Hs. apply dhash_row_inv; [done | lia | done].
  - by exists h, bit.
Qed.

(** C3. When the file decodes to a 9-wide, 8-tall grid [px] (72 values,
    row after row), [dhash64] returns a 64-bit value whose bit for row
    [r] and column [c], counted from the most significant bit in
    row-major order (bit [63 - (8 r + c)]), is 1 exactly when the pixel
    at [(r, c+1)] is strictly greater than the pixel at [(r, c)].  The
    value depends on the pixels only: any file, under any path and in
    any environment, that decodes to the same pixels has the same
    fingerprint. *)
Theorem dhash64_bits (w : Env) (p : string) (px : list Z) :
  decode w p = Ok px →
  length px = 72%nat →
  ∃ h, dhash64 w p = Ok (Some h)
    ∧ 0 <= h < 2 ^ 64
    ∧ (∀ (r c : nat) (left right : Z),
         (r < 8)%nat → (c < 8)%nat →
         px !! (r * 9 + c)%nat = Some left →
         px !! (r * 9 + c + 1)%nat = Some right →
         Z.testbit h (63 - Z.of_nat (8 * r + c)) = bool_decide (left < right))
    ∧ (∀ (w' : Env) (p' : string),
         decode w' p' = Ok px → dhash64 w' p' = Ok (Some h)).
Proof.
  intros Hdec Hlen.
  destruct (dhash_pixels_inv px Hlen) as (h & bit & Hrun & Hinv).
  destruct Hinv as (_ & Hh & Hset & Hclear). simpl in *.
  assert (Hval : ∀ w' p', decode w' p' = Ok px →
                          dhash64 w' p' = Ok (Some h)).
  { intros w' p' Hdec'. unfold dhash64, dhash_pixels.
    rewrite Hdec'. simpl. by rewrite Hrun. }
  exists h. split_and!.
  - by apply Hval.
  - done.
  - apply nonneg_high_bits_clear; [done |].
    intros i Hi. apply Hclear; lia.
  - intros r c left right Hr Hc Hleft Hright.
    rewrite Hset by lia. unfold gt_right. rewrite Hleft, Hright.
    rewrite Z.gtb_ltb. apply eq_true_iff_eq.
    by rewrite Z.ltb_lt, bool_decide_eq_true.
  - done.
Qed.

Lemma dhash64_bits_witness :
  ∃ h, dhash64 demo.env "/raw/b.jpg" = Ok (Some h)
    ∧ 0 <= h < 2 ^ 64
    ∧ (∀ (r c : nat) (left right : Z),
         (r < 8)%nat → (c < 8)%nat →
         demo.px_ramp !! (r * 9 + c)%nat = Some left →
         demo.px_ramp !! (r * 9 + c + 1)%nat = Some right →
         Z.testbit h (63 - Z.of_nat (8 * r + c)) = bool_decide (left < right))
    ∧ (∀ (w' : Env) (p' : string),
         decode w' p' = Ok demo.px_ramp → dhash64 w' p' = Ok (Some h)).
Proof.
  apply (dhash64_bits demo.env "/raw/b.jpg" demo.px_ramp); reflexivity.
Defined.

Example dhash64_ramp :
  dhash64 demo.env "/raw/b.jpg" = Ok (Some 18446744073709551615).
Proof. reflexivity. Qed.

Example dhash64_flat : dhash64 demo.env "/raw/a.jpg" = Ok (Some 0).
Proof. reflexivity. Qed.

Example dhash64_undecodable : dhash64 demo.env "/raw/c.jpg" = Ok None.
Proof. reflexivity. Qed.

Example dhash64_undecodable_edit :
  dhash64 demo.env "/edited/e2.jpg" = Ok None.
Proof. reflexivity. Qed.

Example dhash_pixels_one_step :
  dhash_pixels (replicate 9 0 ++ [0; 5] ++ replicate 61 0)
  = Ok (2 ^ 55).
Proof. reflexivity. Qed.

(** C9. For 64-bit fingerprints [a] and [b], the Hamming distance is
    symmetric, the distance of a fingerprint to itself is 0, and the
    distance lies between 0 and 64. *)
Theorem hamming_distance_metric (a b : Z) :
  0 <= a < 2 ^ 64 → 0 <= b < 2 ^ 64 →
  hamming_distance a b = hamming_distance b a
  ∧ hamming_distance a a = 0
  ∧ 0 <= hamming_distance a b <= 64.
Proof.
  intros Ha Hb. split; [| split].
  - unfold hamming_distance. by rewrite Z.lxor_comm.
  - unfold hamming_distance. by rewrite Z.lxor_nilpotent.
  - by apply hamming_distance_64.
Qed.

Lemma hamming_distance_metric_witness :
  hamming_distance 5 18446744073709551615
    = hamming_distance 18446744073709551615 5
  ∧ hamming_distance 5 5 = 0
  ∧ 0 <= hamming_distance 5 18446744073709551615 <= 64.
Proof. apply hamming_distance_metric; lia. Defined.

Example hamming_distance_all_bits :
  hamming_distance 0 18446744073709551615 = 64.
Proof. reflexivity. Qed.

End hashing_facts.

Section matching_facts.
Import hashing matching.

Implicit Types (edited rh : ImageHash) (raw : list ImageHash).

Lemma first_nearest_nearest edited raw k rh :
  first_nearest edited raw k rh → nearest edited raw rh.
Proof.
  intros (Hk & Hmin & _). split.
  - by eapply list_elem_of_lookup_2.
  - intros x [j Hj]%list_elem_of_lookup. by eapply Hmin.
Qed.

Lemma nearest_same_distance edited raw a b :
  nearest edited raw a → nearest edited raw b →
  dist_to edited a = dist_to edited b.
Proof.
  intros [Ha Hamin] [Hb Hbmin].
  specialize (Hamin _ Hb). specialize (Hbmin _ Ha). lia.
Qed.

(** Whatever the entries are, the index kept by the loop is the one it
    started with or the index of an entry of the list. *)
Lemma scan_idx_range ehash raw i s :
  best_idx (scan ehash raw i s) = best_idx s
  ∨ ∃ k, (k < length raw)%nat
         ∧ best_idx (scan ehash raw i s) = Some (i + k)%nat.
Proof.
  revert i s. induction raw as [| rh rest IH]; intros i s; simpl.
  { by left. }
  destruct (_ <? best_dist s).
  - right. destruct (_ =? 0).
    + exists 0%nat. simpl. split; [lia | f_equal; lia].
    + destruct (IH (S i) (mkScan (Some i)
                 (hamming_distance ehash (dhash rh)) (S (examined s))))
        as [-> | (k & Hk & ->)]; simpl.
      * exists 0%nat. split; [lia | f_equal; lia].
      * exists (S k). split; [lia | f_equal; lia].
  - destruct (IH (S i) (mkScan (best_idx s) (best_dist s) (S (examined s))))
      as [-> | (k & Hk & ->)]; simpl.
    + by left.
    + right. exists (S k). split; [lia | f_equal; lia].
Qed.

(** The loop invariant, as a description of the final state: either no
    entry improves on the starting distance, or the loop ends on the
    first entry at the least distance, and it has stopped there when
    that distance is 0. *)
Lemma scan_spec ehash raw i s :
  0 < best_dist s →
  let s' := scan ehash raw i s in
  ((∀ x, x ∈ raw → best_dist s <= hamming_distance ehash (dhash x))
   ∧ best_idx s' = best_idx s ∧ best_dist s' = best_dist s
   ∧ examined s' = (examined s + length raw)%nat)
  ∨ (∃ k rh, raw !! k = Some rh
      ∧ best_idx s' = Some (i + k)%nat
      ∧ best_dist s' = hamming_distance ehash (dhash rh)
      ∧ hamming_distance ehash (dhash rh) < best_dist s
      ∧ (∀ j x, raw !! j = Some x →
           hamming_distance ehash (dhash rh)
             <= hamming_distance ehash (dhash x))
      ∧ (∀ j x, (j < k)%nat → raw !! j = Some x →
           hamming_distance ehash (dhash rh)
             < hamming_distance ehash (dhash x))
      ∧ examined s'
        = (examined s
           + if (hamming_distance ehash (dhash rh) =? 0)%Z
             then S k else length raw)%nat).
Proof.
  revert i s. induction raw as [| rh rest IH]; intros i s Hpos; simpl.
  { left. split_and!; [by intros x ?%elem_of_nil | done | done | lia]. }
  set (d := hamming_distance ehash (dhash rh)).
  assert (Hd : 0 <= d) by apply hamming_distance_nonneg.
  destruct (d <? best_dist s) eqn:Hlt.
  - apply Z.ltb_lt in Hlt. right.
    destruct (d =? 0) eqn:Hz.
    + exists 0%nat, rh. simpl. fold d. rewrite Hz.
      apply Z.eqb_eq in Hz.
      split_and!; [done | f_equal; lia | done | done | | | lia].
      * intros j x _. pose proof (hamming_distance_nonneg ehash (dhash x)). lia.
      * intros j x Hj. lia.
    + destruct (IH (S i) (mkScan (Some i) d (S (examined s))))
        as [(Hall & Hi & Hb & He)
           | (k & rh' & Hk & Hi & Hb & Hlt' & Hmin & Hfirst & He)];
        [apply Z.eqb_neq in Hz; simpl; lia | |]; simpl in *.
      * exists 0%nat, rh. simpl. fold d. rewrite Hi, Hb, He, Hz.
        split_and!; [done | f_equal; lia | done | done | | | lia].
        -- intros [| j] x Hj; simpl in Hj; [by simplify_eq |].
           apply Hall. by eapply list_elem_of_lookup_2.
        -- intros j x Hj. lia.
      * exists (S k), rh'. simpl. rewrite Hi, Hb, He.
        split_and!; [done | f_equal; lia | done | lia | | | ].
        -- intros [| j] x Hj; simpl in Hj; [simplify_eq; fold d; lia |].
           by eapply Hmin.
        -- intros [| j] x Hjk Hj; simpl in Hj; [simplify_eq; fold d; lia |].
           eapply Hfirst; [| done]. lia.
        -- destruct (hamming_distance ehash (dhash rh') =? 0); lia.
  - apply Z.ltb_ge in Hlt.
    destruct (IH (S i) (mkScan (best_idx s) (best_dist s) (S (examined s))))
      as [(Hall & Hi & Hb & He)
         | (k & rh' & Hk & Hi & Hb & Hlt' & Hmin & Hfirst & He)];
      [simpl; lia | |]; simpl in *.
    + left. rewrite Hi, Hb, He. split_and!; [| done | done | lia].
      intros x [-> | Hx]%elem_of_cons; [fold d; lia | by apply Hall].
    + right. exists (S k), rh'. simpl. rewrite Hi, Hb, He.
      split_and!; [done | f_equal; lia | done | done | | | ].
      * intros [| j] x Hj; simpl in Hj; [simplify_eq; fold d; lia |].
        by eapply Hmin.
      * intros [| j] x Hjk Hj; simpl in Hj; [simplify_eq; fold d; lia |].
        eapply Hfirst; [| done]. lia.
      * destruct (hamming_distance ehash (dhash rh') =? 0); lia.
Qed.

Lemma dist_to_lt_sentinel edited rh :
  fingerprint64 (dhash edited) → fingerprint64 (dhash rh) →
  0 <= dist_to edited rh < 10 ^ 9.
Proof.
  intros He Hr. pose proof (hamming_distance_64 _ _ He Hr) as H.
  unfold dist_to. change (10 ^ 9) with 1000000000. lia.
Qed.

(** On a non-empty sequence of 64-bit fingerprints the loop ends on the
    first nearest entry. *)
Lemma scan_all_nonempty edited raw :
  fingerprint64 (dhash edited) →
  Forall (fun rh => fingerprint64 (dhash rh)) raw →
  raw ≠ [] →
  ∃ k rh, first_nearest edited raw k rh
    ∧ best_idx (scan_all edited raw) = Some k
    ∧ best_dist (scan_all edited raw) = dist_to edited rh
    ∧ examined (scan_all edited raw)
      = if dist_to edited rh =? 0 then S k else length raw.
Proof.
  intros He Hraw Hne. unfold scan_all.
  destruct (scan_spec (dhash edited) raw 0 (mkScan None (10 ^ 9) 0))
    as [(Hall & _) | (k & rh & Hk & Hi & Hb & _ & Hmin & Hfirst & Hex)];
    [done | |]; simpl in *.
  - destruct raw as [| rh rest]; [done |].
    apply Forall_cons in Hraw as [Hrh _].
    pose proof (dist_to_lt_sentinel edited rh He Hrh) as Hd.
    specialize (Hall rh ltac:(left)). unfold dist_to in Hd. lia.
  - exists k, rh. by split_and!.
Qed.

Lemma find_best_match_nonempty edited raw max_distance :
  fingerprint64 (dhash edited) →
  Forall (fun rh => fingerprint64 (dhash rh)) raw →
  raw ≠ [] →
  ∃ k rh, first_nearest edited raw k rh
    ∧ find_best_match edited raw max_distance
      = Ok (mkMatchResult (path edited) (dhash edited)
              (Some (path rh)) (Some (dhash rh))
              (Some (dist_to edited rh))
              (if dist_to edited rh <=? max_distance
               then "matched" else "no_match")).
Proof.
  intros He Hraw Hne.
  destruct (scan_all_nonempty edited raw He Hraw Hne)
    as (k & rh & Hfn & Hi & Hb & _).
  exists k, rh. split; [done |].
  unfold find_best_match. rewrite Hi, Hb.
  destruct Hfn as (Hk & _). unfold getitem. rewrite Hk. simpl.
  by destruct (_ <=? _).
Qed.

(** C1. For 64-bit fingerprints and every threshold (in particular every
    non-negative one), [find_best_match] returns a result whose status
    is "matched" exactly when the reference sequence is non-empty and
    the least Hamming distance from the query to it is at most
    [max_distance], and "no_match" otherwise.  On an empty reference
    sequence the distance and the matched path (and hash) are absent and
    the status is "no_match".  When the least distance exceeds
    [max_distance] the status is "no_match" and the path, fingerprint
    and distance of a nearest entry are still reported. *)
Theorem find_best_match_status edited raw (max_distance : Z) :
  fingerprint64 (dhash edited) →
  Forall (fun rh => fingerprint64 (dhash rh)) raw →
  ∃ r, find_best_match edited raw max_distance = Ok r
    ∧ (status r = "matched"
       ↔ raw ≠ [] ∧ ∃ rh, nearest edited raw rh
                         ∧ dist_to edited rh <= max_distance)
    ∧ (status r ≠ "matched" → status r = "no_match")
    ∧ (raw = [] →
       status r = "no_match" ∧ distance r = None
       ∧ matched_raw_path r = None ∧ matched_raw_hash r = None)
    ∧ (∀ rh, nearest edited raw rh → max_distance < dist_to edited rh →
       status r = "no_match"
       ∧ ∃ c, nearest edited raw c
            ∧ matched_raw_path r = Some (path c)
            ∧ matched_raw_hash r = Some (dhash c)
            ∧ distance r = Some (dist_to edited c)).
Proof.
  intros He Hraw. destruct raw as [| rh0 rest].
  - eexists. split; [reflexivity |]. simpl. split_and!.
    + split; [done | by intros [? _]].
    + done.
    + done.
    + intros rh [Hin _]. by apply elem_of_nil in Hin.
  - set (raw := rh0 :: rest) in *.
    destruct (find_best_match_nonempty edited raw max_distance He Hraw)
      as (k & c & Hfn & ->); [done |].
    pose proof (first_nearest_nearest _ _ _ _ Hfn) as Hc.
    eexists. split; [reflexivity |]. simpl. split_and!.
    + destruct (dist_to edited c <=? max_distance) eqn:Hle.
      * apply Z.leb_le in Hle. split; [| done]. intros _.
        split; [done |]. by exists c.
      * apply Z.leb_gt in Hle. split; [done |].
        intros (_ & rh & Hrh & Hd).
        rewrite (nearest_same_distance _ _ _ _ Hc Hrh) in Hle. lia.
    + by destruct (_ <=? _).
    + done.
    + intros rh Hrh Hgt.
      rewrite <- (nearest_same_distance _ _ _ _ Hc Hrh) in Hgt.
      apply Z.leb_gt in Hgt as ->. split; [done |]. by exists c.
Qed.

(** C2. On a non-empty sequence of 64-bit fingerprints,
    [find_best_match] reports the entry at the earliest index achieving
    the least distance: every entry is at least as far, and every entry
    before it is strictly farther.  The [break] does not change this:
    when that least distance is 0 the loop has examined the entries up
    to that first one and no further, otherwise it has examined them
    all. *)
Theorem find_best_match_first_nearest edited raw (max_distance : Z) :
  fingerprint64 (dhash edited) →
  Forall (fun rh => fingerprint64 (dhash rh)) raw →
  raw ≠ [] →
  ∃ k rh r, first_nearest edited raw k rh
    ∧ find_best_match edited raw max_distance = Ok r
    ∧ matched_raw_path r = Some (path rh)
    ∧ matched_raw_hash r = Some (dhash rh)
    ∧ distance r = Some (dist_to edited rh)
    ∧ best_idx (scan_all edited raw) = Some k
    ∧ (dist_to edited rh = 0 →
       examined (scan_all edited raw) = S k)
    ∧ (dist_to edited rh ≠ 0 →
       examined (scan_all edited raw) = length raw).
Proof.
  intros He Hraw Hne.
  destruct (scan_all_nonempty edited raw He Hraw Hne)
    as (k & rh & Hfn & Hi & Hb & Hex).
  exists k, rh,
    (mkMatchResult (path edited) (dhash edited)
       (Some (path rh)) (Some (dhash rh)) (Some (dist_to edited rh))
       (if dist_to edited rh <=? max_distance
        then "matched" else "no_match")).
  split; [done |]. split.
  { unfold find_best_match. rewrite Hi, Hb.
    pose proof Hfn as (Hk & _). unfold getitem. rewrite Hk. simpl.
    by destruct (_ <=? _). }
  simpl. split_and!; try done.
  - intros Hz. by rewrite Hex, Hz.
  - intros Hz%Z.eqb_neq. by rewrite Hex, Hz.
Qed.

(** C10. For every query and every reference sequence,
    [find_best_match] returns a result that carries the path and hash
    of the query, with status "matched" or "no_match", never
    "unreadable". *)
Theorem find_best_match_echo_status edited raw (max_distance : Z) :
  ∃ r, find_best_match edited raw max_distance = Ok r
    ∧ edited_path r = path edited
    ∧ edited_hash r = dhash edited
    ∧ (status r = "matched" ∨ status r = "no_match")
    ∧ status r ≠ "unreadable".
Proof.
  unfold find_best_match.
  destruct (scan_idx_range (dhash edited) raw 0 (mkScan None (10 ^ 9) 0))
    as [Hi | (k & Hk & Hi)]; fold (scan_all edited raw) in Hi;
    rewrite Hi; simpl.
  - eexists. split; [reflexivity |]. simpl. split_and!; auto.
  - destruct (lookup_lt_is_Some_2 raw k Hk) as [best Hbest].
    unfold getitem. rewrite Hbest. simpl.
    destruct (_ <=? _); eexists; (split; [reflexivity |]); simpl;
      split_and!; auto.
Qed.

(** The scenarios of the specification, run on the model: a query two
    bits away from the only reference entry, with thresholds 3 and 1;
    a tie between two entries; an exact match that ends the scan. *)
Example find_best_match_within_threshold :
  find_best_match (mkImageHash "/edited/e.jpg" 3)
                  [mkImageHash "/raw/r.jpg" 0] 3
  = Ok (mkMatchResult "/edited/e.jpg" 3 (Some "/raw/r.jpg") (Some 0)
                      (Some 2) "matched").
Proof. reflexivity. Qed.

Example find_best_match_beyond_threshold :
  find_best_match (mkImageHash "/edited/e.jpg" 3)
                  [mkImageHash "/raw/r.jpg" 0] 1
  = Ok (mkMatchResult "/edited/e.jpg" 3 (Some "/raw/r.jpg") (Some 0)
                      (Some 2) "no_match").
Proof. reflexivity. Qed.

Example find_best_match_tie :
  find_best_match (mkImageHash "/edited/e.jpg" 3)
                  [mkImageHash "/raw/a.jpg" 12; mkImageHash "/raw/b.jpg" 1;
                   mkImageHash "/raw/c.jpg" 2] 3
  = Ok (mkMatchResult "/edited/e.jpg" 3 (Some "/raw/b.jpg") (Some 1)
                      (Some 1) "matched").
Proof. reflexivity. Qed.

Example scan_all_stops_at_zero :
  scan_all (mkImageHash "/edited/e.jpg" 3)
           [mkImageHash "/raw/a.jpg" 7; mkImageHash "/raw/b.jpg" 3;
            mkImageHash "/raw/c.jpg" 3; mkImageHash "/raw/d.jpg" 2]
  = mkScan (Some 1%nat) 0 2.
Proof. reflexivity. Qed.

Lemma find_best_match_status_witness :
  let edited := mkImageHash "/edited/e.jpg" 3 in
  let raw := [mkImageHash "/raw/a.jpg" 12; mkImageHash "/raw/b.jpg" 1] in
  ∃ r, find_best_match edited raw 1 = Ok r
    ∧ (status r = "matched"
       ↔ raw ≠ [] ∧ ∃ rh, nearest edited raw rh ∧ dist_to edited rh <= 1)
    ∧ (status r ≠ "matched" → status r = "no_match")
    ∧ (raw = [] →
       status r = "no_match" ∧ distance r = None
       ∧ matched_raw_path r = None ∧ matched_raw_hash r = None)
    ∧ (∀ rh, nearest edited raw rh → 1 < dist_to edited rh →
       status r = "no_match"
       ∧ ∃ c, nearest edited raw c
            ∧ matched_raw_path r = Some (path c)
            ∧ matched_raw_hash r = Some (dhash c)
            ∧ distance r = Some (dist_to edited c)).
Proof.
  intros edited raw. apply (find_best_match_status edited raw 1).
  - unfold fingerprint64. simpl. lia.
  - repeat (constructor; [unfold fingerprint64; simpl; lia |]).
    constructor.
Defined.

Lemma find_best_match_first_nearest_witness :
  let edited := mkImageHash "/edited/e.jpg" 3 in
  let raw := [mkImageHash "/raw/a.jpg" 12; mkImageHash "/raw/b.jpg" 1;
              mkImageHash "/raw/c.jpg" 2] in
  ∃ k rh r, first_nearest edited raw k rh
    ∧ find_best_match edited raw 3 = Ok r
    ∧ matched_raw_path r = Some (path rh)
    ∧ matched_raw_hash r = Some (dhash rh)
    ∧ distance r = Some (dist_to edited rh)
    ∧ best_idx (scan_all edited raw) = Some k
    ∧ (dist_to edited rh = 0 →
       examined (scan_all edited raw) = S k)
    ∧ (dist_to edited rh ≠ 0 →
       examined (scan_all edited raw) = length raw).
Proof.
  intros edited raw. apply (find_best_match_first_nearest edited raw 3).
  - unfold fingerprint64. simpl. lia.
  - repeat (constructor; [unfold fingerprint64; simpl; lia |]).
    constructor.
  - discriminate.
Defined.

End matching_facts.

Section pystr_facts.
Import pystr.

Lemma digit_of_digit_char d :
  0 <= d < 10 → digit_of (digit_char d) = Some d.
Proof.
  intros Hd.
  assert (d = 0 ∨ d = 1 ∨ d = 2 ∨ d = 3 ∨ d = 4 ∨ d = 5 ∨ d = 6 ∨ d = 7
          ∨ d = 8 ∨ d = 9) as Hcases by lia.
  repeat (destruct Hcases as [-> | Hcases]; [reflexivity |]).
  by subst.
Qed.

Lemma digit_char_plain d :
  0 <= d < 10 →
  Py_ISSPACE (digit_char d) = false
  ∧ digit_char d ≠ "-"%char ∧ digit_char d ≠ "+"%char.
Proof.
  intros Hd.
  assert (d = 0 ∨ d = 1 ∨ d = 2 ∨ d = 3 ∨ d = 4 ∨ d = 5 ∨ d = 6 ∨ d = 7
          ∨ d = 8 ∨ d = 9) as Hcases by lia.
  repeat (destruct Hcases as [-> | Hcases]; [by split_and! |]).
  subst. by split_and!.
Qed.

Lemma digit_char_ascii d :
  0 <= d < 10 → (byte (digit_char d) <? 0x80) = true.
Proof.
  intros Hd.
  assert (d = 0 ∨ d = 1 ∨ d = 2 ∨ d = 3 ∨ d = 4 ∨ d = 5 ∨ d = 6 ∨ d = 7
          ∨ d = 8 ∨ d = 9) as Hcases by lia.
  repeat (destruct Hcases as [-> | Hcases]; [reflexivity |]).
  by subst.
Qed.

(** [str(n)] is a [str] of ASCII characters. *)
Lemma str_digits_ascii fuel n acc :
  is_ascii acc = true → is_ascii (str_digits fuel n acc) = true.
Proof.
  revert n acc. induction fuel as [| fuel IH]; intros n acc Hacc; [done |].
  cbn [str_digits].
  assert (Hhead : is_ascii (String (digit_char (n mod 10)) acc) = true).
  { cbn [is_ascii]. rewrite Hacc, digit_char_ascii; [done |].
    apply Z.mod_pos_bound; lia. }
  destruct (n <? 10); [done | by apply IH].
Qed.

Lemma str_of_int_ascii z : is_ascii (str_of_int z) = true.
Proof.
  unfold str_of_int, str_nonneg.
  destruct (z <? 0); [cbn [is_ascii]; rewrite str_digits_ascii; done |].
  by apply str_digits_ascii.
Qed.

(** On a [str] of ASCII characters, [int()] reads the [str] itself. *)
Lemma utf8_decode_ascii s :
  is_ascii s = true →
  utf8_decode s = Some (byte <$> list_ascii_of_string s).
Proof.
  induction s as [| c s IH]; [done |]. cbn [is_ascii].
  intros [Hc Hs]%andb_true_iff. cbn [utf8_decode list_ascii_of_string].
  rewrite Hc, (IH Hs). done.
Qed.

Lemma ascii_buffer_ascii s :
  is_ascii s = true → ascii_buffer (byte <$> list_ascii_of_string s) = s.
Proof.
  intros Hs. unfold ascii_buffer.
  assert (Hall : forallb (fun ch => ch <? 128)
                   (byte <$> list_ascii_of_string s) = true).
  { induction s as [| c s IH]; [done |]. cbn [is_ascii] in Hs.
    apply andb_true_iff in Hs as [Hc Hs].
    cbn [list_ascii_of_string fmap list_fmap forallb].
    rewrite (IH Hs). by rewrite andb_true_r. }
  rewrite Hall. rewrite <- list_fmap_compose.
  rewrite <- (string_of_list_ascii_of_string s) at 2. f_equal.
  rewrite <- (list_fmap_id (list_ascii_of_string s)) at 2.
  apply list_fmap_ext. intros _ c _. unfold byte. simpl.
  by rewrite Nat2Z.id, ascii_nat_embedding.
Qed.

Lemma int_of_str_ascii s :
  is_ascii s = true → int_of_str s = PyLong_FromString s.
Proof.
  intros Hs. unfold int_of_str. rewrite utf8_decode_ascii by done.
  cbn [mbind option_bind]. by rewrite ascii_buffer_ascii.
Qed.

(** Reading back the digits written for [n] in front of [acc], from an
    accumulator [a]: the reading goes on after them from some [m],
    which is [n] when it started from 0. *)
Lemma parse_str_digits fuel n acc a prev :
  0 <= n < 2 ^ Z.of_nat (S fuel) →
  ∃ m, parse_digits (str_digits (S fuel) n acc) a prev
       = parse_digits acc m true
     ∧ (a = 0 → m = n).
Proof.
  revert n acc. induction fuel as [| fuel IH]; intros n acc Hn.
  - change (2 ^ Z.of_nat 1) with 2 in Hn. cbn [str_digits].
    replace (n <? 10) with true by (symmetry; apply Z.ltb_lt; lia).
    rewrite Z.mod_small by lia. cbn [parse_digits].
    rewrite digit_of_digit_char by lia.
    exists (10 * a + n). split; [done | lia].
  - cbn [str_digits]. destruct (n <? 10) eqn:Hsmall.
    + apply Z.ltb_lt in Hsmall. rewrite Z.mod_small by lia.
      cbn [parse_digits]. rewrite digit_of_digit_char by lia.
      exists (10 * a + n). split; [done | lia].
    + apply Z.ltb_ge in Hsmall.
      destruct (IH (n / 10) (String (digit_char (n mod 10)) acc))
        as (m & Hm & Hm0).
      { rewrite Nat2Z.inj_succ, Z.pow_succ_r in Hn by lia.
        split; [apply Z.div_pos; lia |].
        apply Z.div_lt_upper_bound; lia. }
      cbn [str_digits] in Hm. rewrite Hm. cbn [parse_digits].
      rewrite digit_of_digit_char by (apply Z.mod_pos_bound; lia).
      exists (10 * m + n mod 10). split; [done |].
      intros Ha. rewrite (Hm0 Ha).
      pose proof (Z.div_mod n 10). lia.
Qed.

Lemma str_digits_head fuel n acc :
  ∃ d rest, 0 <= d < 10
    ∧ str_digits (S fuel) n acc = String (digit_char d) rest.
Proof.
  revert n acc. induction fuel as [| fuel IH]; intros n acc.
  - cbn [str_digits]. exists (n mod 10). destruct (n <? 10); eexists;
      (split; [apply Z.mod_pos_bound; lia | reflexivity]).
  - cbn [str_digits]. destruct (n <? 10).
    + exists (n mod 10). eexists.
      split; [apply Z.mod_pos_bound; lia | reflexivity].
    + apply IH.
Qed.

Lemma log2_fuel n : 0 <= n → n < 2 ^ Z.of_nat (S (Z.to_nat (Z.log2 n))).
Proof.
  intros Hn. rewrite Nat2Z.inj_succ, Z2Nat.id by apply Z.log2_nonneg.
  destruct (Z.eq_dec n 0) as [-> | Hne]; [done |].
  apply Z.log2_spec. lia.
Qed.

Lemma int_of_str_nonneg n :
  0 <= n → PyLong_FromString (str_nonneg n) = Some n.
Proof.
  intros Hn. unfold PyLong_FromString, str_nonneg.
  destruct (str_digits_head (Z.to_nat (Z.log2 n)) n "")
    as (d & rest & Hd & Hhead).
  destruct (digit_char_plain d Hd) as (Hsp & Hminus & Hplus).
  destruct (parse_str_digits (Z.to_nat (Z.log2 n)) n "" 0 false)
    as (m & Hm & Hm0).
  { split; [done | by apply log2_fuel]. }
  rewrite Hhead in *. cbn [lstrip]. rewrite Hsp.
  destruct (digit_char d) as [b0 b1 b2 b3 b4 b5 b6 b7] eqn:Hc.
  rewrite <- Hc in Hm. 
  assert (Hgo : parse_digits (String (digit_char d) rest) 0 false = Some n).
  { rewrite Hm, Hm0; done. }
  rewrite Hc in Hgo.
  destruct b0, b1, b2, b3, b4, b5, b6, b7; try done.
Qed.

(** [int(str(z)) == z]. *)
Lemma int_of_str_of_int z : int_of_str (str_of_int z) = Some z.
Proof.
  rewrite int_of_str_ascii by apply str_of_int_ascii.
  unfold str_of_int. destruct (z <? 0) eqn:Hneg.
  - apply Z.ltb_lt in Hneg.
    pose proof (int_of_str_nonneg (- z) ltac:(lia)) as Hpos.
    unfold PyLong_FromString in *. cbn [lstrip]. 
    change (Py_ISSPACE "-") with false. cbn iota.
    destruct (str_digits_head (Z.to_nat (Z.log2 (- z))) (- z) "")
      as (d & rest & Hd & Hhead).
    destruct (digit_char_plain d Hd) as (Hsp & Hminus & Hplus).
    unfold str_nonneg in *. rewrite Hhead in *.
    cbn [lstrip] in Hpos. rewrite Hsp in Hpos.
    destruct (digit_char d) as [b0 b1 b2 b3 b4 b5 b6 b7] eqn:Hc.
    assert (Hgo : parse_digits (String (Ascii b0 b1 b2 b3 b4 b5 b6 b7) rest)
                    0 false = Some (- z)).
    { destruct b0, b1, b2, b3, b4, b5, b6, b7; try done. }
    rewrite Hgo. simpl. f_equal. lia.
  - apply Z.ltb_ge in Hneg. by apply int_of_str_nonneg.
Qed.

Lemma int_str z : int_ (Some (str_of_int z)) = Ok z.
Proof. unfold int_. by rewrite int_of_str_of_int. Qed.

End pystr_facts.

Section io_utils_facts.
Import hashing io_utils.

Implicit Types (w : Env) (st : fs_state) (hashes : list ImageHash).

(** The writing loop of [save_cache] appends one row per file when
    every [stat] succeeds. *)
Lemma save_rows_run w cp hashes (m : gmap string csv_file)
    (ds : gset string) (rows : list (list string)) :
  Forall (fun h => is_Some (stat w (path h))) hashes →
  io_for_each
    (fun h =>
       st ← stat_io w (path h);
       writerow cp
         [path h;
          pystr.str_of_int (st_mtime_ns st);
          pystr.str_of_int (st_size st);
          pystr.str_of_int (hashing.dhash h)])
    hashes (mkFs (<[cp := mkCsv rows false]> m) ds)
  = (Ok tt,
     mkFs (<[cp := mkCsv
               (rows ++ omap (fun h => (fun s => row_of s h)
                                        <$> stat w (path h)) hashes)
               false]> m) ds).
Proof.
  intros Hstat. revert rows.
  induction Hstat as [| h hashes [s Hs] _ IH]; intros rows.
  { simpl. by rewrite app_nil_r. }
  cbn [io_for_each omap list_omap]. unfold mbind at 1, io_bind.
  unfold mbind at 1, io_bind, stat_io, io_lift. rewrite Hs.
  unfold writerow at 1. cbn [files dirs fmap option_fmap option_map].
  rewrite alter_insert_eq. cbn [csv_rows csv_damaged].
  rewrite IH. by rewrite <- app_assoc.
Qed.

(** [save_cache] creates the directories, and leaves at [cp] the
    snapshot of [hashes], whatever was there. *)
Lemma save_cache_run w cp hashes st :
  Forall (fun h => is_Some (stat w (path h))) hashes →
  save_cache w cp hashes st
  = (Ok tt,
     mkFs (<[cp := snapshot w hashes]> (files st))
          (dirs st ∪ list_to_set (parent w cp :: parents w (parent w cp)))).
Proof.
  intros Hstat. unfold save_cache.
  unfold mbind at 1, io_bind, mkdir_parents.
  unfold mbind at 1, io_bind, open_w. cbn [dirs files].
  rewrite bool_decide_eq_true_2 by set_solver.
  unfold mbind at 1, io_bind, writerow at 1. cbn [dirs files].
  rewrite alter_insert_eq. cbn [csv_rows csv_damaged app].
  by rewrite save_rows_run.
Qed.

(** A row written by [save_cache] is read back as the entry of its
    file. *)
Lemma load_row_saved (cache : gmap (option string) CacheEntry)
    (s : stat_result) (h : ImageHash) :
  load_row cache
    (dict_row ["path"; "mtime_ns"; "size"; "dhash"] (row_of s h))
  = <[Some (path h) := entry_of s h]> cache.
Proof.
  unfold load_row, dict_row, row_of, row_get.
  cbn [zip zip_with foldl length drop fst snd].
  repeat (rewrite lookup_insert_eq || rewrite lookup_insert_ne by done).
  cbn [mbind result_bind]. by rewrite !int_str.
Qed.

Lemma load_rows_saved w hashes (cache : gmap (option string) CacheEntry) :
  foldl load_row cache
    (dict_row ["path"; "mtime_ns"; "size"; "dhash"]
       <$> filter (fun row => row ≠ [])
             (omap (fun h => (fun s => row_of s h) <$> stat w (path h))
                   hashes))
  = foldl (fun m h =>
             match stat w (path h) with
             | Some s => <[Some (path h) := entry_of s h]> m
             | None => m
             end) cache hashes.
Proof.
  revert cache. induction hashes as [| h hashes IH]; intros cache; [done |].
  cbn [omap list_omap foldl]. destruct (stat w (path h)) as [s |] eqn:Hs.
  - cbn [fmap option_fmap option_map].
    rewrite filter_cons_True by done. cbn [fmap list_fmap foldl].
    by rewrite load_row_saved, IH.
  - cbn [fmap option_fmap option_map]. apply IH.
Qed.

(** Loading a file that holds a snapshot gives the mapping of the
    files of the snapshot. *)
Lemma load_cache_snapshot w st cp hashes :
  files st !! cp = Some (snapshot w hashes) →
  load_cache st cp = cache_of w hashes.
Proof.
  intros Hfile. unfold load_cache, path_exists, read_rows.
  rewrite Hfile. rewrite bool_decide_eq_true_2 by done.
  cbn [negb orb snapshot csv_damaged csv_rows mbind result_bind DictReader].
  apply load_rows_saved.
Qed.

Lemma cache_of_snoc w hashes h :
  cache_of w (hashes ++ [h])
  = match stat w (path h) with
    | Some s => <[Some (path h) := entry_of s h]> (cache_of w hashes)
    | None => cache_of w hashes
    end.
Proof. unfold cache_of. by rewrite foldl_snoc. Qed.

(** An entry of the mapping comes from a file of the list. *)
Lemma cache_of_lookup_Some w hashes k e :
  cache_of w hashes !! k = Some e →
  ∃ h s, h ∈ hashes ∧ k = Some (path h) ∧ stat w (path h) = Some s
         ∧ e = entry_of s h.
Proof.
  induction hashes as [| h hashes IH] using rev_ind.
  { unfold cache_of. simpl. by rewrite lookup_empty. }
  rewrite cache_of_snoc.
  destruct (stat w (path h)) as [s |] eqn:Hs.
  - destruct (decide (k = Some (path h))) as [-> | Hne].
    + rewrite lookup_insert_eq. intros [= <-].
      exists h, s. split_and!; try done.
      apply elem_of_app. right. by apply list_elem_of_singleton.
    + rewrite lookup_insert_ne by done. intros He.
      destruct (IH He) as (h' & s' & Hin & ? & ? & ?).
      exists h', s'. split_and!; try done. apply elem_of_app. by left.
  - intros He. destruct (IH He) as (h' & s' & Hin & ? & ? & ?).
    exists h', s'. split_and!; try done. apply elem_of_app. by left.
Qed.

(** When the files recorded under [key] agree on the fingerprint, this
    is the fingerprint of the entry of [key]. *)
Lemma cache_of_lookup_agree w hashes key s d :
  stat w key = Some s →
  (∀ h, h ∈ hashes → path h = key → hashing.dhash h = d) →
  (∃ h, h ∈ hashes ∧ path h = key) →
  cache_of w hashes !! Some key
  = Some (mkCacheEntry (st_mtime_ns s) (st_size s) d).
Proof.
  intros Hs. induction hashes as [| h hashes IH] using rev_ind;
    intros Hagree (h0 & Hin & Hpath).
  { by apply elem_of_nil in Hin. }
  rewrite cache_of_snoc.
  destruct (decide (path h = key)) as [Hk | Hk].
  - rewrite Hk, Hs, lookup_insert_eq. unfold entry_of.
    rewrite (Hagree h); [done | | done].
    apply elem_of_app. right. by apply list_elem_of_singleton.
  - assert (cache_of w hashes !! Some key
            = Some (mkCacheEntry (st_mtime_ns s) (st_size s) d)) as Hrest.
    { apply IH;
        [intros h' Hin'; apply Hagree; apply elem_of_app; by left |].
      exists h0. split; [| done].
      apply elem_of_app in Hin as [? | ->%list_elem_of_singleton]; done. }
    destruct (stat w (path h)); [| done].
    rewrite lookup_insert_ne; [done | congruence].
Qed.

Lemma cache_of_lookup_None w hashes key :
  (∀ h, h ∈ hashes → path h ≠ key) →
  cache_of w hashes !! Some key = None.
Proof.
  intros Hno. destruct (cache_of w hashes !! Some key) as [e |] eqn:He;
    [| done].
  apply cache_of_lookup_Some in He as (h & s & Hin & [= ->] & _).
  by destruct (Hno h Hin).
Qed.

Lemma cache_of_size w hashes :
  NoDup (path <$> hashes) →
  Forall (fun h => is_Some (stat w (path h))) hashes →
  base.size (cache_of w hashes) = length hashes.
Proof.
  induction hashes as [| h hashes IH] using rev_ind; intros Hnd Hstat.
  { done. }
  rewrite fmap_app in Hnd. apply NoDup_app in Hnd as (Hnd & Hfresh & _).
  apply Forall_app in Hstat as (Hstat & [[s Hs] _]%Forall_cons).
  rewrite cache_of_snoc, Hs, length_app. simpl.
  rewrite map_size_insert_None.
  - rewrite IH by done. lia.
  - apply cache_of_lookup_None. intros h' Hin Heq.
    apply (Hfresh (path h')); [by apply list_elem_of_fmap_2 |].
    rewrite Heq. by apply list_elem_of_singleton.
Qed.

(** Without its folder the cache file cannot be opened for writing;
    [save_cache] makes the folder first. *)
Example open_w_needs_folder :
  open_w demo.env "/out/cache.csv" demo.fs_fresh = (Raise OSError, demo.fs_fresh).
Proof. reflexivity. Qed.

Example save_cache_makes_folder :
  ∃ st', save_cache demo.env "/out/cache.csv" [demo.a_jpg] demo.fs_fresh
         = (Ok tt, st')
    ∧ elements (dirs st') = ["/out"; "/"]
    ∧ csv_rows <$> files st' !! "/out/cache.csv"
      = Some [["path"; "mtime_ns"; "size"; "dhash"];
              ["/raw/a.jpg"; "100"; "10"; "0"]].
Proof. eexists. split; [vm_compute; reflexivity |]. split; vm_compute; reflexivity. Qed.

(** Rows that do not parse are skipped one by one; a file that cannot be
    read gives an empty cache. *)
Example load_cache_skips_bad_rows :
  load_cache
    (mkFs {[ "/out/cache.csv" :=
               mkCsv [["path"; "mtime_ns"; "size"; "dhash"];
                      ["/raw/a.jpg"; "100"; "ten"; "0"];
                      ["/raw/b.jpg"; "200"; "20"];
                      [];
                      ["/raw/c.jpg"; " 300"; "3_0"; "-7"; "extra"]] false ]}
          ∅) "/out/cache.csv"
  = {[ Some "/raw/c.jpg" := mkCacheEntry 300 30 (-7) ]}.
Proof. vm_compute. reflexivity. Qed.

Example load_cache_damaged :
  load_cache
    (mkFs {[ "/out/cache.csv" :=
               mkCsv [["path"; "mtime_ns"; "size"; "dhash"];
                      ["/raw/a.jpg"; "100"; "10"; "0"]] true ]}
          ∅) "/out/cache.csv"
  = ∅.
Proof. reflexivity. Qed.

End io_utils_facts.

Section futures_facts.
Import futures.

Context {A : Type}.

Lemma elem_of_delete_or (l : list (nat * A)) (k : nat) (x y : nat * A) :
  x ∈ l → l !! k = Some y → x = y ∨ x ∈ delete k l.
Proof.
  revert k. induction l as [| z l IH]; intros k Hin Hk.
  { by apply elem_of_nil in Hin. }
  destruct k as [| k]; simpl in *.
  - simplify_eq. apply elem_of_cons in Hin as [-> | Hin]; auto.
  - apply elem_of_cons in Hin as [-> | Hin].
    + right. left.
    + destruct (IH k Hin Hk) as [-> | Hdel]; [by left |].
      right. by right.
Qed.

(** The pool finishes every task, and the future of a task holds the
    result of that task, whatever the order of completion. *)
Lemma pool_run_futures {B} (f : A → B) (tasks : list A) (max_workers : nat) :
  (0 < max_workers)%nat →
  ∀ (n : nat) (pending : list (nat * A)) (sched : list nat)
    (futs : list (option B)),
    length pending = n →
    length futs = length tasks →
    (∀ i a, (i, a) ∈ pending → tasks !! i = Some a) →
    (∀ i a, tasks !! i = Some a →
            (i, a) ∈ pending ∨ futs !! i = Some (Some (f a))) →
    ∀ i a, tasks !! i = Some a →
           pool_run f max_workers n pending sched futs !! i
           = Some (Some (f a)).
Proof.
  intros Hmw. induction n as [| n IH];
    intros pending sched futs Hlen Hfuts Hpend Hdone i a Hia.
  { apply nil_length_inv in Hlen as ->. simpl.
    destruct (Hdone i a Hia) as [Hin | ?]; [| done].
    by apply elem_of_nil in Hin. }
  cbn [pool_run].
  set (running := take max_workers pending).
  assert (Hrun : (0 < length running)%nat).
  { unfold running. rewrite length_take. lia. }
  set (k := (hd 0%nat sched `mod` length running)%nat).
  assert (Hk : (k < length running)%nat).
  { apply Nat.mod_upper_bound. lia. }
  destruct (lookup_lt_is_Some_2 running k Hk) as [[j b] Hjb].
  rewrite Hjb.
  assert (Hpk : pending !! k = Some (j, b)).
  { unfold running in Hjb. by apply lookup_take_Some in Hjb as [? _]. }
  assert (Hjt : tasks !! j = Some b).
  { apply Hpend. by eapply list_elem_of_lookup_2. }
  assert (Hj : (j < length futs)%nat).
  { rewrite Hfuts. by eapply lookup_lt_Some. }
  apply IH; try done.
  - rewrite length_delete by (by eexists). lia.
  - by rewrite length_insert.
  - intros i' a' Hin. apply Hpend. by eapply list_elem_of_delete_inv.
  - intros i' a' Hi'.
    destruct (decide (i' = j)) as [-> | Hne].
    + right. rewrite Hjt in Hi'. simplify_eq.
      by apply list_lookup_insert_eq.
    + rewrite list_lookup_insert_ne by done.
      destruct (Hdone i' a' Hi') as [Hin | ?]; [| by right].
      destruct (elem_of_delete_or _ _ _ _ Hin Hpk) as [? | ?];
        [simplify_eq | by left].
Qed.

(** When the pool has run, no future is empty. *)
Lemma pool_run_all_done {B} (f : A → B) (max_workers : nat) (sched : list nat)
    (tasks : list A) :
  (0 < max_workers)%nat →
  pool_run f max_workers (length tasks) (imap pair tasks) sched
           (replicate (length tasks) None)
  = (Some ∘ f) <$> tasks.
Proof.
  intros Hmw.
  assert (Hlen : ∀ n pending sch (futs : list (option B)),
            length (pool_run f max_workers n pending sch futs)
            = length futs).
  { induction n as [| n IH]; intros pending sch futs; [done |].
    cbn [pool_run]. destruct (_ !! _) as [[j b] |]; [| done].
    by rewrite IH, length_insert. }
  apply list_eq. intros i. rewrite list_lookup_fmap.
  destruct (tasks !! i) as [a |] eqn:Hi.
  - simpl.
    apply (pool_run_futures f tasks max_workers Hmw (length tasks));
      try done.
    + by rewrite length_imap.
    + by rewrite length_replicate.
    + intros j b [k Hk]%list_elem_of_lookup.
      rewrite list_lookup_imap in Hk.
      destruct (tasks !! k) eqn:Hk'; by simplify_eq/=.
    + intros j b Hj. left. apply list_elem_of_lookup. exists j.
      by rewrite list_lookup_imap, Hj.
  - simpl. apply lookup_ge_None. rewrite Hlen, length_replicate.
    by apply lookup_ge_None.
Qed.

(** [Executor.map] on a pool of at least one worker yields the outcomes
    of the tasks in the order of the tasks: it is [map], for every pool
    size and every order of completion. *)
Lemma executor_map_map {B} (f : A → result B) (max_workers : nat)
    (sched : list nat) (tasks : list A) :
  (0 < max_workers)%nat →
  executor_map f max_workers sched tasks = f <$> tasks.
Proof.
  intros Hmw. unfold executor_map. cbv zeta.
  rewrite pool_run_all_done by done.
  rewrite <- list_fmap_compose. by apply list_fmap_ext.
Qed.

(** A number of workers that is not positive is refused. *)
Lemma ProcessPoolExecutor_refused (w : Env) (n : Z) :
  n <= 0 → ProcessPoolExecutor w (Some n) = Raise ValueError.
Proof.
  intros Hn. unfold ProcessPoolExecutor.
  by destruct (Z.leb_spec n 0); [| lia].
Qed.

(** A pool without workers finishes nothing: every future stays
    empty. *)
Lemma executor_map_no_worker {B} (f : A → result B) (sched : list nat)
    (tasks : list A) :
  executor_map f 0 sched tasks
  = replicate (length tasks) (Raise BrokenProcessPool).
Proof.
  unfold executor_map. cbv zeta. destruct tasks as [| a tasks]; [done |].
  cbn [length pool_run]. rewrite take_0, lookup_nil.
  by rewrite fmap_replicate.
Qed.

End futures_facts.

Section cli_facts.
Import hashing io_utils cli.

Implicit Types (w : Env) (st : fs_state) (p key : string).

(** [dhash64] always returns: a fingerprint, or [None]. *)
Lemma dhash64_total w p : dhash64 w p = Ok (fingerprint w p).
Proof.
  unfold fingerprint, dhash64, try_except.
  destruct (decode w p) as [px | e]; simpl; [| done].
  by destruct (dhash_pixels px).
Qed.

Lemma dhash64_decode_failure w p e :
  decode w p = Raise e → dhash64 w p = Ok None.
Proof. intros Hdec. unfold dhash64. by rewrite Hdec. Qed.

Lemma hash_path_worker_total w p : _hash_path_worker w p = Ok (hashed w p).
Proof.
  unfold _hash_path_worker, hashed. rewrite dhash64_total. simpl.
  by destruct (fingerprint w p).
Qed.

(** The sequential loop over [todo]. *)
Lemma hash_todo_sequential w (out : list ImageHash) (todo : list string) :
  for_each (fun out p => r ← _hash_path_worker w p; Ok (append_some out r))
           out todo
  = Ok (out ++ omap (hashed w) todo).
Proof.
  revert out. induction todo as [| p todo IH]; intros out; simpl.
  { by rewrite app_nil_r. }
  rewrite hash_path_worker_total. simpl. rewrite IH.
  destruct (hashed w p); simpl; [by rewrite <- app_assoc | done].
Qed.

(** The loop over the results of the pool. *)
Lemma hash_todo_results w (out : list ImageHash) (todo : list string) :
  for_each (fun out r => r ← r; Ok (append_some out r))
           out (_hash_path_worker w <$> todo)
  = Ok (out ++ omap (hashed w) todo).
Proof.
  revert out. induction todo as [| p todo IH]; intros out; simpl.
  { by rewrite app_nil_r. }
  rewrite hash_path_worker_total. simpl. rewrite IH.
  destruct (hashed w p); simpl; [by rewrite <- app_assoc | done].
Qed.

(** The loop that sorts the paths. *)
Lemma classify_foldl w (cache : gmap (option string) CacheEntry)
    (paths : list string) (reuse0 : list ImageHash) (todo0 : list string) :
  foldl (classify w cache) (reuse0, todo0) paths
  = (reuse0 ++ omap (reuse_of w cache) paths,
     todo0 ++ omap (todo_of w cache) paths).
Proof.
  revert reuse0 todo0.
  induction paths as [| p paths IH]; intros reuse0 todo0; simpl.
  { by rewrite !app_nil_r. }
  unfold reuse_of at 1, todo_of at 1.
  destruct (stat w p) as [s |]; simpl; [| apply IH].
  destruct (cache !! Some (resolve w p)) as [ce |]; simpl.
  - destruct ((mtime_ns ce =? st_mtime_ns s) && (size ce =? st_size s));
      rewrite IH; by rewrite <- ?app_assoc.
  - rewrite IH. by rewrite <- app_assoc.
Qed.

Lemma sort_paths_eq w st raw_dir cache_path :
  sort_paths w st raw_dir cache_path
  = (omap (reuse_of w (load_cache st (resolve w (expanduser w cache_path))))
          (iter_images w (resolve w (expanduser w raw_dir))),
     omap (todo_of w (load_cache st (resolve w (expanduser w cache_path))))
          (iter_images w (resolve w (expanduser w raw_dir)))).
Proof. unfold sort_paths. by rewrite classify_foldl. Qed.

Lemma is_reusable_eqb (ce : CacheEntry) (s : stat_result) :
  (mtime_ns ce =? st_mtime_ns s) && (size ce =? st_size s) = true
  ↔ is_reusable ce s.
Proof.
  unfold is_reusable. rewrite andb_true_iff, !Z.eqb_eq. tauto.
Qed.

(** With the guard [max(1, workers)], the pool is always made, and has
    at least one worker. *)
Lemma max_workers_pos w (workers : Z) :
  ∃ ex, futures.ProcessPoolExecutor w
          (if workers =? 0 then None else Some (Z.max 1 workers))
        = Ok ex
      ∧ (0 < ex)%nat.
Proof.
  unfold futures.ProcessPoolExecutor.
  destruct (workers =? 0); [eexists; split; [done | lia] |].
  destruct (Z.leb_spec (Z.max 1 workers) 0); [lia |].
  eexists; split; [done | lia].
Qed.

(** The pool branch and the in-process branch of [_hash_raw_images]
    compute the same list. *)
Lemma hash_todo_pool w (sched : list nat) (workers : Z)
    (out : list ImageHash) (todo : list string) :
  (ex ← futures.ProcessPoolExecutor w
          (if workers =? 0 then None else Some (Z.max 1 workers));
   for_each (fun out r => r ← r; Ok (append_some out r)) out
     (futures.executor_map (_hash_path_worker w) ex sched todo))
  = for_each (fun out p => r ← _hash_path_worker w p;
                           Ok (append_some out r))
             out todo.
Proof.
  destruct (max_workers_pos w workers) as (ex & -> & Hex).
  cbn [mbind result_bind].
  rewrite executor_map_map by done.
  by rewrite hash_todo_results, hash_todo_sequential.
Qed.

(** [_hash_raw_images], loop by loop: the result is [reuse] followed by
    the files of [todo] that have a fingerprint, and the cache is saved
    when [todo] is not empty.  Neither the number of workers nor the
    order of completion appears on the right. *)
Lemma hash_raw_images_unfold w (sched : list nat) raw_dir cache_path
    (workers : Z) st :
  _hash_raw_images w sched raw_dir cache_path workers st
  = let cp := resolve w (expanduser w cache_path) in
    let reuse := (sort_paths w st raw_dir cache_path).1 in
    let todo := (sort_paths w st raw_dir cache_path).2 in
    let out := reuse ++ omap (hashed w) todo in
    match todo with
    | [] => (Ok out, st)
    | _ =>
        match save_cache w cp out st with
        | (Ok _, st') => (Ok out, st')
        | (Raise e, st') => (Raise e, st')
        end
    end.
Proof.
  unfold _hash_raw_images. rewrite sort_paths_eq, classify_foldl.
  cbn [fst snd app].
  destruct (omap (todo_of w _) _) as [| q todo] eqn:Htodo.
  { cbn [omap list_omap]. by rewrite app_nil_r. }
  destruct (workers =? 1).
  - unfold mbind at 1, io_bind, io_lift.
    rewrite hash_todo_sequential.
    unfold mbind at 1, io_bind. by destruct (save_cache _ _ _ _) as [[[] |] ?].
  - unfold mbind at 1, io_bind, io_lift.
    rewrite hash_todo_pool, hash_todo_sequential.
    unfold mbind at 1, io_bind. by destruct (save_cache _ _ _ _) as [[[] |] ?].
Qed.

Lemma reuse_of_Some w (cache : gmap (option string) CacheEntry) p
    (h : ImageHash) :
  reuse_of w cache p = Some h
  ↔ ∃ s ce, stat w p = Some s
      ∧ cache !! Some (resolve w p) = Some ce
      ∧ is_reusable ce s
      ∧ h = mkImageHash (resolve w p) (io_utils.dhash ce).
Proof.
  unfold reuse_of. destruct (stat w p) as [s |]; simpl.
  - destruct (cache !! Some (resolve w p)) as [ce |]; simpl.
    + destruct (_ && _) eqn:Hre.
      * apply is_reusable_eqb in Hre. split.
        -- intros [= <-]. by exists s, ce.
        -- by intros (s' & ce' & [= <-] & [= <-] & _ & ->).
      * split; [done |]. intros (s' & ce' & [= <-] & [= <-] & Hr & _).
        apply is_reusable_eqb in Hr. congruence.
    + split; [done |]. by intros (s' & ce' & _ & ? & _).
  - split; [done |]. by intros (s' & ce' & ? & _).
Qed.

Lemma todo_of_Some w (cache : gmap (option string) CacheEntry) p key :
  todo_of w cache p = Some key
  ↔ ∃ s, stat w p = Some s
      ∧ key = resolve w p
      ∧ ¬ (∃ ce, cache !! Some key = Some ce ∧ is_reusable ce s).
Proof.
  unfold todo_of. destruct (stat w p) as [s |]; simpl.
  - destruct (cache !! Some (resolve w p)) as [ce |] eqn:Hce; simpl.
    + destruct (_ && _) eqn:Hre.
      * apply is_reusable_eqb in Hre. split; [done |].
        intros (s' & [= <-] & -> & Hno). destruct Hno. by exists ce.
      * split.
        -- intros [= <-]. exists s. split_and!; [done | done |].
           intros (ce' & Hce' & Hr). rewrite Hce in Hce'. simplify_eq.
           apply is_reusable_eqb in Hr. congruence.
        -- by intros (s' & _ & -> & _).
    + split.
      * intros [= <-]. exists s. split_and!; [done | done |].
        intros (ce' & Hce' & _). congruence.
      * by intros (s' & _ & -> & _).
  - split; [done |]. by intros (s' & ? & _).
Qed.

(** Every file of the merged list has metadata, when [stat] follows
    the links that [resolve] resolves. *)
Lemma merged_stat w st raw_dir cache_path :
  (∀ p, stat w (resolve w p) = stat w p) →
  Forall (fun h => is_Some (stat w (path h)))
    ((sort_paths w st raw_dir cache_path).1
     ++ omap (hashed w) (sort_paths w st raw_dir cache_path).2).
Proof.
  intros Hstat. rewrite sort_paths_eq. cbn [fst snd].
  apply Forall_app. split; apply Forall_forall; intros h Hh.
  - apply list_elem_of_omap in Hh as (p & _ & Hp).
    apply reuse_of_Some in Hp as (s & ce & Hs & _ & _ & ->). simpl.
    rewrite Hstat. by eexists.
  - apply list_elem_of_omap in Hh as (q & Hq & Hh).
    apply list_elem_of_omap in Hq as (p & _ & Hp).
    apply todo_of_Some in Hp as (s & Hs & -> & _).
    unfold hashed in Hh. destruct (fingerprint w _); simplify_eq/=.
    rewrite Hstat. by eexists.
Qed.

(** The run, when [stat] follows the links that [resolve] resolves. *)
Lemma hash_raw_images_run w (sched : list nat) raw_dir cache_path
    (workers : Z) st :
  (∀ p, stat w (resolve w p) = stat w p) →
  _hash_raw_images w sched raw_dir cache_path workers st
  = let cp := resolve w (expanduser w cache_path) in
    let reuse := (sort_paths w st raw_dir cache_path).1 in
    let todo := (sort_paths w st raw_dir cache_path).2 in
    let out := reuse ++ omap (hashed w) todo in
    (Ok out,
     match todo with
     | [] => st
     | _ => mkFs (<[cp := snapshot w out]> (files st))
                 (dirs st
                  ∪ list_to_set (parent w cp :: parents w (parent w cp)))
     end).
Proof.
  intros Hstat. rewrite hash_raw_images_unfold. cbn zeta.
  destruct (sort_paths w st raw_dir cache_path).2 eqn:Htodo; [done |].
  rewrite save_cache_run; [done |].
  rewrite <- Htodo. by apply merged_stat.
Qed.

End cli_facts.

Section claims_cache_and_phases.
Import hashing io_utils cli.

Implicit Types (w : Env) (st : fs_state) (p key : string).

Lemma fmap_eq_of_NoDup {X Y} (g : X → Y) (l : list X) (x y : X) :
  NoDup (g <$> l) → x ∈ l → y ∈ l → g x = g y → x = y.
Proof.
  induction l as [| z l IH]; intros Hnd Hx Hy Hg.
  { by apply elem_of_nil in Hx. }
  rewrite fmap_cons in Hnd. apply NoDup_cons in Hnd as [Hz Hnd].
  apply elem_of_cons in Hx as [-> | Hx];
    apply elem_of_cons in Hy as [-> | Hy]; try done.
  - destruct Hz. rewrite Hg. by apply list_elem_of_fmap_2.
  - destruct Hz. rewrite <- Hg. by apply list_elem_of_fmap_2.
  - by apply IH.
Qed.

Lemma length_omap_total {X Y} (g : X → option Y) (l : list X) :
  Forall (fun x => is_Some (g x)) l → length (omap g l) = length l.
Proof.
  induction 1 as [| x l [y Hy] _ IH]; [done |].
  cbn [omap list_omap]. rewrite Hy. simpl. by rewrite <- IH.
Qed.

(** C7. For files with distinct paths, all of which [stat] finds,
    [save_cache] returns normally, and [load_cache] on the same
    location then gives a mapping with as many keys as there are files,
    the keys being the paths of the files, and the entry of each path
    being the metadata written for it and the fingerprint of the file. *)
Theorem save_cache_load_cache w (cache_path : string)
    (hashes : list ImageHash) st :
  NoDup (path <$> hashes) →
  Forall (fun h => is_Some (stat w (path h))) hashes →
  ∃ st', save_cache w cache_path hashes st = (Ok tt, st')
    ∧ base.size (load_cache st' cache_path) = length hashes
    ∧ (∀ k, is_Some (load_cache st' cache_path !! k)
            ↔ ∃ h, h ∈ hashes ∧ k = Some (path h))
    ∧ (∀ h, h ∈ hashes →
         ∃ s, stat w (path h) = Some s
            ∧ load_cache st' cache_path !! Some (path h)
              = Some (mkCacheEntry (st_mtime_ns s) (st_size s)
                                   (hashing.dhash h))).
Proof.
  intros Hnd Hstat. rewrite save_cache_run by done.
  eexists. split; [reflexivity |].
  rewrite (load_cache_snapshot w _ cache_path hashes)
    by (simpl; apply lookup_insert_eq).
  assert (Hentry : ∀ h, h ∈ hashes →
    ∃ s, stat w (path h) = Some s
       ∧ cache_of w hashes !! Some (path h)
         = Some (mkCacheEntry (st_mtime_ns s) (st_size s) (hashing.dhash h))).
  { intros h Hh.
    destruct (proj1 (Forall_forall _ _) Hstat h Hh) as [s Hs].
    exists s. split; [done |].
    apply cache_of_lookup_agree; [done | | by exists h].
    intros h' Hh' Hpath.
    by rewrite (fmap_eq_of_NoDup path hashes h' h Hnd Hh' Hh Hpath). }
  split_and!.
  - by apply cache_of_size.
  - intros k. split.
    + intros [e He].
      apply cache_of_lookup_Some in He as (h & s & Hin & -> & _).
      by exists h.
    + intros (h & Hh & ->). destruct (Hentry h Hh) as (s & _ & ->).
      by eexists.
  - done.
Qed.

Lemma save_cache_load_cache_witness :
  let hashes := [demo.a_jpg; demo.b_jpg] in
  ∃ st', save_cache demo.env "/out/cache.csv" hashes demo.fs_fresh
         = (Ok tt, st')
    ∧ base.size (load_cache st' "/out/cache.csv") = length hashes
    ∧ (∀ k, is_Some (load_cache st' "/out/cache.csv" !! k)
            ↔ ∃ h, h ∈ hashes ∧ k = Some (path h))
    ∧ (∀ h, h ∈ hashes →
         ∃ s, stat demo.env (path h) = Some s
            ∧ load_cache st' "/out/cache.csv" !! Some (path h)
              = Some (mkCacheEntry (st_mtime_ns s) (st_size s)
                                   (hashing.dhash h))).
Proof.
  intros hashes.
  apply (save_cache_load_cache demo.env "/out/cache.csv" hashes
           demo.fs_fresh).
  - apply (bool_decide_unpack _). vm_compute. exact I.
  - repeat (constructor; [vm_compute; eexists; reflexivity |]).
    constructor.
Defined.


Lemma hash_edited_images_loop w (out : list ImageHash)
    (paths : list string) :
  for_each (fun out p =>
              h ← dhash64 w p;
              match h with
              | None => Ok out
              | Some h => Ok (out ++ [mkImageHash (resolve w p) h])
              end)
           out paths
  = Ok (out ++ omap (fun p => mkImageHash (resolve w p) <$> fingerprint w p)
                    paths).
Proof.
  revert out. induction paths as [| p paths IH]; intros out; simpl.
  { by rewrite app_nil_r. }
  rewrite dhash64_total. simpl.
  destruct (fingerprint w p); simpl; rewrite IH; by rewrite <- ?app_assoc.
Qed.

(** C8. [dhash64] returns normally on every path, a fingerprint or
    [None], and [None] when the file cannot be opened or decoded: the
    exception does not escape.  [_hash_edited_images] returns the
    enumerated files that have a fingerprint, in order, leaving out
    those without and going on with the rest; so does
    [_hash_raw_images] for the files that need fingerprinting. *)
Theorem decode_failures_excluded w :
  (∀ p, ∃ r, dhash64 w p = Ok r
           ∧ r = fingerprint w p
           ∧ ((∃ e, decode w p = Raise e) → r = None))
  ∧ (∀ edited_dir,
       _hash_edited_images w edited_dir
       = Ok (omap (fun p => mkImageHash (resolve w p) <$> fingerprint w p)
                  (iter_images w (resolve w (expanduser w edited_dir)))))
  ∧ (∀ (sched : list nat) raw_dir cache_path (workers : Z) st,
       (∀ p, stat w (resolve w p) = stat w p) →
       ∃ st',
         _hash_raw_images w sched raw_dir cache_path workers st
         = (Ok ((sort_paths w st raw_dir cache_path).1
                ++ omap (fun p => mkImageHash p <$> fingerprint w p)
                        (sort_paths w st raw_dir cache_path).2),
            st')).
Proof.
  split_and!.
  - intros p. exists (fingerprint w p). split_and!.
    + apply dhash64_total.
    + done.
    + intros [e He]. pose proof (dhash64_decode_failure w p e He) as Hnone.
      rewrite dhash64_total in Hnone. by simplify_eq.
  - intros edited_dir. unfold _hash_edited_images.
    by rewrite hash_edited_images_loop.
  - intros sched raw_dir cache_path workers st Hstat.
    rewrite hash_raw_images_run by done. by eexists.
Qed.

Lemma decode_failures_excluded_witness :
  _hash_edited_images demo.env "/edited" = Ok [demo.e1_jpg]
  ∧ ∃ st', _hash_raw_images demo.env [2; 0]%nat "/raw" "/out/cache.csv" 4
             demo.fs_fresh
           = (Ok [demo.a_jpg; demo.b_jpg], st').
Proof.
  destruct (decode_failures_excluded demo.env) as (_ & Hedited & Hraw).
  split.
  - exact (Hedited "/edited").
  - exact (Hraw [2; 0]%nat "/raw" "/out/cache.csv" 4 demo.fs_fresh
                (fun p => eq_refl)).
Defined.

(** C6, as stated, fails.  The merged mapping is not written at the end
    of a run in which every enumerated file is a cache hit: in the world
    of [demo], over the archive folder, the run returns the two files of
    the folder and writes nothing; the cache file is not the snapshot of
    the merged list, and still has the entry of the file that is gone. *)
Lemma hash_raw_images_all_hits_no_save :
  ∃ out st',
    _hash_raw_images demo.env [] "/archive" "/out/cache.csv" 1 demo.fs_hits
    = (Ok out, st')
    ∧ out = [demo.x_jpg; demo.y_jpg]
    ∧ st' = demo.fs_hits
    ∧ files st' !! "/out/cache.csv" ≠ Some (snapshot demo.env out)
    ∧ load_cache st' "/out/cache.csv" !! Some "/archive/gone.jpg"
      = Some (mkCacheEntry 50 5 5)
    ∧ load_cache st' "/out/cache.csv" ≠ cache_of demo.env out.
Proof.
  exists [demo.x_jpg; demo.y_jpg], demo.fs_hits. split_and!.
  - vm_compute. reflexivity.
  - reflexivity.
  - reflexivity.
  - vm_compute. intros [=].
  - vm_compute. reflexivity.
  - intros Heq.
    apply (f_equal (fun m => m !! Some "/archive/gone.jpg")) in Heq.
    vm_compute in Heq. discriminate.
Qed.

(** C6, amended.  When [stat] follows the links that [resolve]
    resolves: if at least one enumerated file needs fingerprinting, the
    run ends with the cache file holding the snapshot of the full merged
    list (the reused entries, then the newly computed ones), one row
    per file after the header.  The final file system is the initial one
    after one [save_cache] of that list, and what [save_cache] leaves in
    the cache file does not depend on the state it starts from; the
    directory of the cache file and its ancestors exist, and no other
    file is touched.  If no enumerated file needs fingerprinting, the
    file system is left as it was. *)
Theorem hash_raw_images_saves_snapshot w (sched : list nat)
    (raw_dir cache_path : string) (workers : Z) st :
  (∀ p, stat w (resolve w p) = stat w p) →
  let cp := resolve w (expanduser w cache_path) in
  let reuse := (sort_paths w st raw_dir cache_path).1 in
  let todo := (sort_paths w st raw_dir cache_path).2 in
  ∃ out st',
    _hash_raw_images w sched raw_dir cache_path workers st = (Ok out, st')
    ∧ out = reuse ++ omap (hashed w) todo
    ∧ (todo ≠ [] →
         save_cache w cp out st = (Ok tt, st')
         ∧ files st' !! cp = Some (snapshot w out)
         ∧ length (csv_rows (snapshot w out)) = S (length out)
         ∧ load_cache st' cp = cache_of w out
         ∧ parent w cp ∈ dirs st'
         ∧ (∀ d, d ∈ parents w (parent w cp) → d ∈ dirs st')
         ∧ (∀ q, q ≠ cp → files st' !! q = files st !! q)
         ∧ (∀ st0, ∃ st1, save_cache w cp out st0 = (Ok tt, st1)
                        ∧ files st1 !! cp = Some (snapshot w out)))
    ∧ (todo = [] → st' = st).
Proof.
  intros Hstat cp reuse todo.
  rewrite hash_raw_images_run by done. cbn zeta.
  fold cp reuse todo. eexists _, _. split; [reflexivity |].
  split; [done |].
  pose proof (merged_stat w st raw_dir cache_path Hstat) as Hall.
  fold reuse todo in Hall.
  destruct todo as [| q todo'] eqn:Htodo; (split; [| done]); [done |].
  intros _. cbn [files dirs]. split_and!.
  - by rewrite save_cache_run.
  - apply lookup_insert_eq.
  - cbn [snapshot csv_rows length]. f_equal.
    by apply length_omap_total, Forall_forall; intros h Hh;
      apply fmap_is_Some, (proj1 (Forall_forall _ _) Hall).
  - apply load_cache_snapshot. simpl. apply lookup_insert_eq.
  - set_solver.
  - set_solver.
  - intros q' Hq'. by rewrite lookup_insert_ne.
  - intros st0. rewrite save_cache_run by done.
    eexists. split; [reflexivity |]. simpl. apply lookup_insert_eq.
Qed.

Lemma hash_raw_images_saves_snapshot_witness :
  let w := demo.env in
  let st := demo.fs_stale in
  let cp := resolve w (expanduser w "/out/cache.csv") in
  let reuse := (sort_paths w st "/raw" "/out/cache.csv").1 in
  let todo := (sort_paths w st "/raw" "/out/cache.csv").2 in
  ∃ out st',
    _hash_raw_images w [1; 0]%nat "/raw" "/out/cache.csv" 2 st = (Ok out, st')
    ∧ out = reuse ++ omap (hashed w) todo
    ∧ (todo ≠ [] →
         save_cache w cp out st = (Ok tt, st')
         ∧ files st' !! cp = Some (snapshot w out)
         ∧ length (csv_rows (snapshot w out)) = S (length out)
         ∧ load_cache st' cp = cache_of w out
         ∧ parent w cp ∈ dirs st'
         ∧ (∀ d, d ∈ parents w (parent w cp) → d ∈ dirs st')
         ∧ (∀ q, q ≠ cp → files st' !! q = files st !! q)
         ∧ (∀ st0, ∃ st1, save_cache w cp out st0 = (Ok tt, st1)
                        ∧ files st1 !! cp = Some (snapshot w out)))
    ∧ (todo = [] → st' = st).
Proof.
  apply (hash_raw_images_saves_snapshot demo.env [1; 0]%nat "/raw"
           "/out/cache.csv" 2 demo.fs_stale).
  intros p. reflexivity.
Defined.

Example hash_raw_images_stale_run :
  (sort_paths demo.env demo.fs_stale "/raw" "/out/cache.csv")
  = ([demo.a_jpg], ["/raw/b.jpg"; "/raw/c.jpg"])
  ∧ (_hash_raw_images demo.env [1; 0]%nat "/raw" "/out/cache.csv" 2
       demo.fs_stale).1
    = Ok [demo.a_jpg; demo.b_jpg].
Proof. split; vm_compute; reflexivity. Qed.

(** C4. Let [p] be an enumerated file that [stat] finds, [key] its
    canonical path, and let [stat] follow the links that [resolve]
    resolves.  The run fingerprints the members of [todo] and no other
    file.  If the loaded cache binds [key] to an entry whose [mtime_ns]
    and [size] both equal the live values, [key] is not in [todo], and
    the result holds [key] with the cached fingerprint and with no other.
    If it binds [key] to no such entry (one of the two fields differs,
    or there is no entry), [key] is in [todo], the result holds [key]
    only with the fingerprint computed in this run, and the cache file
    written at the end binds [key] to the live values and that
    fingerprint (to nothing when the file has none). *)
Theorem cache_reuse_rule w (sched : list nat) (raw_dir cache_path : string)
    (workers : Z) st p (s : stat_result) :
  (∀ q, stat w (resolve w q) = stat w q) →
  p ∈ iter_images w (resolve w (expanduser w raw_dir)) →
  stat w p = Some s →
  let cp := resolve w (expanduser w cache_path) in
  let cache := load_cache st cp in
  let reuse := (sort_paths w st raw_dir cache_path).1 in
  let todo := (sort_paths w st raw_dir cache_path).2 in
  let key := resolve w p in
  ∃ out st',
    _hash_raw_images w sched raw_dir cache_path workers st = (Ok out, st')
    ∧ out = reuse ++ omap (hashed w) todo
    ∧ (∀ ce, cache !! Some key = Some ce → is_reusable ce s →
         (key ∉ todo)
         ∧ mkImageHash key (io_utils.dhash ce) ∈ out
         ∧ (∀ h, h ∈ out → path h = key →
                 hashing.dhash h = io_utils.dhash ce))
    ∧ ((∀ ce, cache !! Some key = Some ce → ¬ is_reusable ce s) →
         key ∈ todo
         ∧ (∀ h, h ∈ out → path h = key →
                 fingerprint w key = Some (hashing.dhash h))
         ∧ load_cache st' cp !! Some key
           = mkCacheEntry (st_mtime_ns s) (st_size s) <$> fingerprint w key).
Proof.
  intros Hstat Hp Hs cp cache reuse todo key.
  rewrite hash_raw_images_run by done. cbn zeta.
  fold cp reuse todo. eexists _, _. split; [reflexivity |].
  split; [done |].
  assert (Hkey : stat w key = Some s) by (unfold key; by rewrite Hstat).
  (* membership in the two lists *)
  assert (Hreuse : ∀ h, h ∈ reuse → path h = key →
    ∃ ce, cache !! Some key = Some ce ∧ is_reusable ce s
          ∧ hashing.dhash h = io_utils.dhash ce).
  { intros h Hh Hpath. unfold reuse in Hh. rewrite sort_paths_eq in Hh.
    apply list_elem_of_omap in Hh as (p' & _ & Hp').
    apply reuse_of_Some in Hp' as (s' & ce & Hs' & Hce & Hr & ->).
    simpl in Hpath. rewrite Hpath in Hce.
    exists ce. split_and!; try done.
    rewrite <- Hstat, Hpath, Hkey in Hs'. by simplify_eq. }
  assert (Htodo : key ∈ todo →
    ¬ ∃ ce, cache !! Some key = Some ce ∧ is_reusable ce s).
  { intros Hk. unfold todo in Hk. rewrite sort_paths_eq in Hk.
    apply list_elem_of_omap in Hk as (p' & _ & Hp').
    apply todo_of_Some in Hp' as (s' & Hs' & Hk' & Hno).
    rewrite <- Hstat, <- Hk', Hkey in Hs'. by simplify_eq. }
  assert (Hfresh : ∀ h, h ∈ omap (hashed w) todo → path h = key →
    key ∈ todo ∧ fingerprint w key = Some (hashing.dhash h)).
  { intros h Hh Hpath.
    apply list_elem_of_omap in Hh as (q & Hq & Hh). unfold hashed in Hh.
    destruct (fingerprint w q) as [d |] eqn:Hd; simplify_eq/=. done. }
  split.
  - intros ce Hce Hr. split_and!.
    + intros Hk. apply (Htodo Hk). by exists ce.
    + apply elem_of_app. left. unfold reuse. rewrite sort_paths_eq.
      apply list_elem_of_omap. exists p. split; [done |].
      apply reuse_of_Some. by exists s, ce.
    + intros h [Hh | Hh]%elem_of_app Hpath.
      * destruct (Hreuse h Hh Hpath) as (ce' & Hce' & _ & ->).
        fold cache in Hce. congruence.
      * destruct (Hfresh h Hh Hpath) as [Hk _].
        destruct (Htodo Hk). by exists ce.
  - intros Hmiss.
    assert (Hk : key ∈ todo).
    { unfold todo. rewrite sort_paths_eq.
      apply list_elem_of_omap. exists p. split; [done |].
      apply todo_of_Some. exists s. split_and!; try done.
      intros (ce & Hce & Hr). by apply (Hmiss ce). }
    assert (Hout : ∀ h, h ∈ reuse ++ omap (hashed w) todo → path h = key →
                        fingerprint w key = Some (hashing.dhash h)).
    { intros h [Hh | Hh]%elem_of_app Hpath.
      - destruct (Hreuse h Hh Hpath) as (ce & Hce & Hr & _).
        by destruct (Hmiss ce).
      - by destruct (Hfresh h Hh Hpath). }
    split_and!; [done | done |].
    destruct todo as [| q todo'] eqn:Htodo_eq;
      [by apply elem_of_nil in Hk |].
    rewrite (load_cache_snapshot w _ cp (reuse ++ omap (hashed w) (q :: todo')))
      by (simpl; apply lookup_insert_eq).
    destruct (fingerprint w key) as [d |] eqn:Hd;
      cbn [fmap option_fmap option_map].
    + apply cache_of_lookup_agree; [done | |].
      * intros h Hh Hpath. specialize (Hout h Hh Hpath). congruence.
      * exists (mkImageHash key d). split; [| done].
        apply elem_of_app. right. apply list_elem_of_omap.
        exists key. split; [done |]. unfold hashed. by rewrite Hd.
    + apply cache_of_lookup_None. intros h Hh Hpath.
      specialize (Hout h Hh Hpath). congruence.
Qed.

Lemma cache_reuse_rule_witness :
  let w := demo.env in
  let st := demo.fs_stale in
  let p := "/raw/b.jpg" in
  let s := mkStat 200 20 in
  let cp := resolve w (expanduser w "/out/cache.csv") in
  let cache := load_cache st cp in
  let reuse := (sort_paths w st "/raw" "/out/cache.csv").1 in
  let todo := (sort_paths w st "/raw" "/out/cache.csv").2 in
  let key := resolve w p in
  ∃ out st',
    _hash_raw_images w [] "/raw" "/out/cache.csv" 1 st = (Ok out, st')
    ∧ out = reuse ++ omap (hashed w) todo
    ∧ (∀ ce, cache !! Some key = Some ce → is_reusable ce s →
         (key ∉ todo)
         ∧ mkImageHash key (io_utils.dhash ce) ∈ out
         ∧ (∀ h, h ∈ out → path h = key →
                 hashing.dhash h = io_utils.dhash ce))
    ∧ ((∀ ce, cache !! Some key = Some ce → ¬ is_reusable ce s) →
         key ∈ todo
         ∧ (∀ h, h ∈ out → path h = key →
                 fingerprint w key = Some (hashing.dhash h))
         ∧ load_cache st' cp !! Some key
           = mkCacheEntry (st_mtime_ns s) (st_size s) <$> fingerprint w key).
Proof.
  apply (cache_reuse_rule demo.env [] "/raw" "/out/cache.csv" 1
           demo.fs_stale "/raw/b.jpg" (mkStat 200 20)).
  - intros q. reflexivity.
  - apply list_elem_of_In. vm_compute. auto.
  - reflexivity.
Defined.

End claims_cache_and_phases.

(** * Further properties of the code *)

Section hamming_metric.
Import hashing.

Lemma bit_count_Ndouble (n : N) :
  bit_count (Z.of_N (Pos.Ndouble n)) = bit_count (Z.of_N n).
Proof. by destruct n. Qed.

Lemma bit_count_Nsucc_double (n : N) :
  bit_count (Z.of_N (Pos.Nsucc_double n)) = 1 + bit_count (Z.of_N n).
Proof. by destruct n. Qed.

(** The ones of an exclusive or are ones of one of its arguments. *)
Lemma pos_lxor_bit_count (p q : positive) :
  bit_count (Z.of_N (Pos.lxor p q)) <= pos_bit_count p + pos_bit_count q.
Proof.
  revert q. induction p as [p IH | p IH |]; intros [q | q |];
    try (pose proof (IH q));
    try (pose proof (pos_bit_count_pos p));
    try (pose proof (pos_bit_count_pos q)).
  - change (Pos.lxor p~1 q~1) with (Pos.Ndouble (Pos.lxor p q)).
    rewrite bit_count_Ndouble. cbn [pos_bit_count]. lia.
  - change (Pos.lxor p~1 q~0) with (Pos.Nsucc_double (Pos.lxor p q)).
    rewrite bit_count_Nsucc_double. cbn [pos_bit_count]. lia.
  - change (Pos.lxor p~1 1) with (N.pos p~0). simpl. lia.
  - change (Pos.lxor p~0 q~1) with (Pos.Nsucc_double (Pos.lxor p q)).
    rewrite bit_count_Nsucc_double. cbn [pos_bit_count]. lia.
  - change (Pos.lxor p~0 q~0) with (Pos.Ndouble (Pos.lxor p q)).
    rewrite bit_count_Ndouble. cbn [pos_bit_count]. lia.
  - change (Pos.lxor p~0 1) with (N.pos p~1). simpl. lia.
  - change (Pos.lxor 1 q~1) with (N.pos q~0). simpl. lia.
  - change (Pos.lxor 1 q~0) with (N.pos q~1). simpl. lia.
  - simpl. lia.
Qed.

Lemma bit_count_lxor (x y : Z) :
  0 <= x → 0 <= y → bit_count (Z.lxor x y) <= bit_count x + bit_count y.
Proof.
  intros Hx Hy.
  destruct x as [| p | p]; [rewrite Z.lxor_0_l; simpl; lia | | lia].
  destruct y as [| q | q]; [rewrite Z.lxor_0_r; simpl; lia | | lia].
  change (Z.lxor (Z.pos p) (Z.pos q)) with (Z.of_N (Pos.lxor p q)).
  apply pos_lxor_bit_count.
Qed.

Lemma bit_count_zero (x : Z) : bit_count x = 0 ↔ x = 0.
Proof.
  split; [| by intros ->].
  destruct x as [| p | p]; [done | |]; simpl; intros Hp;
    pose proof (pos_bit_count_pos p); lia.
Qed.

Lemma hamming_distance_zero (a b : Z) : hamming_distance a b = 0 ↔ a = b.
Proof.
  unfold hamming_distance. rewrite bit_count_zero. split.
  - apply Z.lxor_eq.
  - intros ->. apply Z.lxor_nilpotent.
Qed.

(** X1. On non-negative integers [hamming_distance] is a metric that
    does not change when both arguments are xor-ed with the same value:
    it is 0 exactly on equal arguments, and it obeys the triangle
    inequality. *)
Theorem hamming_distance_triangle (a b c : Z) :
  0 <= a → 0 <= b → 0 <= c →
  (hamming_distance a b = 0 ↔ a = b)
  ∧ hamming_distance a c <= hamming_distance a b + hamming_distance b c
  ∧ hamming_distance (Z.lxor a c) (Z.lxor b c) = hamming_distance a b.
Proof.
  intros Ha Hb Hc. split_and!.
  - apply hamming_distance_zero.
  - unfold hamming_distance.
    replace (Z.lxor a c) with (Z.lxor (Z.lxor a b) (Z.lxor b c)).
    + apply bit_count_lxor; apply Z.lxor_nonneg; lia.
    + rewrite Z.lxor_assoc, <- (Z.lxor_assoc b b c), Z.lxor_nilpotent.
      by rewrite Z.lxor_0_l.
  - unfold hamming_distance. f_equal.
    rewrite Z.lxor_assoc, (Z.lxor_comm c (Z.lxor b c)), Z.lxor_assoc.
    by rewrite Z.lxor_nilpotent, Z.lxor_0_r.
Qed.

Lemma hamming_distance_triangle_witness :
  (hamming_distance 12 10 = 0 ↔ 12 = 10)
  ∧ hamming_distance 12 3 <= hamming_distance 12 10 + hamming_distance 10 3
  ∧ hamming_distance (Z.lxor 12 3) (Z.lxor 10 3) = hamming_distance 12 10.
Proof. apply (hamming_distance_triangle 12 10 3); lia. Defined.

End hamming_metric.

Section dhash_more.
Import hashing.

Lemma for_each_ext {S A} (f g : S → A → result S) (s : S) (xs : list A) :
  (∀ s x, x ∈ xs → f s x = g s x) →
  for_each f s xs = for_each g s xs.
Proof.
  revert s. induction xs as [| x xs IH]; intros s Hfg; [done |].
  simpl. rewrite (Hfg s x) by left.
  destruct (g s x) as [s' | e]; simpl; [| done].
  apply IH. intros s0 y Hy. apply Hfg. by right.
Qed.

(** A loop raises when its body raises on one of the elements, whatever
    the loop variables are then. *)
Lemma for_each_raises {S A} (f : S → A → result S) (x : A) (xs : list A) :
  (∀ s, ∃ e, f s x = Raise e) → x ∈ xs →
  ∀ s, ∃ e, for_each f s xs = Raise e.
Proof.
  intros Hx. induction xs as [| y xs IH]; intros Hin s.
  { by apply elem_of_nil in Hin. }
  simpl. destruct (f s y) as [s' | e] eqn:Hy; simpl; [| by exists e].
  apply elem_of_cons in Hin as [-> | Hin]; [| by apply IH].
  destruct (Hx s) as [e He]. congruence.
Qed.

Lemma getitem_take {A} (xs : list A) (n i : nat) :
  (i < n)%nat → getitem (take n xs) i = getitem xs i.
Proof. intros Hi. unfold getitem. by rewrite lookup_take_lt. Qed.

(** Only the first 72 values are read. *)
Lemma dhash_pixels_take (px : list Z) :
  dhash_pixels (take 72 px) = dhash_pixels px.
Proof.
  unfold dhash_pixels. f_equal.
  apply for_each_ext. intros hb r Hr%elem_of_seq.
  unfold dhash_row. apply for_each_ext. intros [h bit] c Hc%elem_of_seq.
  unfold dhash_col. rewrite !getitem_take by lia. done.
Qed.

(** With fewer than 72 values the last comparison, at the latest, is
    out of range. *)
Lemma dhash_pixels_short (px : list Z) :
  (length px < 72)%nat → ∃ e, dhash_pixels px = Raise e.
Proof.
  intros Hlen. unfold dhash_pixels.
  destruct (for_each_raises (dhash_row px) 7%nat (seq 0 8)) with (s := (0, Z.shiftl 1 63))
    as [e He].
  - intros hb. unfold dhash_row.
    apply (for_each_raises _ 7%nat); [| apply elem_of_seq; lia].
    intros [h bit]. unfold dhash_col, getitem.
    rewrite (lookup_ge_None_2 px (7 * 9 + 7 + 1)) by lia.
    destruct (px !! (7 * 9 + 7)%nat); simpl; by eexists.
  - apply elem_of_seq. lia.
  - exists e. by rewrite He.
Qed.

Lemma dhash_pixels_long (px : list Z) :
  (72 <= length px)%nat → ∃ h, dhash_pixels px = Ok h ∧ 0 <= h < 2 ^ 64.
Proof.
  intros Hlen. rewrite <- dhash_pixels_take.
  destruct (dhash_pixels_inv (take 72 px)) as (h & bit & Hrun & Hinv).
  { rewrite length_take. lia. }
  exists h. unfold dhash_pixels. rewrite Hrun. split; [done |].
  destruct Hinv as (_ & Hh & _ & Hclear). simpl in *. split; [done |].
  apply nonneg_high_bits_clear; [done |]. intros i Hi. apply Hclear; lia.
Qed.

(** X2. [dhash64] returns [None] exactly when decoding raises or gives
    fewer than 72 values; in every other case it returns a value between
    0 and [2^64 - 1]. *)
Theorem dhash64_none_iff (w : Env) (p : string) :
  (dhash64 w p = Ok None
   ↔ (∃ e, decode w p = Raise e)
     ∨ (∃ px, decode w p = Ok px ∧ (length px < 72)%nat))
  ∧ (dhash64 w p ≠ Ok None →
     ∃ h, dhash64 w p = Ok (Some h) ∧ 0 <= h < 2 ^ 64).
Proof.
  unfold dhash64. destruct (decode w p) as [px | e] eqn:Hdec; simpl.
  - destruct (decide (length px < 72)%nat) as [Hshort | Hlong].
    + destruct (dhash_pixels_short px Hshort) as [e ->]. simpl.
      split; [| done]. split; [| done]. intros _. right. by exists px.
    + destruct (dhash_pixels_long px ltac:(lia)) as (h & -> & Hh). simpl.
      split.
      * split; [done |]. intros [[e ?] | (px' & [= <-] & ?)]; [done | lia].
      * intros _. by exists h.
  - split; [| done]. split; [| done]. intros _. left. by exists e.
Qed.

(** The fingerprint is a function of the 64 comparisons. *)
Lemma dhash_pixels_gt_ext (px px' : list Z) :
  length px = 72%nat → length px' = 72%nat →
  (∀ r c : nat, (r < 8)%nat → (c < 8)%nat →
                gt_right px r c = gt_right px' r c) →
  dhash_pixels px = dhash_pixels px'.
Proof.
  intros Hlen Hlen' Hgt.
  destruct (dhash_pixels_inv px Hlen) as (h & bit & Hrun & Hinv).
  destruct (dhash_pixels_inv px' Hlen') as (h' & bit' & Hrun' & Hinv').
  unfold dhash_pixels. rewrite Hrun, Hrun'. simpl. f_equal.
  destruct Hinv as (_ & _ & Hset & Hclear).
  destruct Hinv' as (_ & _ & Hset' & Hclear'). cbn [fst snd] in *.
  apply Z.bits_inj'. intros i Hi.
  destruct (Z_lt_le_dec 63 i) as [Hhigh | Hlow].
  { rewrite Hclear, Hclear' by lia. done. }
  set (k := Z.to_nat (63 - i)).
  assert (Hk : (k = 8 * (k / 8) + k mod 8)%nat) by (apply Nat.div_mod_eq).
  assert (Hc : (k mod 8 < 8)%nat) by (apply Nat.mod_upper_bound; lia).
  assert (Hr : (k / 8 < 8)%nat) by (apply Nat.Div0.div_lt_upper_bound; lia).
  replace i with (63 - Z.of_nat (8 * (k / 8) + k mod 8)) by lia.
  rewrite Hset, Hset' by lia. by apply Hgt.
Qed.

Lemma fmap_strict_gt_right (f : Z → Z) (px : list Z) (r c : nat) :
  (∀ x y, x < y → f x < f y) →
  gt_right (f <$> px) r c = gt_right px r c.
Proof.
  intros Hf. unfold gt_right. rewrite !list_lookup_fmap.
  destruct (px !! (r * 9 + c)%nat) as [l |]; simpl; [| done].
  destruct (px !! (r * 9 + c + 1)%nat) as [rt |]; simpl; [| done].
  rewrite !Z.gtb_ltb. destruct (l <? rt) eqn:Hlt.
  - apply Z.ltb_lt in Hlt. apply Z.ltb_lt. by apply Hf.
  - apply Z.ltb_ge in Hlt. apply Z.ltb_ge.
    destruct (Z.eq_dec l rt) as [-> | Hne]; [lia |].
    specialize (Hf rt l). lia.
Qed.

Lemma dhash_pixels_fmap_strict (f : Z → Z) (px : list Z) :
  (∀ x y, x < y → f x < f y) →
  (72 <= length px)%nat →
  dhash_pixels (f <$> px) = dhash_pixels px.
Proof.
  intros Hf Hlen.
  rewrite <- (dhash_pixels_take (f <$> px)), <- (dhash_pixels_take px).
  rewrite <- fmap_take. apply dhash_pixels_gt_ext.
  - rewrite length_fmap, length_take. lia.
  - rewrite length_take. lia.
  - intros r c _ _. by apply fmap_strict_gt_right.
Qed.

(** X3. The fingerprint does not change when every pixel value goes
    through the same strictly increasing function (a change of
    brightness or contrast that keeps the order of the values): two
    files, one decoding to the image of the pixels of the other, get the
    same result from [dhash64]. *)
Theorem dhash64_order_preserving (f : Z → Z) (w w' : Env) (p p' : string)
    (px : list Z) :
  (∀ x y, x < y → f x < f y) →
  decode w p = Ok px →
  decode w' p' = Ok (f <$> px) →
  dhash64 w' p' = dhash64 w p.
Proof.
  intros Hf Hdec Hdec'. unfold dhash64. rewrite Hdec, Hdec'. simpl.
  destruct (decide (length px < 72)%nat) as [Hshort | Hlong].
  - destruct (dhash_pixels_short px Hshort) as [e ->].
    destruct (dhash_pixels_short (f <$> px)) as [e' ->];
      [by rewrite length_fmap | done].
  - by rewrite dhash_pixels_fmap_strict by (done || lia).
Qed.

Lemma dhash64_order_preserving_witness :
  dhash64 (mkEnv (fun _ => None) id id (fun _ => []) (fun _ => [])
                 (fun _ => Ok ((fun x => 2 * x + 10) <$> demo.px_ramp)) 1)
          "/edited/brighter.jpg"
  = dhash64 demo.env "/raw/b.jpg".
Proof.
  apply (dhash64_order_preserving (fun x => 2 * x + 10) demo.env _
           "/raw/b.jpg" "/edited/brighter.jpg" demo.px_ramp).
  - intros x y Hxy. lia.
  - reflexivity.
  - reflexivity.
Defined.

Lemma gt_right_flat (r c : nat) : gt_right demo.px_flat r c = false.
Proof.
  unfold gt_right, demo.px_flat.
  destruct (replicate 72 7 !! (r * 9 + c)%nat) as [l |] eqn:Hl; [| done].
  destruct (replicate 72 7 !! (r * 9 + c + 1)%nat) as [rt |] eqn:Hrt;
    [| done].
  apply lookup_replicate in Hl as [-> _].
  by apply lookup_replicate in Hrt as [-> _].
Qed.

Lemma gt_right_ramp (r c : nat) :
  (r < 8)%nat → (c < 8)%nat → gt_right demo.px_ramp r c = true.
Proof.
  intros Hr Hc. unfold gt_right, demo.px_ramp.
  rewrite !list_lookup_fmap, !lookup_seq_lt by lia. simpl.
  apply Z.gtb_lt. lia.
Qed.

(** X4. For a 9x8 grid, the fingerprint is 0 exactly when no pixel is
    greater than its left neighbour, and [2^64 - 1] exactly when every
    pixel of the eight compared columns is smaller than its right
    neighbour. *)
Theorem dhash64_extremes (w : Env) (p : string) (px : list Z) :
  decode w p = Ok px →
  length px = 72%nat →
  (dhash64 w p = Ok (Some 0)
   ↔ ∀ (r c : nat) (left right : Z), (r < 8)%nat → (c < 8)%nat →
       px !! (r * 9 + c)%nat = Some left →
       px !! (r * 9 + c + 1)%nat = Some right → right <= left)
  ∧ (dhash64 w p = Ok (Some (2 ^ 64 - 1))
     ↔ ∀ (r c : nat) (left right : Z), (r < 8)%nat → (c < 8)%nat →
         px !! (r * 9 + c)%nat = Some left →
         px !! (r * 9 + c + 1)%nat = Some right → left < right).
Proof.
  intros Hdec Hlen.
  destruct (dhash_pixels_inv px Hlen) as (h & bit & Hrun & Hinv).
  destruct Hinv as (_ & _ & Hset & _). cbn [fst snd] in Hset.
  assert (Hval : dhash64 w p = Ok (Some h)).
  { unfold dhash64. rewrite Hdec. cbn [mbind result_bind].
    unfold dhash_pixels. rewrite Hrun. done. }
  assert (Hgt : ∀ r c left right,
    px !! (r * 9 + c)%nat = Some left →
    px !! (r * 9 + c + 1)%nat = Some right →
    gt_right px r c = (right >? left)).
  { intros r c l rt Hl Hrt. unfold gt_right. by rewrite Hl, Hrt. }
  assert (Hsome : ∀ r c, (r < 8)%nat → (c < 8)%nat →
    ∃ left right, px !! (r * 9 + c)%nat = Some left
                  ∧ px !! (r * 9 + c + 1)%nat = Some right).
  { intros r c Hr Hc.
    destruct (lookup_lt_is_Some_2 px (r * 9 + c)%nat ltac:(lia)) as [l Hl].
    destruct (lookup_lt_is_Some_2 px (r * 9 + c + 1)%nat ltac:(lia))
      as [rt Hrt].
    by exists l, rt. }
  rewrite Hval. split; split.
  - intros [= ->] r c l rt Hr Hc Hl Hrt.
    specialize (Hset r c Hc ltac:(lia)).
    rewrite Z.bits_0, (Hgt r c l rt Hl Hrt), Z.gtb_ltb in Hset.
    symmetry in Hset. by apply Z.ltb_ge in Hset.
  - intros Hle. do 2 f_equal.
    assert (dhash_pixels px = dhash_pixels demo.px_flat) as Heq.
    { apply dhash_pixels_gt_ext; [done | done |].
      intros r c Hr Hc. rewrite gt_right_flat.
      destruct (Hsome r c Hr Hc) as (l & rt & Hl & Hrt).
      rewrite (Hgt r c l rt Hl Hrt), Z.gtb_ltb. apply Z.ltb_ge.
      exact (Hle r c l rt Hr Hc Hl Hrt). }
    unfold dhash_pixels in Heq at 1. rewrite Hrun in Heq. simpl in Heq.
    change (dhash_pixels demo.px_flat) with (Ok (A:=Z) 0) in Heq. congruence.
  - intros [= ->] r c l rt Hr Hc Hl Hrt.
    specialize (Hset r c Hc ltac:(lia)).
    change (2 ^ 64 - 1) with (Z.ones 64) in Hset.
    rewrite Z.ones_spec_low, (Hgt r c l rt Hl Hrt), Z.gtb_ltb in Hset by lia.
    symmetry in Hset. by apply Z.ltb_lt in Hset.
  - intros Hlt. do 2 f_equal.
    assert (dhash_pixels px = dhash_pixels demo.px_ramp) as Heq.
    { apply dhash_pixels_gt_ext; [done | done |].
      intros r c Hr Hc. rewrite gt_right_ramp by done.
      destruct (Hsome r c Hr Hc) as (l & rt & Hl & Hrt).
      rewrite (Hgt r c l rt Hl Hrt), Z.gtb_ltb. apply Z.ltb_lt.
      exact (Hlt r c l rt Hr Hc Hl Hrt). }
    unfold dhash_pixels in Heq at 1. rewrite Hrun in Heq. simpl in Heq.
    change (dhash_pixels demo.px_ramp) with (Ok (A:=Z) (2 ^ 64 - 1)) in Heq.
    congruence.
Qed.

Lemma dhash64_extremes_witness :
  (dhash64 demo.env "/raw/a.jpg" = Ok (Some 0)
   ↔ ∀ (r c : nat) (left right : Z), (r < 8)%nat → (c < 8)%nat →
       demo.px_flat !! (r * 9 + c)%nat = Some left →
       demo.px_flat !! (r * 9 + c + 1)%nat = Some right → right <= left)
  ∧ (dhash64 demo.env "/raw/a.jpg" = Ok (Some (2 ^ 64 - 1))
     ↔ ∀ (r c : nat) (left right : Z), (r < 8)%nat → (c < 8)%nat →
         demo.px_flat !! (r * 9 + c)%nat = Some left →
         demo.px_flat !! (r * 9 + c + 1)%nat = Some right → left < right).
Proof.
  apply (dhash64_extremes demo.env "/raw/a.jpg" demo.px_flat); reflexivity.
Defined.

End dhash_more.

Section matching_more.
Import hashing matching.

Implicit Types (edited rh : ImageHash) (raw : list ImageHash).

(** The scan on arbitrary integers: either no entry is nearer than the
    starting distance [10^9], or the scan ends on the first nearest
    entry. *)
Lemma scan_all_cases edited raw :
  (best_idx (scan_all edited raw) = None
   ∧ ∀ x, x ∈ raw → 10 ^ 9 <= dist_to edited x)
  ∨ (∃ k rh, first_nearest edited raw k rh
       ∧ best_idx (scan_all edited raw) = Some k
       ∧ best_dist (scan_all edited raw) = dist_to edited rh
       ∧ dist_to edited rh < 10 ^ 9
       ∧ examined (scan_all edited raw)
         = if dist_to edited rh =? 0 then S k else length raw).
Proof.
  unfold scan_all.
  destruct (scan_spec (dhash edited) raw 0 (mkScan None (10 ^ 9) 0))
    as [(Hall & Hi & _) | (k & rh & Hk & Hi & Hb & Hlt & Hmin & Hfirst & Hex)];
    [done | |]; cbn [best_idx best_dist examined] in *.
  - left. by split.
  - right. exists k, rh. by split_and!.
Qed.

Lemma find_best_match_cases edited raw (max_distance : Z) :
  (find_best_match edited raw max_distance
   = Ok (mkMatchResult (path edited) (dhash edited) None None None "no_match")
   ∧ ∀ x, x ∈ raw → 10 ^ 9 <= dist_to edited x)
  ∨ (∃ k rh, first_nearest edited raw k rh
       ∧ dist_to edited rh < 10 ^ 9
       ∧ find_best_match edited raw max_distance
         = Ok (mkMatchResult (path edited) (dhash edited)
                 (Some (path rh)) (Some (dhash rh))
                 (Some (dist_to edited rh))
                 (if dist_to edited rh <=? max_distance
                  then "matched" else "no_match"))).
Proof.
  unfold find_best_match.
  destruct (scan_all_cases edited raw)
    as [[Hi Hall] | (k & rh & Hfn & Hi & Hb & Hlt & _)]; rewrite Hi.
  - by left.
  - right. exists k, rh. split_and!; [done | done |].
    rewrite Hb. destruct Hfn as (Hk & _). unfold getitem. rewrite Hk.
    cbn [mbind result_bind]. by destruct (_ <=? _).
Qed.

(** X5. On arbitrary integers, [find_best_match] reports no candidate
    when every entry is at distance [10^9] or more (in particular on an
    empty sequence); otherwise it reports the first nearest entry, whose
    distance is below [10^9], with the path and the hash taken from that
    one entry, the distance being their Hamming distance to the query,
    and the status being "matched" exactly when that distance is at most
    [max_distance]. *)
Theorem find_best_match_record edited raw (max_distance : Z) :
  ∃ r, find_best_match edited raw max_distance = Ok r
    ∧ ((matched_raw_path r = None ∧ matched_raw_hash r = None
        ∧ distance r = None ∧ status r = "no_match"
        ∧ ∀ x, x ∈ raw → 10 ^ 9 <= dist_to edited x)
       ∨ (∃ k rh, first_nearest edited raw k rh
            ∧ matched_raw_path r = Some (path rh)
            ∧ matched_raw_hash r = Some (dhash rh)
            ∧ distance r
              = Some (hamming_distance (dhash edited) (dhash rh))
            ∧ hamming_distance (dhash edited) (dhash rh) < 10 ^ 9
            ∧ (status r = "matched"
               ↔ hamming_distance (dhash edited) (dhash rh)
                   <= max_distance))).
Proof.
  destruct (find_best_match_cases edited raw max_distance)
    as [[-> Hall] | (k & rh & Hfn & Hlt & ->)]; eexists;
    (split; [reflexivity |]); cbn [matched_raw_path matched_raw_hash
      distance status].
  - left. by split_and!.
  - right. exists k, rh. split_and!; try done.
    fold (dist_to edited rh).
    destruct (dist_to edited rh <=? max_distance) eqn:Hle.
    + by apply Z.leb_le in Hle.
    + apply Z.leb_gt in Hle. split; [done | lia].
Qed.

(** X6. When some entry has the hash of the query, [find_best_match]
    with a non-negative threshold returns "matched" at distance 0 with
    the first such entry, and the scan has stopped at that entry. *)
Theorem find_best_match_exact edited raw (max_distance : Z) (j : nat) rh0 :
  raw !! j = Some rh0 →
  dhash rh0 = dhash edited →
  0 <= max_distance →
  ∃ k rh r, (k <= j)%nat
    ∧ raw !! k = Some rh
    ∧ dhash rh = dhash edited
    ∧ (∀ i x, (i < k)%nat → raw !! i = Some x → dhash x ≠ dhash edited)
    ∧ find_best_match edited raw max_distance = Ok r
    ∧ status r = "matched"
    ∧ distance r = Some 0
    ∧ matched_raw_path r = Some (path rh)
    ∧ matched_raw_hash r = Some (dhash edited)
    ∧ examined (scan_all edited raw) = S k.
Proof.
  intros Hj Hsame Hmd.
  assert (Hd0 : dist_to edited rh0 = 0).
  { unfold dist_to. by apply hamming_distance_zero. }
  destruct (scan_all_cases edited raw)
    as [[_ Hall] | (k & rh & Hfn & Hi & Hb & Hlt & Hex)].
  { specialize (Hall rh0 (list_elem_of_lookup_2 _ _ _ Hj)).
    rewrite Hd0 in Hall. change (10 ^ 9) with 1000000000 in Hall. lia. }
  pose proof Hfn as (Hk & Hmin & Hfirst).
  assert (Hd : dist_to edited rh = 0).
  { pose proof (Hmin j rh0 Hj).
    pose proof (hamming_distance_nonneg (dhash edited) (dhash rh)).
    unfold dist_to in *. lia. }
  assert (Hhash : dhash rh = dhash edited).
  { symmetry. by apply hamming_distance_zero. }
  exists k, rh. eexists. split_and!.
  - destruct (decide (k <= j)%nat) as [| Hgt]; [done |].
    specialize (Hfirst j rh0 ltac:(lia) Hj). lia.
  - done.
  - done.
  - intros i x Hik Hx Heq. specialize (Hfirst i x Hik Hx).
    assert (dist_to edited x = 0)
      by (unfold dist_to; by apply hamming_distance_zero).
    lia.
  - unfold find_best_match. rewrite Hi, Hb, Hd. unfold getitem.
    rewrite Hk. cbn [mbind result_bind].
    replace (0 <=? max_distance) with true
      by (symmetry; by apply Z.leb_le).
    reflexivity.
  - done.
  - done.
  - done.
  - simpl. by rewrite Hhash.
  - by rewrite Hex, Hd.
Qed.

Lemma find_best_match_exact_witness :
  let edited := mkImageHash "/edited/e.jpg" 5 in
  let raw := [mkImageHash "/raw/a.jpg" 4; mkImageHash "/raw/b.jpg" 5;
              mkImageHash "/raw/c.jpg" 5] in
  ∃ k rh r, (k <= 2)%nat
    ∧ raw !! k = Some rh
    ∧ dhash rh = dhash edited
    ∧ (∀ i x, (i < k)%nat → raw !! i = Some x → dhash x ≠ dhash edited)
    ∧ find_best_match edited raw 0 = Ok r
    ∧ status r = "matched"
    ∧ distance r = Some 0
    ∧ matched_raw_path r = Some (path rh)
    ∧ matched_raw_hash r = Some (dhash edited)
    ∧ examined (scan_all edited raw) = S k.
Proof.
  intros edited raw.
  apply (find_best_match_exact edited raw 0 2 (mkImageHash "/raw/c.jpg" 5));
    [reflexivity | reflexivity | lia].
Defined.

(** X7. The candidate that [find_best_match] reports (path, hash and
    distance) does not depend on the threshold; raising the threshold
    keeps a match a match; and with a negative threshold nothing is ever
    matched. *)
Theorem find_best_match_threshold edited raw (md md' : Z) :
  ∃ r r', find_best_match edited raw md = Ok r
    ∧ find_best_match edited raw md' = Ok r'
    ∧ matched_raw_path r' = matched_raw_path r
    ∧ matched_raw_hash r' = matched_raw_hash r
    ∧ distance r' = distance r
    ∧ (md <= md' → status r = "matched" → status r' = "matched")
    ∧ (md < 0 → status r = "no_match").
Proof.
  destruct (find_best_match_cases edited raw md)
    as [[Hr Hall] | (k & rh & Hfn & Hlt & Hr)];
    destruct (find_best_match_cases edited raw md')
      as [[Hr' Hall'] | (k' & rh' & Hfn' & Hlt' & Hr')].
  - rewrite Hr, Hr'. eexists _, _. by split_and!.
  - destruct Hfn' as (Hk' & _).
    specialize (Hall rh' (list_elem_of_lookup_2 _ _ _ Hk')). lia.
  - destruct Hfn as (Hk & _).
    specialize (Hall' rh (list_elem_of_lookup_2 _ _ _ Hk)). lia.
  - assert (rh' = rh) as ->.
    { destruct Hfn as (Hk & Hmin & Hfirst), Hfn' as (Hk' & Hmin' & Hfirst').
      destruct (Nat.lt_trichotomy k k') as [Hkk | [-> | Hkk]].
      - pose proof (Hfirst' k rh Hkk Hk). pose proof (Hmin k' rh' Hk'). lia.
      - congruence.
      - pose proof (Hfirst k' rh' Hkk Hk'). pose proof (Hmin' k rh Hk). lia. }
    rewrite Hr, Hr'. eexists _, _. split_and!; try done; simpl.
    + intros Hle. destruct (dist_to edited rh <=? md) eqn:H1; [| done].
      apply Z.leb_le in H1. intros _.
      by replace (dist_to edited rh <=? md') with true
        by (symmetry; apply Z.leb_le; lia).
    + intros Hneg.
      pose proof (hamming_distance_nonneg (dhash edited) (dhash rh)).
      by replace (dist_to edited rh <=? md) with false
        by (symmetry; apply Z.leb_gt; unfold dist_to; lia).
Qed.

(** X8. Adding entries to the reference sequence never makes the
    reported distance larger and never loses a match; so two sequences
    with the same entries, in any order and with any repetitions, give
    the same distance and the same status (the reported path may
    differ). *)
Theorem find_best_match_more_references edited raw raw' (md : Z) :
  (∀ x, x ∈ raw → x ∈ raw') →
  ∃ r r', find_best_match edited raw md = Ok r
    ∧ find_best_match edited raw' md = Ok r'
    ∧ (∀ d, distance r = Some d → ∃ d', distance r' = Some d' ∧ d' <= d)
    ∧ (status r = "matched" → status r' = "matched")
    ∧ ((∀ x, x ∈ raw' → x ∈ raw) →
       distance r' = distance r ∧ status r' = status r).
Proof.
  intros Hsub.
  destruct (find_best_match_cases edited raw md)
    as [[Hr Hall] | (k & rh & Hfn & Hlt & Hr)];
    destruct (find_best_match_cases edited raw' md)
      as [[Hr' Hall'] | (k' & rh' & Hfn' & Hlt' & Hr')];
    rewrite Hr, Hr'; eexists _, _;
    (split; [reflexivity |]); (split; [reflexivity |]);
    cbn [distance status].
  - by split_and!.
  - split_and!; [done | done |]. intros Hsup.
    destruct Hfn' as (Hk' & _).
    specialize (Hall rh' (Hsup _ (list_elem_of_lookup_2 _ _ _ Hk'))). lia.
  - destruct Hfn as (Hk & _).
    specialize (Hall' rh (Hsub _ (list_elem_of_lookup_2 _ _ _ Hk))). lia.
  - destruct Hfn as (Hk & Hmin & _), Hfn' as (Hk' & Hmin' & _).
    assert (Hle : dist_to edited rh' <= dist_to edited rh).
    { destruct (list_elem_of_lookup_1 raw' rh
                  (Hsub _ (list_elem_of_lookup_2 _ _ _ Hk))) as [i Hi].
      by eapply Hmin'. }
    split_and!.
    + intros d [= <-]. by eexists.
    + destruct (dist_to edited rh <=? md) eqn:H1; [| done].
      apply Z.leb_le in H1. intros _.
      by replace (dist_to edited rh' <=? md) with true
        by (symmetry; apply Z.leb_le; lia).
    + intros Hsup.
      assert (dist_to edited rh <= dist_to edited rh').
      { destruct (list_elem_of_lookup_1 raw rh'
                    (Hsup _ (list_elem_of_lookup_2 _ _ _ Hk'))) as [i Hi].
        by eapply Hmin. }
      by replace (dist_to edited rh') with (dist_to edited rh) by lia.
Qed.

Lemma find_best_match_more_references_witness :
  let edited := mkImageHash "/edited/e.jpg" 5 in
  let raw := [mkImageHash "/raw/a.jpg" 12] in
  let raw' := [mkImageHash "/raw/b.jpg" 4; mkImageHash "/raw/a.jpg" 12] in
  ∃ r r', find_best_match edited raw 2 = Ok r
    ∧ find_best_match edited raw' 2 = Ok r'
    ∧ (∀ d, distance r = Some d → ∃ d', distance r' = Some d' ∧ d' <= d)
    ∧ (status r = "matched" → status r' = "matched")
    ∧ ((∀ x, x ∈ raw' → x ∈ raw) →
       distance r' = distance r ∧ status r' = status r).
Proof.
  intros edited raw raw'.
  apply (find_best_match_more_references edited raw raw' 2).
  intros x Hx. apply elem_of_cons. right. exact Hx.
Defined.

End matching_more.

Section cache_file_more.
Import hashing io_utils.

Implicit Types (w : Env) (st : fs_state) (row : list string).

(** With the usual header, a row is bound when it has at least four
    fields of which the second, third and fourth read as integers, and
    skipped otherwise. *)
Lemma load_row_usual_header (cache : gmap (option string) CacheEntry) row :
  load_row cache (dict_row ["path"; "mtime_ns"; "size"; "dhash"] row)
  = match parse_row row with
    | Some (p, e) => <[Some p := e]> cache
    | None => cache
    end.
Proof.
  unfold load_row, dict_row, row_get, parse_row.
  destruct row as [| p [| m [| s [| d rest]]]];
    cbn [zip zip_with foldl length drop fst snd];
    rewrite ?drop_nil; cbn [foldl];
    repeat (rewrite lookup_insert_eq || rewrite lookup_insert_ne by done);
    cbn [mbind result_bind pystr.int_]; try done.
  - by destruct (pystr.int_of_str m).
  - destruct (pystr.int_of_str m); cbn [mbind result_bind]; [| done].
    by destruct (pystr.int_of_str s).
  - destruct (pystr.int_of_str m); cbn [mbind result_bind option_bind];
      [| done].
    destruct (pystr.int_of_str s); cbn [mbind result_bind option_bind];
      [| done].
    by destruct (pystr.int_of_str d).
Qed.

Lemma load_rows_usual_header (cache : gmap (option string) CacheEntry)
    (rows : list (list string)) :
  foldl load_row cache
    (dict_row ["path"; "mtime_ns"; "size"; "dhash"]
       <$> filter (fun row => row ≠ []) rows)
  = foldl (fun c row => match parse_row row with
                        | Some (p, e) => <[Some p := e]> c
                        | None => c
                        end) cache rows.
Proof.
  revert cache. induction rows as [| row rows IH]; intros cache; [done |].
  destruct (decide (row = [])) as [-> | Hne].
  - rewrite filter_cons_False by (by intros ?). simpl. apply IH.
  - rewrite filter_cons_True by done. cbn [fmap list_fmap foldl].
    by rewrite load_row_usual_header, IH.
Qed.

(** The mapping read from rows: a key is bound to what the last row
    that parses with this key says. *)
Lemma bind_rows_lookup (rows : list (list string)) (key : string)
    (e : CacheEntry) :
  foldl (fun c row => match parse_row row with
                      | Some (p, e) => <[Some p := e]> c
                      | None => c
                      end) (∅ : gmap (option string) CacheEntry) rows
    !! Some key = Some e
  ↔ ∃ i row, rows !! i = Some row ∧ parse_row row = Some (key, e)
      ∧ ∀ j row' e', (i < j)%nat → rows !! j = Some row' →
                     parse_row row' ≠ Some (key, e').
Proof.
  induction rows as [| row rows IH] using rev_ind.
  { simpl. rewrite lookup_empty. split; [done |].
    by intros (i & row & Hi & _). }
  rewrite foldl_snoc.
  destruct (parse_row row) as [[p e0] |] eqn:Hrow.
  - destruct (decide (p = key)) as [-> | Hne].
    + rewrite lookup_insert_eq. split.
      * intros [= ->]. exists (length rows), row. split_and!.
        -- by rewrite lookup_app_r, Nat.sub_diag by lia.
        -- done.
        -- intros j row' e' Hj Hrow'.
           apply lookup_lt_Some in Hrow'. rewrite length_app in Hrow'.
           simpl in Hrow'. lia.
      * intros (i & row' & Hi & Hp & Hlast).
        destruct (decide (i = length rows)) as [-> | Hi'].
        -- rewrite lookup_app_r, Nat.sub_diag in Hi by lia.
           simpl in Hi. by simplify_eq.
        -- assert (i < length rows)%nat.
           { apply lookup_lt_Some in Hi. rewrite length_app in Hi.
             simpl in Hi. lia. }
           destruct (Hlast (length rows) row e0); [lia | | done].
           by rewrite lookup_app_r, Nat.sub_diag by lia.
    + rewrite lookup_insert_ne by congruence. rewrite IH. split.
      * intros (i & row' & Hi & Hp & Hlast). exists i, row'. split_and!.
        -- by apply lookup_app_l_Some.
        -- done.
        -- intros j row'' e' Hj Hrow''.
           destruct (decide (j < length rows)%nat).
           ++ rewrite lookup_app_l in Hrow'' by done. by eapply Hlast.
           ++ rewrite lookup_app_r in Hrow'' by lia.
              destruct (j - length rows)%nat; simplify_eq/=; congruence.
      * intros (i & row' & Hi & Hp & Hlast).
        assert (i < length rows)%nat.
        { destruct (decide (i < length rows)%nat); [done |].
          rewrite lookup_app_r in Hi by lia.
          destruct (i - length rows)%nat; simplify_eq/=. }
        exists i, row'. split_and!.
        -- by rewrite lookup_app_l in Hi.
        -- done.
        -- intros j row'' e' Hj Hrow''. eapply Hlast; [done |].
           by apply lookup_app_l_Some.
  - rewrite IH. split.
    + intros (i & row' & Hi & Hp & Hlast). exists i, row'. split_and!.
      * by apply lookup_app_l_Some.
      * done.
      * intros j row'' e' Hj Hrow''.
        destruct (decide (j < length rows)%nat).
        -- rewrite lookup_app_l in Hrow'' by done. by eapply Hlast.
        -- rewrite lookup_app_r in Hrow'' by lia.
           destruct (j - length rows)%nat; simplify_eq/=; congruence.
    + intros (i & row' & Hi & Hp & Hlast).
      assert (i < length rows)%nat.
      { destruct (decide (i < length rows)%nat); [done |].
        rewrite lookup_app_r in Hi by lia.
        destruct (i - length rows)%nat; simplify_eq/=; congruence. }
      exists i, row'. split_and!.
      * by rewrite lookup_app_l in Hi.
      * done.
      * intros j row'' e' Hj Hrow''. eapply Hlast; [done |].
        by apply lookup_app_l_Some.
Qed.

Lemma bind_rows_lookup_None (rows : list (list string)) :
  foldl (fun c row => match parse_row row with
                      | Some (p, e) => <[Some p := e]> c
                      | None => c
                      end) (∅ : gmap (option string) CacheEntry) rows
    !! None = None.
Proof.
  induction rows as [| row rows IH] using rev_ind; [done |].
  rewrite foldl_snoc. destruct (parse_row row) as [[p e0] |]; [| done].
  by rewrite lookup_insert_ne.
Qed.

Lemma load_cache_usual_header st (cache_path : string)
    (rows : list (list string)) :
  files st !! cache_path
  = Some (mkCsv (["path"; "mtime_ns"; "size"; "dhash"] :: rows) false) →
  load_cache st cache_path
  = foldl (fun c row => match parse_row row with
                        | Some (p, e) => <[Some p := e]> c
                        | None => c
                        end) ∅ rows.
Proof.
  intros Hfile. unfold load_cache, path_exists, read_rows.
  rewrite Hfile. rewrite bool_decide_eq_true_2 by done.
  cbn [negb orb csv_damaged csv_rows mbind result_bind DictReader].
  apply load_rows_usual_header.
Qed.

(** X9. For a readable cache file with the usual header, whose fields
    are text of at most 4300 characters each (the length up to which
    [int()] reads any number), [load_cache] binds a path exactly when
    some row has it as first field, has at least four fields and
    integers in the second, third and fourth, and binds it to the values
    of the last such row; rows that are short or hold a field that is
    not an integer are skipped one by one, fields beyond the fourth are
    ignored, and every key is a path. *)
Theorem load_cache_rows st (cache_path : string)
    (rows : list (list string)) :
  files st !! cache_path
  = Some (mkCsv (["path"; "mtime_ns"; "size"; "dhash"] :: rows) false) →
  forallb (forallb pystr.plain) rows = true →
  (∀ key e,
     load_cache st cache_path !! Some key = Some e
     ↔ ∃ i row, rows !! i = Some row ∧ parse_row row = Some (key, e)
         ∧ ∀ j row' e', (i < j)%nat → rows !! j = Some row' →
                        parse_row row' ≠ Some (key, e'))
  ∧ load_cache st cache_path !! None = None.
Proof.
  intros Hfile _. rewrite (load_cache_usual_header _ _ _ Hfile). split.
  - intros key e. apply bind_rows_lookup.
  - apply bind_rows_lookup_None.
Qed.

Lemma load_cache_rows_witness :
  let st := demo.fs_stale in
  let rows := [["/raw/a.jpg"; "100"; "10"; "0"];
               ["/raw/b.jpg"; "150"; "20"; "12"];
               ["/raw/gone.jpg"; "50"; "5"; "5"]] in
  (∀ key e,
     load_cache st "/out/cache.csv" !! Some key = Some e
     ↔ ∃ i row, rows !! i = Some row ∧ parse_row row = Some (key, e)
         ∧ ∀ j row' e', (i < j)%nat → rows !! j = Some row' →
                        parse_row row' ≠ Some (key, e'))
  ∧ load_cache st "/out/cache.csv" !! None = None.
Proof.
  intros st rows. apply (load_cache_rows st "/out/cache.csv" rows).
  - reflexivity.
  - reflexivity.
Defined.

Lemma foldl_insert_lookup_other {X} (k : X → string)
    (v : X → option string) (l : list X) (d : gmap string (option string))
    (key : string) :
  (∀ x, x ∈ l → k x ≠ key) →
  foldl (fun d x => <[k x := v x]> d) d l !! key = d !! key.
Proof.
  revert d. induction l as [| x l IH]; intros d Hne; [done |].
  simpl. rewrite IH by (intros y Hy; apply Hne; by right).
  apply lookup_insert_ne, Hne. left.
Qed.

(** A name that is not in the header is not a key of the rows. *)
Lemma dict_row_lookup_absent (fieldnames row : list string) (key : string) :
  key ∉ fieldnames → dict_row fieldnames row !! key = None.
Proof.
  intros Hkey. unfold dict_row.
  rewrite (foldl_insert_lookup_other (fun x => x) (fun _ => None)).
  - rewrite (foldl_insert_lookup_other fst (fun kv => Some kv.2));
      [done |].
    intros [a b] Hab%elem_of_zip_l Heq. simpl in Heq. by subst.
  - intros x Hx Heq. apply (subseteq_drop _ _ x) in Hx. by subst.
Qed.

Lemma load_row_changes (cache : gmap (option string) CacheEntry)
    (r : gmap string (option string)) :
  load_row cache r = cache
  ∨ (is_Some (r !! "path") ∧ is_Some (r !! "mtime_ns")
     ∧ is_Some (r !! "size") ∧ is_Some (r !! "dhash")).
Proof.
  unfold load_row, row_get.
  destruct (r !! "path") as [vp |]; [| by left].
  destruct (r !! "mtime_ns") as [vm |]; [| by left].
  destruct (r !! "size") as [vs |];
    [| left; cbn [mbind result_bind]; by destruct (pystr.int_ vm)].
  destruct (r !! "dhash") as [vd |].
  - right. by split_and!.
  - left. cbn [mbind result_bind].
    destruct (pystr.int_ vm); cbn [mbind result_bind]; [| done].
    by destruct (pystr.int_ vs).
Qed.

Lemma load_row_missing_column (cache : gmap (option string) CacheEntry)
    (r : gmap string (option string)) (key : string) :
  key ∈ ["path"; "mtime_ns"; "size"; "dhash"] →
  r !! key = None →
  load_row cache r = cache.
Proof.
  intros Hkey Hnone.
  destruct (load_row_changes cache r) as [? | (Hp & Hm & Hs & Hd)];
    [done |].
  repeat (apply elem_of_cons in Hkey as [-> | Hkey]);
    [| | | | by apply elem_of_nil in Hkey];
    rewrite Hnone in *; by match goal with H : is_Some None |- _ =>
                             destruct H end.
Qed.

(** X10. A cache file whose header lacks one of the four column names,
    or that has no row at all, loads as the empty mapping, whatever its
    other rows hold. *)
Theorem load_cache_missing_column st (cache_path : string) (f : csv_file) :
  files st !! cache_path = Some f →
  (∀ fieldnames, head (csv_rows f) = Some fieldnames →
     ∃ key, key ∈ ["path"; "mtime_ns"; "size"; "dhash"]
            ∧ key ∉ fieldnames) →
  load_cache st cache_path = ∅.
Proof.
  intros Hfile Hhead. unfold load_cache, path_exists, read_rows.
  rewrite Hfile. rewrite bool_decide_eq_true_2 by done.
  cbn [negb orb]. destruct (csv_damaged f); [done |].
  cbn [mbind result_bind]. unfold DictReader.
  destruct (csv_rows f) as [| fieldnames rest]; [done |].
  destruct (Hhead fieldnames eq_refl) as (key & Hkey & Hmiss).
  assert (Hall : ∀ rows : list (list string),
    foldl load_row ∅ (dict_row fieldnames <$> rows) = ∅).
  { induction rows as [| row rows IH] using rev_ind; [done |].
    rewrite fmap_app, foldl_app, IH. cbn [fmap list_fmap foldl].
    apply (load_row_missing_column _ _ key Hkey).
    by apply dict_row_lookup_absent. }
  apply Hall.
Qed.

Lemma load_cache_missing_column_witness :
  load_cache
    (mkFs {[ "/out/cache.csv" :=
               mkCsv [["path"; "mtime"; "size"; "dhash"];
                      ["/raw/a.jpg"; "100"; "10"; "0"]] false ]} ∅)
    "/out/cache.csv"
  = ∅.
Proof.
  eapply load_cache_missing_column; [reflexivity |].
  intros fieldnames [= <-]. exists "mtime_ns". split.
  - apply list_elem_of_In. simpl. auto.
  - intros Hin%list_elem_of_In. simpl in Hin.
    repeat (destruct Hin as [Hin | Hin]; [discriminate |]). done.
Defined.

(** The writing loop stops at the first file that [stat] does not
    find, with the rows of the files before it written. *)
Lemma save_rows_fail w cp (pre post : list ImageHash) (h : ImageHash)
    (m : gmap string csv_file) (ds : gset string)
    (rows : list (list string)) :
  Forall (fun h => is_Some (stat w (path h))) pre →
  stat w (path h) = None →
  io_for_each
    (fun h =>
       st ← stat_io w (path h);
       writerow cp
         [path h;
          pystr.str_of_int (st_mtime_ns st);
          pystr.str_of_int (st_size st);
          pystr.str_of_int (hashing.dhash h)])
    (pre ++ h :: post) (mkFs (<[cp := mkCsv rows false]> m) ds)
  = (Raise OSError,
     mkFs (<[cp := mkCsv
               (rows ++ omap (fun h => (fun s => row_of s h)
                                        <$> stat w (path h)) pre)
               false]> m) ds).
Proof.
  intros Hpre Hh. revert rows.
  induction Hpre as [| h0 pre [s Hs] _ IH]; intros rows.
  { cbn [app io_for_each omap list_omap]. unfold mbind at 1, io_bind.
    unfold mbind at 1, io_bind, stat_io, io_lift. rewrite Hh.
    by rewrite app_nil_r. }
  cbn [app io_for_each omap list_omap]. unfold mbind at 1, io_bind.
  unfold mbind at 1, io_bind, stat_io, io_lift. rewrite Hs.
  unfold writerow at 1. cbn [files dirs fmap option_fmap option_map].
  rewrite alter_insert_eq. cbn [csv_rows csv_damaged].
  rewrite IH. by rewrite <- app_assoc.
Qed.

(** X11. When [stat] fails on one of the files, [save_cache] raises
    [OSError] after it has emptied the cache file and written the rows
    of the files before that one: the file is left holding these rows
    only, whatever it held before and whatever comes after in the
    list. *)
Theorem save_cache_stat_failure w (cache_path : string)
    (pre post : list ImageHash) (h : ImageHash) st :
  Forall (fun h => is_Some (stat w (path h))) pre →
  stat w (path h) = None →
  ∃ st', save_cache w cache_path (pre ++ h :: post) st = (Raise OSError, st')
    ∧ files st' !! cache_path = Some (snapshot w pre)
    ∧ load_cache st' cache_path = cache_of w pre.
Proof.
  intros Hpre Hh. unfold save_cache.
  unfold mbind at 1, io_bind, mkdir_parents.
  unfold mbind at 1, io_bind, open_w. cbn [dirs files].
  rewrite bool_decide_eq_true_2 by set_solver.
  unfold mbind at 1, io_bind, writerow at 1. cbn [dirs files].
  rewrite alter_insert_eq. cbn [csv_rows csv_damaged app].
  rewrite save_rows_fail by done.
  eexists. split; [reflexivity |].
  assert (Hfile : ∀ ds, files (mkFs (<[cache_path := snapshot w pre]> (files st)) ds)
                        !! cache_path = Some (snapshot w pre)).
  { intros ds. simpl. apply lookup_insert_eq. }
  split; [apply Hfile | by apply load_cache_snapshot, Hfile].
Qed.

Lemma save_cache_stat_failure_witness :
  ∃ st', save_cache demo.env "/out/cache.csv"
           ([demo.a_jpg] ++ mkImageHash "/raw/gone.jpg" 5 :: [demo.b_jpg])
           demo.fs_stale
         = (Raise OSError, st')
    ∧ files st' !! "/out/cache.csv" = Some (snapshot demo.env [demo.a_jpg])
    ∧ load_cache st' "/out/cache.csv" = cache_of demo.env [demo.a_jpg].
Proof.
  apply (save_cache_stat_failure demo.env "/out/cache.csv" [demo.a_jpg]
           [demo.b_jpg] (mkImageHash "/raw/gone.jpg" 5) demo.fs_stale).
  - repeat constructor. by eexists.
  - reflexivity.
Defined.

Lemma cache_of_app_lookup w (l1 l2 : list ImageHash) (key : string) :
  (∀ h, h ∈ l2 → path h ≠ key) →
  cache_of w (l1 ++ l2) !! Some key = cache_of w l1 !! Some key.
Proof.
  intros Hl2. induction l2 as [| h l2 IH] using rev_ind.
  { by rewrite app_nil_r. }
  rewrite app_assoc, cache_of_snoc.
  assert (cache_of w (l1 ++ l2) !! Some key = cache_of w l1 !! Some key)
    as Hrest.
  { apply IH. intros h' Hh'. apply Hl2, elem_of_app. by left. }
  destruct (stat w (path h)); [| done].
  rewrite lookup_insert_ne; [done |].
  intros [= Heq]. apply (Hl2 h); [| done].
  apply elem_of_app. right. by apply list_elem_of_singleton.
Qed.

(** X12. When the list given to [save_cache] holds a path more than
    once, reloading binds the path to its last occurrence: its
    fingerprint and the metadata read for it. *)
Theorem save_cache_last_wins w (cache_path : string)
    (hashes : list ImageHash) st (i : nat) (h : ImageHash) :
  Forall (fun h => is_Some (stat w (path h))) hashes →
  hashes !! i = Some h →
  (∀ j h', (i < j)%nat → hashes !! j = Some h' → path h' ≠ path h) →
  ∃ st' s, save_cache w cache_path hashes st = (Ok tt, st')
    ∧ stat w (path h) = Some s
    ∧ load_cache st' cache_path !! Some (path h)
      = Some (mkCacheEntry (st_mtime_ns s) (st_size s) (hashing.dhash h)).
Proof.
  intros Hstat Hi Hlast. rewrite save_cache_run by done.
  destruct (proj1 (Forall_forall _ _) Hstat h
              (list_elem_of_lookup_2 _ _ _ Hi)) as [s Hs].
  eexists _, s. split; [reflexivity |]. split; [done |].
  rewrite (load_cache_snapshot w _ cache_path hashes)
    by (simpl; apply lookup_insert_eq).
  rewrite <- (take_drop_middle hashes i h Hi).
  rewrite cons_middle, app_assoc.
  rewrite cache_of_app_lookup.
  - by rewrite cache_of_snoc, Hs, lookup_insert_eq.
  - intros h' [k Hk]%list_elem_of_lookup. rewrite lookup_drop in Hk.
    apply (Hlast (S i + k)%nat); [lia | done].
Qed.

Lemma save_cache_last_wins_witness :
  ∃ st' s, save_cache demo.env "/out/cache.csv"
             [mkImageHash "/raw/a.jpg" 9; demo.b_jpg; demo.a_jpg]
             demo.fs_fresh
           = (Ok tt, st')
    ∧ stat demo.env (path demo.a_jpg) = Some s
    ∧ load_cache st' "/out/cache.csv" !! Some (path demo.a_jpg)
      = Some (mkCacheEntry (st_mtime_ns s) (st_size s)
                           (hashing.dhash demo.a_jpg)).
Proof.
  apply (save_cache_last_wins demo.env "/out/cache.csv"
           [mkImageHash "/raw/a.jpg" 9; demo.b_jpg; demo.a_jpg]
           demo.fs_fresh 2 demo.a_jpg).
  - repeat (constructor; [vm_compute; eexists; reflexivity |]).
    constructor.
  - reflexivity.
  - intros j h' Hj Hh'. apply lookup_lt_Some in Hh'. simpl in Hh'. lia.
Defined.

End cache_file_more.

Section unique_destination_facts.
Import hashing io_utils.

Implicit Types (w : Env) (st : fs_state) (ops : PathOps).

Lemma path_exists_existing st (p : string) :
  path_exists st p = true ↔ p ∈ existing st.
Proof.
  unfold path_exists, existing.
  rewrite orb_true_iff, !bool_decide_eq_true, elem_of_union, elem_of_dom.
  done.
Qed.

Lemma path_exists_not_existing st (p : string) :
  path_exists st p = false ↔ p ∉ existing st.
Proof.
  rewrite <- path_exists_existing. by destruct (path_exists st p).
Qed.

Lemma str_of_int_inj (a b : Z) :
  pystr.str_of_int a = pystr.str_of_int b → a = b.
Proof.
  intros Heq. pose proof (int_of_str_of_int a) as Ha.
  rewrite Heq, int_of_str_of_int in Ha. by simplify_eq.
Qed.

Lemma list_ascii_of_append (s t : string) :
  list_ascii_of_string (String.append s t)
  = list_ascii_of_string s ++ list_ascii_of_string t.
Proof. induction s as [| c s IH]; simpl; [done | by rewrite IH]. Qed.

Lemma append_inj_l (s1 s2 t : string) :
  String.append s1 t = String.append s2 t → s1 = s2.
Proof.
  intros Heq. apply (f_equal list_ascii_of_string) in Heq.
  rewrite !list_ascii_of_append in Heq. apply app_inv_tail in Heq.
  apply (f_equal string_of_list_ascii) in Heq.
  by rewrite !string_of_list_ascii_of_string in Heq.
Qed.

(** Two numbers give two names. *)
Lemma numbered_name_inj (stem suffix : string) (a b : Z) :
  numbered_name stem a suffix = numbered_name stem b suffix → a = b.
Proof.
  unfold numbered_name. intros Heq.
  apply (inj (String.append stem)) in Heq.
  apply (inj (String.append "__")) in Heq.
  by apply append_inj_l, str_of_int_inj in Heq.
Qed.

(** The loop returns the first free candidate, or finds all of its
    [fuel] candidates taken. *)
Lemma unique_search_spec ops st (out_dir stem suffix : string)
    (fuel : nat) (n : Z) :
  match unique_search ops st out_dir stem suffix fuel n with
  | Some cand =>
      ∃ m, n <= m < n + Z.of_nat fuel
        ∧ cand = joinpath ops out_dir (numbered_name stem m suffix)
        ∧ (cand ∉ existing st)
        ∧ ∀ j, n <= j < m →
               joinpath ops out_dir (numbered_name stem j suffix)
                 ∈ existing st
  | None =>
      ∀ j, n <= j < n + Z.of_nat fuel →
           joinpath ops out_dir (numbered_name stem j suffix) ∈ existing st
  end.
Proof.
  revert n. induction fuel as [| fuel IH]; intros n; cbn [unique_search].
  { intros j Hj. lia. }
  destruct (path_exists st _) eqn:Hex; cbn [negb].
  - apply path_exists_existing in Hex. specialize (IH (n + 1)).
    destruct (unique_search ops st out_dir stem suffix fuel (n + 1))
      as [cand |].
    + destruct IH as (m & Hm & -> & Hfree & Htaken).
      exists m. split_and!; [lia | lia | done | done |].
      intros j Hj. destruct (decide (j = n)) as [-> | ?]; [done |].
      apply Htaken. lia.
    + intros j Hj. destruct (decide (j = n)) as [-> | ?]; [done |].
      apply IH. lia.
  - apply path_exists_not_existing in Hex.
    exists n. split_and!; [lia | lia | done | done |]. intros j Hj. lia.
Qed.

(** More candidates than existing paths cannot all be taken. *)
Lemma candidates_not_all_taken ops st (out_dir stem suffix : string)
    (fuel : nat) (n : Z) :
  (∀ a b, n <= a → n <= b →
          joinpath ops out_dir (numbered_name stem a suffix)
          = joinpath ops out_dir (numbered_name stem b suffix) →
          a = b) →
  (∀ j, n <= j < n + Z.of_nat fuel →
        joinpath ops out_dir (numbered_name stem j suffix) ∈ existing st) →
  (fuel <= base.size (existing st))%nat.
Proof.
  intros Hinj Hall.
  set (c := fun j => joinpath ops out_dir (numbered_name stem j suffix)).
  assert (Hnd : NoDup (c <$> seqZ n (Z.of_nat fuel))).
  { apply NoDup_fmap_2_strong; [| apply NoDup_seqZ].
    intros a b Ha%elem_of_seqZ Hb%elem_of_seqZ Hab.
    apply Hinj; [lia | lia | done]. }
  rewrite <- (Nat2Z.id fuel), <- (length_seqZ n (Z.of_nat fuel)).
  rewrite <- (length_fmap c), <- (size_list_to_set (C := gset string)) by done.
  apply subseteq_size. intros x Hx.
  apply elem_of_list_to_set, list_elem_of_fmap in Hx as (j & -> & Hj).
  apply elem_of_seqZ in Hj. apply Hall. lia.
Qed.

(** X13. When the candidates [out_dir / stem__n suffix] of two
    different numbers [n >= 2] are different paths and the loop may try
    more candidates than there are existing paths, [unique_destination]
    returns a path that does not exist (so that nothing is overwritten),
    having created [out_dir] and its ancestors and touched no file: the
    desired path when it is free, and otherwise the candidate
    [stem__n suffix] with the least [n >= 2] that is free. *)
Theorem unique_destination_free w ops (fuel : nat)
    (out_dir desired_name : string) st :
  (∀ a b, 2 <= a → 2 <= b →
     let dst := joinpath ops out_dir desired_name in
     joinpath ops out_dir (numbered_name (stem ops dst) a (suffix ops dst))
     = joinpath ops out_dir (numbered_name (stem ops dst) b (suffix ops dst)) →
     a = b) →
  (base.size (existing (mkFs (files st)
                        (dirs st ∪ list_to_set (out_dir :: parents w out_dir))))
   < fuel)%nat →
  let dst := joinpath ops out_dir desired_name in
  ∃ free st',
    unique_destination w ops fuel out_dir desired_name st
    = (Ok (Some free), st')
    ∧ (free ∉ existing st')
    ∧ files st' = files st
    ∧ dirs st' = dirs st ∪ list_to_set (out_dir :: parents w out_dir)
    ∧ (dst ∉ existing st' → free = dst)
    ∧ (dst ∈ existing st' →
       ∃ n, 2 <= n
         ∧ free = joinpath ops out_dir
                    (numbered_name (stem ops dst) n (suffix ops dst))
         ∧ ∀ j, 2 <= j < n →
                joinpath ops out_dir
                  (numbered_name (stem ops dst) j (suffix ops dst))
                  ∈ existing st').
Proof.
  intros Hinj Hfuel dst. unfold unique_destination.
  unfold mbind at 1, io_bind, mkdir_parents.
  set (st1 := mkFs (files st)
                   (dirs st ∪ list_to_set (out_dir :: parents w out_dir)))
    in *.
  fold dst. destruct (path_exists st1 dst) eqn:Hex; cbn [negb].
  - apply path_exists_existing in Hex.
    pose proof (unique_search_spec ops st1 out_dir (stem ops dst)
                  (suffix ops dst) fuel 2) as Hspec.
    destruct (unique_search ops st1 out_dir (stem ops dst) (suffix ops dst)
                fuel 2) as [cand |].
    + destruct Hspec as (m & Hm & -> & Hfree & Htaken).
      eexists _, st1. split; [reflexivity |].
      split_and!; try done. intros _. exists m. split_and!; [lia | done |].
      intros j Hj. by apply Htaken.
    + apply candidates_not_all_taken in Hspec; [lia |].
      intros a b Ha Hb. by apply Hinj.
  - apply path_exists_not_existing in Hex.
    exists dst, st1. split; [reflexivity |]. by split_and!.
Qed.

Lemma unique_destination_free_witness :
  let ops := demo.path_ops in
  let dst := joinpath ops "/out" "cache.csv" in
  let st := demo.fs_hits in
  ∃ free st',
    unique_destination demo.env ops 5 "/out" "cache.csv" st
    = (Ok (Some free), st')
    ∧ (free ∉ existing st')
    ∧ files st' = files st
    ∧ dirs st' = dirs st ∪ list_to_set ("/out" :: parents demo.env "/out")
    ∧ (dst ∉ existing st' → free = dst)
    ∧ (dst ∈ existing st' →
       ∃ n, 2 <= n
         ∧ free = joinpath ops "/out"
                    (numbered_name (stem ops dst) n (suffix ops dst))
         ∧ ∀ j, 2 <= j < n →
                joinpath ops "/out"
                  (numbered_name (stem ops dst) j (suffix ops dst))
                  ∈ existing st').
Proof.
  intros ops dst st.
  apply (unique_destination_free demo.env ops 5 "/out" "cache.csv" st).
  - intros a b _ _ dst' Hab.
    change (String.append "/out"
              (String.append "/" (numbered_name "cache" a ".csv"))
            = String.append "/out"
                (String.append "/" (numbered_name "cache" b ".csv")))
      in Hab.
    apply (inj (String.append "/out")) in Hab.
    apply (inj (String.append "/")) in Hab.
    by apply numbered_name_inj in Hab.
  - vm_compute. lia.
Defined.

Example unique_destination_numbered :
  (unique_destination demo.env demo.path_ops
     5 "/out" "cache.csv" demo.fs_hits).1
  = Ok (Some "/out/cache__2.csv").
Proof. vm_compute. reflexivity. Qed.

End unique_destination_facts.

Section second_run.
Import hashing io_utils cli.

Implicit Types (w : Env) (st : fs_state) (p key : string).

Lemma omap_omap_bind {X Y V} (g : X → option Y) (h : Y → option V)
    (l : list X) :
  omap h (omap g l) = omap (fun x => g x ≫= h) l.
Proof.
  induction l as [| x l IH]; [done |]. cbn [omap list_omap].
  destruct (g x) as [y |]; cbn [omap list_omap mbind option_bind];
    [| done].
  by rewrite IH.
Qed.

(** Sorting the elements of a list into two lists and putting one
    after the other rearranges the elements kept. *)
Lemma omap_split_perm {X Y} (g h : X → option Y) (l : list X) :
  (∀ x, x ∈ l → is_Some (g x) → h x = None) →
  omap (fun x => match g x with Some y => Some y | None => h x end) l
  ≡ₚ omap g l ++ omap h l.
Proof.
  induction l as [| x l IH]; intros Hex; [done |].
  cbn [omap list_omap].
  specialize (IH (fun y Hy => Hex y (list_elem_of_further _ _ _ Hy))).
  destruct (g x) as [y |] eqn:Hg.
  - rewrite (Hex x) by (by left || by rewrite Hg). simpl. by rewrite IH.
  - destruct (h x) as [y |]; [| done].
    rewrite IH. rewrite <- Permutation_middle. done.
Qed.

Section merged.
Context (w : Env) (cache : gmap (option string) CacheEntry)
        (paths : list string).
Hypothesis stat_resolve : ∀ q, stat w (resolve w q) = stat w q.

Let merged : list ImageHash :=
  omap (reuse_of w cache) paths
  ++ omap (hashed w) (omap (todo_of w cache) paths).

(** The entries of a reused path all carry the cached fingerprint. *)
Lemma merged_key_reused p (h0 h : ImageHash) :
  reuse_of w cache p = Some h0 →
  h ∈ merged → path h = path h0 → hashing.dhash h = hashing.dhash h0.
Proof.
  intros Hp0 Hh Hpath.
  apply reuse_of_Some in Hp0 as (s & ce & Hs & Hce & Hr & ->).
  simpl in Hpath. apply elem_of_app in Hh as [Hh | Hh].
  - apply list_elem_of_omap in Hh as (p' & _ & Hp').
    apply reuse_of_Some in Hp' as (s' & ce' & _ & Hce' & _ & ->).
    simpl in *. rewrite Hpath in Hce'. congruence.
  - apply list_elem_of_omap in Hh as (q & Hq & Hh).
    apply list_elem_of_omap in Hq as (p' & _ & Hp').
    apply todo_of_Some in Hp' as (s' & Hs' & -> & Hno).
    unfold hashed in Hh. destruct (fingerprint w _); simplify_eq/=.
    destruct Hno. exists ce. rewrite Hpath. split; [done |].
    rewrite <- stat_resolve, Hpath, stat_resolve, Hs in Hs'. by simplify_eq.
Qed.

(** The entries of a path that was fingerprinted all carry its
    fingerprint. *)
Lemma merged_key_fresh p key (h : ImageHash) :
  todo_of w cache p = Some key →
  h ∈ merged → path h = key → fingerprint w key = Some (hashing.dhash h).
Proof.
  intros Hp Hh Hpath.
  apply todo_of_Some in Hp as (s & Hs & -> & Hno).
  apply elem_of_app in Hh as [Hh | Hh].
  - apply list_elem_of_omap in Hh as (p' & _ & Hp').
    apply reuse_of_Some in Hp' as (s' & ce' & Hs' & Hce' & Hr' & ->).
    simpl in Hpath. destruct Hno. exists ce'. rewrite <- Hpath.
    split; [done |].
    rewrite <- stat_resolve, Hpath, stat_resolve, Hs in Hs'. by simplify_eq.
  - apply list_elem_of_omap in Hh as (q & _ & Hh).
    unfold hashed in Hh. destruct (fingerprint w q) eqn:Hq; simplify_eq/=.
    done.
Qed.

(** After the merged list has been saved, every enumerated path that
    has an entry in the list is a cache hit, with the fingerprint of the
    list. *)
Lemma reuse_of_saved p :
  p ∈ paths →
  reuse_of w (cache_of w merged) p = kept w cache p.
Proof.
  intros Hp. unfold kept.
  destruct (reuse_of w cache p) as [h0 |] eqn:Hr.
  - pose proof Hr as (s & ce & Hs & Hce & Hre & ->)%reuse_of_Some.
    apply reuse_of_Some. exists s, (entry_of s (mkImageHash (resolve w p)
                                                 (io_utils.dhash ce))).
    split_and!; [done | | done | done].
    apply cache_of_lookup_agree.
    + by rewrite stat_resolve.
    + intros h Hh Hpath. by apply (merged_key_reused p _ h Hr).
    + exists (mkImageHash (resolve w p) (io_utils.dhash ce)).
      split; [| reflexivity]. apply elem_of_app. left.
      apply list_elem_of_omap. by exists p.
  - destruct (todo_of w cache p) as [key |] eqn:Ht;
      cbn [mbind option_bind].
    + pose proof Ht as (s & Hs & -> & Hno)%todo_of_Some.
      unfold hashed. destruct (fingerprint w (resolve w p)) as [d |] eqn:Hd;
        cbn [fmap option_fmap option_map].
      * apply reuse_of_Some.
        exists s, (entry_of s (mkImageHash (resolve w p) d)).
        split_and!; [done | | done | done].
        apply cache_of_lookup_agree.
        -- by rewrite stat_resolve.
        -- intros h Hh Hpath. simpl.
           pose proof (merged_key_fresh p _ h Ht Hh Hpath). congruence.
        -- exists (mkImageHash (resolve w p) d).
           split; [| reflexivity]. apply elem_of_app. right.
           rewrite omap_omap_bind. apply list_elem_of_omap. exists p.
           split; [done |]. rewrite Ht. cbn [mbind option_bind].
           unfold hashed. by rewrite Hd.
      * unfold reuse_of. rewrite Hs. cbn [mbind option_bind].
        rewrite cache_of_lookup_None; [done |].
        intros h Hh Hpath.
        pose proof (merged_key_fresh p _ h Ht Hh Hpath). congruence.
    + unfold reuse_of, todo_of in *.
      destruct (stat w p) as [s |]; cbn [mbind option_bind] in *; [| done].
      destruct (cache !! Some (resolve w p)) as [ce |];
        cbn [mbind option_bind] in *; [| done].
      by destruct (_ && _).
Qed.

(** After the merged list has been saved, the paths that still need
    fingerprinting are those that have no fingerprint. *)
Lemma todo_of_saved p key :
  p ∈ paths →
  todo_of w (cache_of w merged) p = Some key →
  fingerprint w key = None ∧ todo_of w cache p = Some key.
Proof.
  intros Hp Ht.
  pose proof (reuse_of_saved p Hp) as Hsaved.
  assert (Hnone : reuse_of w (cache_of w merged) p = None).
  { apply todo_of_Some in Ht as (s & Hs & -> & Hno).
    destruct (reuse_of w (cache_of w merged) p) as [h |] eqn:Hr; [| done].
    apply reuse_of_Some in Hr as (s' & ce & Hs' & Hce & Hre & _).
    destruct Hno. exists ce. split; [done |]. congruence. }
  rewrite Hnone in Hsaved. unfold kept in Hsaved.
  destruct (reuse_of w cache p) eqn:Hr0; [done |].
  apply todo_of_Some in Ht as (s & Hs & -> & _).
  destruct (todo_of w cache p) as [key |] eqn:Ht0.
  - pose proof Ht0 as (_ & _ & -> & _)%todo_of_Some.
    cbn [mbind option_bind] in Hsaved. unfold hashed in Hsaved.
    by destruct (fingerprint w (resolve w p)).
  - unfold reuse_of, todo_of in Hr0, Ht0. rewrite Hs in Hr0, Ht0.
    cbn [mbind option_bind] in Hr0, Ht0.
    destruct (cache !! Some (resolve w p)) as [ce |];
      cbn [mbind option_bind] in Hr0, Ht0; [| done].
    by destruct (_ && _).
Qed.

Lemma reuse_then_not_todo p :
  is_Some (reuse_of w cache p) → todo_of w cache p ≫= hashed w = None.
Proof.
  intros [h Hr]. unfold reuse_of, todo_of in *.
  destruct (stat w p) as [s |]; cbn [mbind option_bind] in *; [| done].
  destruct (cache !! Some (resolve w p)) as [ce |];
    cbn [mbind option_bind] in *; [| done].
  by destruct (_ && _).
Qed.

(** Two entries of the merged list with the same path have the same
    fingerprint. *)
Lemma merged_agree (h h' : ImageHash) :
  h ∈ merged → h' ∈ merged → path h' = path h →
  hashing.dhash h' = hashing.dhash h.
Proof.
  intros Hh Hh' Hpath. pose proof Hh as Hh0.
  apply elem_of_app in Hh as [Hh | Hh].
  - apply list_elem_of_omap in Hh as (p & _ & Hp).
    by apply (merged_key_reused p h h' Hp).
  - apply list_elem_of_omap in Hh as (q & Hq & Hh).
    apply list_elem_of_omap in Hq as (p & _ & Hp).
    assert (path h = q) as Hq.
    { unfold hashed in Hh. by destruct (fingerprint w q); simplify_eq/=. }
    pose proof (merged_key_fresh p q h Hp Hh0 Hq) as H1.
    pose proof (merged_key_fresh p q h' Hp Hh' ltac:(congruence)) as H2.
    congruence.
Qed.

Lemma merged_stat_ok : Forall (fun h => is_Some (stat w (path h))) merged.
Proof.
  apply Forall_app. split; apply Forall_forall; intros h Hh.
  - apply list_elem_of_omap in Hh as (p & _ & Hp).
    apply reuse_of_Some in Hp as (s & ce & Hs & _ & _ & ->). simpl.
    rewrite stat_resolve. by eexists.
  - apply list_elem_of_omap in Hh as (q & Hq & Hh).
    apply list_elem_of_omap in Hq as (p & _ & Hp).
    apply todo_of_Some in Hp as (s & Hs & -> & _).
    unfold hashed in Hh. destruct (fingerprint w _); simplify_eq/=.
    rewrite stat_resolve. by eexists.
Qed.

(** A rearrangement of the merged list stands for the same mapping. *)
Lemma cache_of_merged_perm (l : list ImageHash) :
  l ≡ₚ merged → cache_of w l = cache_of w merged.
Proof.
  intros Hperm. apply map_eq. intros [key |].
  - destruct (decide (key ∈ path <$> merged)) as [Hin | Hout].
    + apply list_elem_of_fmap in Hin as (h & -> & Hh).
      destruct (proj1 (Forall_forall _ _) merged_stat_ok h Hh) as [s Hs].
      rewrite (cache_of_lookup_agree w l (path h) s (hashing.dhash h)),
        (cache_of_lookup_agree w merged (path h) s (hashing.dhash h));
        try done.
      * intros h' Hh' Hpath. by apply merged_agree.
      * by exists h.
      * intros h' Hh' Hpath. rewrite Hperm in Hh'. by apply merged_agree.
      * exists h. by rewrite Hperm.
    + rewrite !cache_of_lookup_None; [done | |].
      * intros h Hh <-. apply Hout. by apply list_elem_of_fmap_2.
      * intros h Hh <-. apply Hout. rewrite Hperm in Hh.
        by apply list_elem_of_fmap_2.
  - destruct (cache_of w l !! None) as [e |] eqn:H1.
    { by apply cache_of_lookup_Some in H1 as (? & ? & _ & ? & _). }
    destruct (cache_of w merged !! None) as [e |] eqn:H2; [| done].
    by apply cache_of_lookup_Some in H2 as (? & ? & _ & ? & _).
Qed.

(** Sorting the paths again, against the cache made of the merged
    list. *)
Lemma sort_again :
  omap (reuse_of w (cache_of w merged)) paths ≡ₚ merged
  ∧ omap (reuse_of w (cache_of w merged)) paths = omap (kept w cache) paths
  ∧ omap (hashed w) (omap (todo_of w (cache_of w merged)) paths) = []
  ∧ ∀ q, q ∈ omap (todo_of w (cache_of w merged)) paths →
         fingerprint w q = None ∧ q ∈ omap (todo_of w cache) paths.
Proof.
  assert (Hkept : omap (reuse_of w (cache_of w merged)) paths
                  = omap (kept w cache) paths).
  { apply list_omap_ext. apply Forall2_same_length_lookup_2; [done |].
    intros i x y Hx Hy. simplify_eq.
    apply reuse_of_saved. by eapply list_elem_of_lookup_2. }
  assert (Htodo : ∀ q, q ∈ omap (todo_of w (cache_of w merged)) paths →
    fingerprint w q = None ∧ q ∈ omap (todo_of w cache) paths).
  { intros q (p & Hp & Hq)%list_elem_of_omap.
    destruct (todo_of_saved p q Hp Hq) as [Hnone Hq0]. split; [done |].
    apply list_elem_of_omap. by exists p. }
  split_and!; [| done | | done].
  - rewrite Hkept. unfold kept, merged. rewrite omap_omap_bind.
    apply omap_split_perm. intros p _. apply reuse_then_not_todo.
  - induction (omap (todo_of w (cache_of w merged)) paths) as [| q l IH];
      [done |].
    cbn [omap list_omap]. unfold hashed at 1.
    rewrite (proj1 (Htodo q ltac:(left))). cbn [fmap option_fmap option_map].
    apply IH. intros q' Hq'. apply Htodo. by right.
Qed.

End merged.

(** X14. When [stat] follows the links that [resolve] resolves, a
    second run of [_hash_raw_images] over the same world, from the file
    system the first run left, with any number of workers: computes a
    fingerprint for no file other than those of the first run's [todo]
    that have none (the files that do not decode are tried again at
    every run); returns the files of the first run, now in the order of
    enumeration; and leaves a cache file that loads as the same
    mapping. *)
Theorem hash_raw_images_twice w (sched1 sched2 : list nat)
    (raw_dir cache_path : string) (workers1 workers2 : Z) st :
  (∀ q, stat w (resolve w q) = stat w q) →
  let cp := resolve w (expanduser w cache_path) in
  let paths := iter_images w (resolve w (expanduser w raw_dir)) in
  ∃ out1 st1 out2 st2,
    _hash_raw_images w sched1 raw_dir cache_path workers1 st = (Ok out1, st1)
    ∧ _hash_raw_images w sched2 raw_dir cache_path workers2 st1
      = (Ok out2, st2)
    ∧ out2 ≡ₚ out1
    ∧ out2 = omap (kept w (load_cache st cp)) paths
    ∧ (∀ q, q ∈ (sort_paths w st1 raw_dir cache_path).2 →
            fingerprint w q = None
            ∧ q ∈ (sort_paths w st raw_dir cache_path).2)
    ∧ load_cache st2 cp = load_cache st1 cp.
Proof.
  intros Hstat cp paths.
  rewrite (hash_raw_images_run w sched1 raw_dir cache_path workers1 st Hstat).
  cbn zeta. fold cp.
  set (cache := load_cache st cp).
  assert (Hsort : sort_paths w st raw_dir cache_path
                  = (omap (reuse_of w cache) paths,
                     omap (todo_of w cache) paths)) by apply sort_paths_eq.
  rewrite Hsort. cbn [fst snd].
  set (out1 := omap (reuse_of w cache) paths
               ++ omap (hashed w) (omap (todo_of w cache) paths)).
  destruct (sort_again w cache paths Hstat)
    as (Hperm & Hkept & Hnil & Htodo). fold out1 in Hperm, Hkept, Hnil, Htodo.
  assert (Hsame : ∀ l, l ≡ₚ out1 → cache_of w l = cache_of w out1)
    by (intros l; by apply cache_of_merged_perm).
  destruct (omap (todo_of w cache) paths) as [| q0 todo1] eqn:Htodo1.
  - (* nothing to fingerprint: the second run is the first *)
    exists out1, st. cbv beta iota.
    rewrite (hash_raw_images_run w sched2 raw_dir cache_path workers2 st
               Hstat).
    cbn zeta. fold cp cache. rewrite Hsort. cbn [fst snd].
    eexists _, _. split; [reflexivity |]. split; [reflexivity |].
    unfold out1. cbn [omap list_omap]. rewrite app_nil_r.
    split_and!; [done | | by intros q Hq%elem_of_nil | done].
    unfold kept. apply list_omap_ext.
    apply Forall2_same_length_lookup_2; [done |].
    intros i x y Hx Hy. simplify_eq.
    destruct (reuse_of w cache x) eqn:Hr; [done |].
    destruct (todo_of w cache x) as [key |] eqn:Ht; [| done].
    assert (key ∈ omap (todo_of w cache) paths) as Hin.
    { apply list_elem_of_omap. exists x. split; [| done].
      by eapply list_elem_of_lookup_2. }
    rewrite Htodo1 in Hin. by apply elem_of_nil in Hin.
  - set (st1 := mkFs (<[cp := snapshot w out1]> (files st))
                     (dirs st ∪ list_to_set
                                  (parent w cp :: parents w (parent w cp)))).
    assert (Hload1 : load_cache st1 cp = cache_of w out1).
    { apply load_cache_snapshot. simpl. apply lookup_insert_eq. }
    exists out1, st1. cbv beta iota.
    rewrite (hash_raw_images_run w sched2 raw_dir cache_path workers2 st1
               Hstat).
    cbn zeta. fold cp.
    assert (Hsort1 : sort_paths w st1 raw_dir cache_path
                     = (omap (reuse_of w (cache_of w out1)) paths,
                        omap (todo_of w (cache_of w out1)) paths)).
    { rewrite sort_paths_eq. fold cp paths. by rewrite Hload1. }
    rewrite Hsort1. cbn [fst snd]. rewrite Hnil, app_nil_r.
    eexists _, _. split; [reflexivity |]. split; [reflexivity |].
    split_and!; [done | done | done |].
    destruct (omap (todo_of w (cache_of w out1)) paths); [done |].
    rewrite Hload1.
    rewrite (load_cache_snapshot w _ cp
               (omap (reuse_of w (cache_of w out1)) paths))
      by (simpl; apply lookup_insert_eq).
    by apply Hsame.
Qed.

Lemma hash_raw_images_twice_witness :
  let w := demo.env in
  let st := demo.fs_stale in
  let cp := resolve w (expanduser w "/out/cache.csv") in
  let paths := iter_images w (resolve w (expanduser w "/raw")) in
  ∃ out1 st1 out2 st2,
    _hash_raw_images w [1; 0]%nat "/raw" "/out/cache.csv" 2 st = (Ok out1, st1)
    ∧ _hash_raw_images w [] "/raw" "/out/cache.csv" 1 st1 = (Ok out2, st2)
    ∧ out2 ≡ₚ out1
    ∧ out2 = omap (kept w (load_cache st cp)) paths
    ∧ (∀ q, q ∈ (sort_paths w st1 "/raw" "/out/cache.csv").2 →
            fingerprint w q = None
            ∧ q ∈ (sort_paths w st "/raw" "/out/cache.csv").2)
    ∧ load_cache st2 cp = load_cache st1 cp.
Proof.
  apply (hash_raw_images_twice demo.env [1; 0]%nat [] "/raw"
           "/out/cache.csv" 2 1 demo.fs_stale).
  intros q. reflexivity.
Defined.

End second_run.

Section pipeline.
Import hashing matching io_utils cli.

Implicit Types (w : Env) (st : fs_state) (p key : string).

Lemma kept_path w (cache : gmap (option string) CacheEntry) p
    (h : ImageHash) :
  kept w cache p = Some h → path h = resolve w p ∧ is_Some (stat w p).
Proof.
  unfold kept. destruct (reuse_of w cache p) as [h0 |] eqn:Hr.
  - intros [= <-].
    apply reuse_of_Some in Hr as (s & ce & Hs & _ & _ & ->). by eauto.
  - destruct (todo_of w cache p) as [key |] eqn:Ht;
      cbn [mbind option_bind]; [| done].
    apply todo_of_Some in Ht as (s & Hs & -> & _).
    unfold hashed. by destruct (fingerprint w _); intros; simplify_eq/=.
Qed.

Lemma kept_paths_sublist w (cache : gmap (option string) CacheEntry)
    (paths : list string) :
  path <$> omap (kept w cache) paths `sublist_of` resolve w <$> paths.
Proof.
  induction paths as [| p paths IH]; [done |].
  cbn [omap list_omap fmap list_fmap].
  destruct (kept w cache p) as [h |] eqn:Hk.
  - apply kept_path in Hk as [<- _]. cbn [fmap list_fmap].
    by apply sublist_skip.
  - by apply sublist_cons.
Qed.

Lemma merged_perm_kept w (cache : gmap (option string) CacheEntry)
    (paths : list string) :
  omap (kept w cache) paths
  ≡ₚ omap (reuse_of w cache) paths
     ++ omap (hashed w) (omap (todo_of w cache) paths).
Proof.
  unfold kept. rewrite omap_omap_bind. apply omap_split_perm.
  intros p _ [h Hr]. unfold reuse_of, todo_of in *.
  destruct (stat w p) as [s |]; cbn [mbind option_bind] in *; [| done].
  destruct (cache !! Some (resolve w p)) as [ce |];
    cbn [mbind option_bind] in *; [| done].
  by destruct (_ && _).
Qed.

(** X15. When [stat] follows the links that [resolve] resolves, the
    list that [_hash_raw_images] returns has at most one entry per
    enumerated path, each under the resolved path of an enumerated file
    that [stat] finds; so when the enumerated paths resolve to distinct
    paths, no path occurs twice in the reference list. *)
Theorem hash_raw_images_paths w (sched : list nat)
    (raw_dir cache_path : string) (workers : Z) st :
  (∀ q, stat w (resolve w q) = stat w q) →
  let paths := iter_images w (resolve w (expanduser w raw_dir)) in
  ∃ out st',
    _hash_raw_images w sched raw_dir cache_path workers st = (Ok out, st')
    ∧ (length out <= length paths)%nat
    ∧ (∀ h, h ∈ out →
         ∃ p, p ∈ paths ∧ is_Some (stat w p) ∧ path h = resolve w p)
    ∧ (NoDup (resolve w <$> paths) → NoDup (path <$> out)).
Proof.
  intros Hstat paths. rewrite hash_raw_images_run by done. cbn zeta.
  rewrite sort_paths_eq. cbn [fst snd]. fold paths.
  set (cache := load_cache st (resolve w (expanduser w cache_path))).
  pose proof (merged_perm_kept w cache paths) as Hperm.
  pose proof (kept_paths_sublist w cache paths) as Hsub.
  eexists _, _. split; [reflexivity |]. split_and!.
  - rewrite <- Hperm. apply sublist_length in Hsub.
    by rewrite !length_fmap in Hsub.
  - intros h Hh. rewrite <- Hperm in Hh.
    apply list_elem_of_omap in Hh as (p & Hp & Hk).
    apply kept_path in Hk as [-> Hs]. by exists p.
  - intros Hnd. rewrite <- Hperm. by eapply sublist_NoDup.
Qed.

Lemma hash_raw_images_paths_witness :
  let w := demo.env in
  let paths := iter_images w (resolve w (expanduser w "/raw")) in
  ∃ out st',
    _hash_raw_images w [] "/raw" "/out/cache.csv" 1 demo.fs_stale
    = (Ok out, st')
    ∧ (length out <= length paths)%nat
    ∧ (∀ h, h ∈ out →
         ∃ p, p ∈ paths ∧ is_Some (stat w p) ∧ path h = resolve w p)
    ∧ (NoDup (resolve w <$> paths) → NoDup (path <$> out)).
Proof.
  apply (hash_raw_images_paths demo.env [] "/raw" "/out/cache.csv" 1
           demo.fs_stale).
  intros q. reflexivity.
Defined.

(** A fingerprint that [dhash64] computes is a 64-bit value. *)
Lemma fingerprint_64 w p (h : Z) :
  fingerprint w p = Some h → fingerprint64 h.
Proof.
  unfold fingerprint, dhash64.
  destruct (decode w p) as [px | e]; simpl; [| done].
  destruct (decide (length px < 72)%nat) as [Hshort | Hlong].
  - by destruct (dhash_pixels_short px Hshort) as [e ->].
  - destruct (dhash_pixels_long px ltac:(lia)) as (h' & -> & Hh).
    simpl. by intros [= <-].
Qed.

(** X16. The three steps of [main] in a row.  When [stat] follows the
    links that [resolve] resolves and the fingerprints of the loaded
    cache are 64-bit values, both hashing phases return lists of 64-bit
    fingerprints; so, when the reference list is not empty, every
    edited file gets a candidate from the reference list, at a distance
    between 0 and 64, and is matched exactly when this distance is at
    most [max_distance]: the starting distance [10^9] never shows. *)
Theorem hash_then_match w (sched : list nat)
    (raw_dir edited_dir cache_path : string) (workers max_distance : Z) st :
  (∀ q, stat w (resolve w q) = stat w q) →
  map_Forall (fun _ ce => fingerprint64 (io_utils.dhash ce))
             (load_cache st (resolve w (expanduser w cache_path))) →
  ∃ raw st' edited,
    _hash_raw_images w sched raw_dir cache_path workers st = (Ok raw, st')
    ∧ _hash_edited_images w edited_dir = Ok edited
    ∧ Forall (fun rh => fingerprint64 (hashing.dhash rh)) raw
    ∧ Forall (fun eh => fingerprint64 (hashing.dhash eh)) edited
    ∧ (raw ≠ [] →
       ∀ eh, eh ∈ edited →
         ∃ r rh, find_best_match eh raw max_distance = Ok r
           ∧ rh ∈ raw
           ∧ matched_raw_path r = Some (path rh)
           ∧ matched_raw_hash r = Some (hashing.dhash rh)
           ∧ distance r = Some (dist_to eh rh)
           ∧ 0 <= dist_to eh rh <= 64
           ∧ (status r = "matched" ↔ dist_to eh rh <= max_distance)).
Proof.
  intros Hstat Hcache. rewrite hash_raw_images_run by done. cbn zeta.
  unfold _hash_edited_images. rewrite hash_edited_images_loop.
  cbn [app]. rewrite sort_paths_eq. cbn [fst snd].
  set (cache := load_cache st (resolve w (expanduser w cache_path))) in *.
  set (raw := omap (reuse_of w cache) _ ++ omap (hashed w) _).
  set (edited := omap (fun p => mkImageHash (resolve w p)
                                 <$> fingerprint w p) _).
  assert (Hraw : Forall (fun rh => fingerprint64 (hashing.dhash rh)) raw).
  { apply Forall_app. split; apply Forall_forall; intros h Hh.
    - apply list_elem_of_omap in Hh as (p & _ & Hp).
      apply reuse_of_Some in Hp as (s & ce & _ & Hce & _ & ->). simpl.
      by apply (map_Forall_lookup_1 _ _ _ _ Hcache Hce).
    - apply list_elem_of_omap in Hh as (q & _ & Hh). unfold hashed in Hh.
      destruct (fingerprint w q) as [d |] eqn:Hd; simplify_eq/=.
      by eapply fingerprint_64. }
  assert (Hedited :
    Forall (fun eh => fingerprint64 (hashing.dhash eh)) edited).
  { apply Forall_forall. intros h Hh.
    apply list_elem_of_omap in Hh as (p & _ & Hh).
    destruct (fingerprint w p) as [d |] eqn:Hd; simplify_eq/=.
    by eapply fingerprint_64. }
  eexists _, _, _. split; [reflexivity |]. split; [reflexivity |].
  split_and!; [done | done |].
  intros Hne eh Heh.
  pose proof (proj1 (Forall_forall _ _) Hedited eh Heh) as He.
  destruct (find_best_match_nonempty eh raw max_distance He Hraw Hne)
    as (k & rh & Hfn & ->).
  pose proof Hfn as (Hk & _).
  assert (Hin : rh ∈ raw) by (by eapply list_elem_of_lookup_2).
  eexists _, rh. split; [reflexivity |]. simpl.
  split_and!; try done.
  - apply hamming_distance_64; [done |].
    by apply (proj1 (Forall_forall _ _) Hraw).
  - apply hamming_distance_64; [done |].
    by apply (proj1 (Forall_forall _ _) Hraw).
  - destruct (dist_to eh rh <=? max_distance) eqn:Hle.
    + by apply Z.leb_le in Hle.
    + apply Z.leb_gt in Hle. split; [done | lia].
Qed.

Lemma hash_then_match_witness :
  let w := demo.env in
  ∃ raw st' edited,
    _hash_raw_images w [] "/raw" "/out/cache.csv" 1 demo.fs_stale
    = (Ok raw, st')
    ∧ _hash_edited_images w "/edited" = Ok edited
    ∧ Forall (fun rh => fingerprint64 (hashing.dhash rh)) raw
    ∧ Forall (fun eh => fingerprint64 (hashing.dhash eh)) edited
    ∧ (raw ≠ [] →
       ∀ eh, eh ∈ edited →
         ∃ r rh, find_best_match eh raw 3 = Ok r
           ∧ rh ∈ raw
           ∧ matched_raw_path r = Some (path rh)
           ∧ matched_raw_hash r = Some (hashing.dhash rh)
           ∧ distance r = Some (dist_to eh rh)
           ∧ 0 <= dist_to eh rh <= 64
           ∧ (status r = "matched" ↔ dist_to eh rh <= 3)).
Proof.
  apply (hash_then_match demo.env [] "/raw" "/edited" "/out/cache.csv" 1 3
           demo.fs_stale).
  - intros q. reflexivity.
  - apply map_Forall_lookup_2. intros k ce Hk.
    change (resolve demo.env _) with "/out/cache.csv" in Hk.
    rewrite (load_cache_usual_header demo.fs_stale "/out/cache.csv"
               [["/raw/a.jpg"; "100"; "10"; "0"];
                ["/raw/b.jpg"; "150"; "20"; "12"];
                ["/raw/gone.jpg"; "50"; "5"; "5"]] eq_refl) in Hk.
    destruct k as [key |]; [| by rewrite bind_rows_lookup_None in Hk].
    apply bind_rows_lookup in Hk as (i & row & Hi & Hrow & _).
    destruct i as [| [| [| i]]]; simpl in Hi; simplify_eq;
      vm_compute in Hrow; simplify_eq; unfold fingerprint64; simpl; lia.
Defined.

End pipeline.
